(** * gcs_copy: a shallow embedding of [gcs_copy.go]

    The program copies files between the local file system and Google Cloud
    Storage.  Go strings are byte sequences and are modelled by [string]
    (lists of [ascii]); the external world (local file system, object store,
    descriptor table, log) is an explicit state threaded through a small
    state-and-exit monad, because [log.Fatal] ends the process. *)

From Stdlib Require Import Ascii String.
From stdpp Require Import gmap strings list fin_maps sorting.

Local Open Scope string_scope.

(** ** Byte strings *)

Definition slash : ascii := "/"%char.
Definition newline : ascii := "010"%char.
Definition dquote : ascii := "034"%char.

Definition bytes_of (s : string) : list ascii := list_ascii_of_string s.

(** Go's slice expression [s[n:]]; [None] is the run-time panic for [n]
    beyond the length of [s]. *)
Fixpoint slice_from (n : nat) (s : string) : option string :=
  match n, s with
  | 0, _ => Some s
  | S n', String _ s' => slice_from n' s'
  | S _, EmptyString => None
  end.

Fixpoint string_forallb (p : ascii -> bool) (s : string) : bool :=
  match s with
  | EmptyString => true
  | String c s' => p c && string_forallb p s'
  end.

(** The byte [c] occurs in [s]. *)
Definition contains (c : ascii) (s : string) : Prop :=
  In c (list_ascii_of_string s).

(** Go's slice expression [s[lo:hi]]. *)
Definition string_slice (lo hi : nat) (s : string) : string :=
  String.substring lo (hi - lo) s.

(** ** The fragment of Go's [regexp] syntax used by the program

    Go compiles a pattern with the Perl flags: [.] matches every character but
    the line feed, a negated class such as [[^/]] matches every other character
    (line feed included), and without the [m] flag [^] and [$] match only at
    the beginning and at the end of the text.  Matching is leftmost-first with
    greedy repetition, which the backtracking matcher below implements: it
    tries the alternatives in priority order and hands the rest of the pattern
    over as a continuation. *)

Inductive regex : Type :=
| BeginText
| EndText
| Empty
| Char (c : ascii)
| StarOf (cls : ascii -> bool)
| Cat (r1 r2 : regex)
| Capture (i : nat) (r : regex).

(** [.] *)
Definition any_not_nl (c : ascii) : bool := negb (Ascii.eqb c newline).
(** [[^/]] *)
Definition not_slash (c : ascii) : bool := negb (Ascii.eqb c slash).

(** Capture registers: byte offsets of the start and the end of each group. *)
Definition captures := list (nat * (nat * nat)).

Definition cont := nat -> string -> captures -> option (nat * captures).

Fixpoint star_match (cls : ascii -> bool) (k : cont)
    (pos : nat) (rest : string) (cs : captures) : option (nat * captures) :=
  match rest with
  | String c rest' =>
      if cls c then
        match star_match cls k (S pos) rest' cs with
        | Some r => Some r
        | None => k pos rest cs
        end
      else k pos rest cs
  | EmptyString => k pos rest cs
  end.

Fixpoint regex_match (r : regex) (k : cont)
    (pos : nat) (rest : string) (cs : captures) : option (nat * captures) :=
  match r with
  | BeginText => if Nat.eqb pos 0 then k pos rest cs else None
  | EndText => match rest with EmptyString => k pos rest cs | _ => None end
  | Empty => k pos rest cs
  | Char c =>
      match rest with
      | String c' rest' => if Ascii.eqb c c' then k (S pos) rest' cs else None
      | EmptyString => None
      end
  | StarOf cls => star_match cls k pos rest cs
  | Cat r1 r2 => regex_match r1 (regex_match r2 k) pos rest cs
  | Capture i r =>
      regex_match r (fun pos' rest' cs' => k pos' rest' ((i, (pos, pos')) :: cs'))
        pos rest cs
  end.

(** The unanchored search: the leftmost start position that matches wins. *)
Fixpoint regex_search (r : regex) (pos : nat) (rest : string)
    : option (nat * (nat * captures)) :=
  match regex_match r (fun p _ cs => Some (p, cs)) pos rest [] with
  | Some m => Some (pos, m)
  | None =>
      match rest with
      | String _ rest' => regex_search r (S pos) rest'
      | EmptyString => None
      end
  end.

Definition capture_bounds (i : nat) (cs : captures) : option (nat * nat) :=
  snd <$> List.find (fun e => Nat.eqb (fst e) i) cs.

(** [Regexp.FindStringSubmatch]: [None] is the nil slice; otherwise element 0
    is the whole match and element [i] the text of group [i]. *)
Definition regexp_FindStringSubmatch (r : regex) (ngroups : nat) (text : string)
    : option (list string) :=
  match regex_search r 0 text with
  | None => None
  | Some (lo, (hi, cs)) =>
      Some (string_slice lo hi text ::
            List.map (fun i =>
                   match capture_bounds i cs with
                   | Some (a, b) => string_slice a b text
                   | None => EmptyString
                   end) (seq 1 ngroups))
  end.

Fixpoint literal (s : string) : regex :=
  match s with
  | EmptyString => Empty
  | String c s' => Cat (Char c) (literal s')
  end.

(** The pattern of [gcsRegexp] as the source spells it. *)
Definition gcsRegexp_pattern : string := "^gs://([^/]*)/(.*)$".

(** [gcsRegexp]: what [regexp.MustCompile] builds from [gcsRegexp_pattern]:
    the anchor, the five literal bytes, group 1 (a greedy run of non-slash
    bytes), a slash, group 2 (a greedy run of bytes other than the line
    feed), the end-of-text anchor. *)
Definition gcsRegexp : regex :=
  Cat BeginText
   (Cat (literal "gs://")
    (Cat (Capture 1 (StarOf not_slash))
     (Cat (Char slash)
      (Cat (Capture 2 (StarOf any_not_nl))
       EndText)))).

(** The error of [splitGcsPath]: the path between double quotes, followed by
    the text below. *)
Definition not_a_gcs_path (path : string) : string :=
  String dquote path +:+ String dquote " is not a valid GCS path".

(** [splitGcsPath]: the third component is the [error] ([None] is [nil]). *)
Definition splitGcsPath (path : string) : string * string * option string :=
  match regexp_FindStringSubmatch gcsRegexp 2 path with
  | Some matches =>
      (nth 1 matches EmptyString, nth 2 matches EmptyString, None)
  | None => (EmptyString, EmptyString, Some (not_a_gcs_path path))
  end.

(** ** Go's [strings] and [path/filepath] (Unix) on byte strings *)

Fixpoint strings_HasSuffix_slash (s : string) : bool :=
  match s with
  | EmptyString => false
  | String c EmptyString => Ascii.eqb c slash
  | String _ s' => strings_HasSuffix_slash s'
  end.

(** [strings.HasPrefix]. *)
Definition strings_HasPrefix (s pre : string) : bool := String.prefix pre s.

(** The elements of a path: the text between the separators. *)
Fixpoint split_slash (s : string) : list string :=
  match s with
  | EmptyString => [EmptyString]
  | String c s' =>
      if Ascii.eqb c slash then EmptyString :: split_slash s'
      else match split_slash s' with
           | seg :: segs => String c seg :: segs
           | [] => [String c EmptyString]
           end
  end.

Definition join_slash (elems : list string) : string := String.concat "/" elems.

Definition is_rooted (p : string) : bool :=
  match p with
  | String c _ => Ascii.eqb c slash
  | EmptyString => false
  end.

(** One round of the loop of [filepath.Clean]; [out] holds the elements
    written so far, last one first.  An empty element and [.] are skipped;
    [..] removes the last element unless there is none to remove (then it is
    dropped under a root and kept otherwise). *)
Definition clean_step (rooted : bool) (out : list string) (elem : string)
    : list string :=
  if String.eqb elem "" || String.eqb elem "." then out
  else if String.eqb elem ".." then
    match out with
    | e :: out' => if String.eqb e ".." then elem :: out else out'
    | [] => if rooted then out else [elem]
    end
  else elem :: out.

(** A cleaned path: whether it starts at the root, and its elements. *)
Definition location : Type := bool * list string.

Definition resolve (p : string) : location :=
  (is_rooted p, rev (fold_left (clean_step (is_rooted p)) (split_slash p) [])).

Definition render (l : location) : string :=
  if l.1 then String slash (join_slash l.2)
  else match l.2 with
       | [] => "."
       | _ => join_slash l.2
       end.

Definition filepath_Clean (p : string) : string := render (resolve p).

(** [filepath.Join]: the empty leading elements are ignored, the others are
    joined with the separator and the result is cleaned. *)
Fixpoint filepath_Join (elem : list string) : string :=
  match elem with
  | [] => EmptyString
  | e :: rest =>
      if String.eqb e "" then filepath_Join rest
      else filepath_Clean (join_slash elem)
  end.

(** [filepath.Dir]: everything up to the last separator, cleaned. *)
Definition filepath_Dir (p : string) : string :=
  filepath_Clean (join_slash (removelast (split_slash p) ++ [EmptyString])).

Fixpoint strip_common (base targ : list string) : list string * list string :=
  match base, targ with
  | b :: base', t :: targ' =>
      if String.eqb b t then strip_common base' targ' else (base, targ)
  | _, _ => (base, targ)
  end.

Definition rel_error (basepath targpath : string) : string :=
  "Rel: can't make " +:+ targpath +:+ " relative to " +:+ basepath.

(** [filepath.Rel]: both paths are cleaned; equal paths give [.]; a rooted and
    an unrooted path cannot be related; otherwise the common leading elements
    are dropped, every element left in the base becomes [..] (an error if the
    first of them is itself [..]) and the rest of the target follows. *)
Definition filepath_Rel (basepath targpath : string) : string + string :=
  let base := resolve basepath in
  let targ := resolve targpath in
  if bool_decide (base = targ) then inl "."
  else if negb (Bool.eqb base.1 targ.1) then inr (rel_error basepath targpath)
  else
    let '(bs, ts) := strip_common base.2 targ.2 in
    match bs with
    | b :: _ =>
        if String.eqb b ".." then inr (rel_error basepath targpath)
        else inl (join_slash (List.map (fun _ => "..") bs ++ ts))
    | [] => inl (join_slash ts)
    end.


(** ** The world the program runs in

    Local paths are resolved lexically (symbolic links are outside the model):
    the file system maps a cleaned path to a regular file or a directory.
    The object store maps a bucket and an object name to the object's bytes.
    Every operation on the outside world is recorded in [trace], and [faults]
    tells which operations fail for reasons of the environment (permissions,
    full disk, network). *)

Definition bytes : Type := list Byte.byte.

Inductive fnode : Type :=
| File (data : bytes)
| Dir.

Inductive endpoint : Type :=
| LocalFile (l : location)
| Object (bucket name : string).

Inductive op : Type :=
| Stat (path : string)
| Lstat (path : string)
| ReadDir (path : string)
| Open (path : string)
| MkdirAll (path : string)
| Create (path : string)
| Copy (src dst : endpoint)
| Sync (fd : nat)
| Close (fd : nat)
| NewClient
| CloseClient
| ListObjects (bucket pre : string)
| NewReader (bucket name : string)
| CloseReader (bucket name : string)
| Upload (bucket name : string)
| ServerCopy (srcBucket srcName dstBucket dstName : string).

Inductive error : Type :=
| IOError (o : op)
| Errorf (msg : string)
| SkipDir.

Inductive entry : Type :=
| Line (msg : string)
| ErrorLine (e : error).

Record world : Type := World {
  files : gmap location fnode;
  objects : gmap (string * string) bytes;
  fds : gmap nat location;
  log : list entry;
  trace : list op;
  faults : op -> bool
}.

Definition set_files (f : gmap location fnode) (w : world) : world :=
  World f (objects w) (fds w) (log w) (trace w) (faults w).
Definition set_objects (o : gmap (string * string) bytes) (w : world) : world :=
  World (files w) o (fds w) (log w) (trace w) (faults w).
Definition set_fds (d : gmap nat location) (w : world) : world :=
  World (files w) (objects w) d (log w) (trace w) (faults w).
Definition add_log (e : entry) (w : world) : world :=
  World (files w) (objects w) (fds w) (log w ++ [e]) (trace w) (faults w).
Definition add_trace (o : op) (w : world) : world :=
  World (files w) (objects w) (fds w) (log w) (trace w ++ [o]) (faults w).

(** A run of a piece of the program returns, or ends the process with an
    exit code ([log.Fatal] exits with 1 and runs no deferred call), or exceeds
    the recursion depth granted to [filepath.Walk]. *)
Inductive outcome (A : Type) : Type :=
| Returned (a : A) (w : world)
| Exited (code : nat) (w : world)
| OutOfFuel.
Arguments Returned {A} a w.
Arguments Exited {A} code w.
Arguments OutOfFuel {A}.

Definition M (A : Type) : Type := world -> outcome A.

#[global] Instance M_ret : MRet M := fun A a w => Returned a w.
#[global] Instance M_bind : MBind M := fun A B f m w =>
  match m w with
  | Returned a w' => f a w'
  | Exited c w' => Exited c w'
  | OutOfFuel => OutOfFuel
  end.

Definition get_world : M world := fun w => Returned w w.
Definition put_world (w' : world) : M unit := fun _ => Returned tt w'.
Definition out_of_fuel {A} : M A := fun _ => OutOfFuel.
(** A run-time panic ends the process with status 2. *)
Definition go_panic {A} : M A := fun w => Exited 2 w.

Fixpoint for_each {A} (l : list A) (body : A -> M unit) : M unit :=
  match l with
  | [] => mret tt
  | x :: l' => body x;; for_each l' body
  end.

(** Record the operation; the result tells whether the environment fails it. *)
Definition perform (o : op) : M bool :=
  fun w => Returned (faults w o) (add_trace o w).

(** *** Go's [log] *)

Definition log_Print (msg : string) : M unit :=
  fun w => Returned tt (add_log (Line msg) w).
Definition log_Println (e : error) : M unit :=
  fun w => Returned tt (add_log (ErrorLine e) w).
Definition log_Fatal {A} (e : error) : M A :=
  fun w => Exited 1 (add_log (ErrorLine e) w).
Definition log_Fatalf {A} (msg : string) : M A :=
  fun w => Exited 1 (add_log (Line msg) w).

(** The idiom [x, err := f(); if err != nil { log.Fatal(err) }]. *)
Definition must {A} (m : M (A + error)) : M A :=
  r ← m;
  match r with
  | inl a => mret a
  | inr e => log_Fatal e
  end.

(** The idiom [err = f(); if err != nil { log.Fatal(err) }]. *)
Definition check (m : M (option error)) : M unit :=
  r ← m;
  match r with
  | None => mret tt
  | Some e => log_Fatal e
  end.

(** *** The local file system *)

Record FileInfo : Type := { IsDir : bool }.

Definition info_of (n : fnode) : FileInfo :=
  {| IsDir := match n with Dir => true | File _ => false end |}.

(** The current directory, the root and the directories above the current one
    always exist. *)
Definition is_anchor (l : location) : bool := forallb (String.eqb "..") l.2.

Definition lookup_node (fs : gmap location fnode) (l : location) : option fnode :=
  if is_anchor l then Some Dir else fs !! l.

Definition parent (l : location) : location := (l.1, removelast l.2).

Definition string_le (a b : string) : Prop := String.leb a b = true.
#[global] Instance string_le_dec a b : Decision (string_le a b).
Proof. unfold string_le. apply _. Defined.

Fixpoint strip_prefix (pre l : list string) : option (list string) :=
  match pre, l with
  | [], _ => Some l
  | p :: pre', x :: l' => if String.eqb p x then strip_prefix pre' l' else None
  | _ :: _, [] => None
  end.

Definition child_name (d k : location) : option string :=
  if Bool.eqb d.1 k.1 then
    match strip_prefix d.2 k.2 with
    | Some [n] => Some n
    | _ => None
    end
  else None.

(** The names in a directory, sorted as [readDirNames] sorts them. *)
Definition dir_names (fs : gmap location fnode) (d : location) : list string :=
  merge_sort string_le (omap (child_name d) (map_to_list fs).*1).

(** [os.MkdirAll] on a cleaned path, last element first: an existing
    directory is success, an existing file an error, and otherwise the parent
    is made first. *)
Fixpoint mkdir_all (rooted : bool) (rev_elems : list string)
    (fs : gmap location fnode) : option (gmap location fnode) :=
  match lookup_node fs (rooted, rev rev_elems) with
  | Some Dir => Some fs
  | Some (File _) => None
  | None =>
      match rev_elems with
      | [] => Some fs
      | _ :: up =>
          match mkdir_all rooted up fs with
          | Some fs' => Some (<[(rooted, rev rev_elems) := Dir]> fs')
          | None => None
          end
      end
  end.

Definition is_empty_path (path : string) : bool := String.eqb path "".

Definition os_Stat (path : string) : M (FileInfo + error) :=
  failed ← perform (Stat path);
  w ← get_world;
  if failed || is_empty_path path then mret (inr (IOError (Stat path)))
  else match lookup_node (files w) (resolve path) with
       | Some n => mret (inl (info_of n))
       | None => mret (inr (IOError (Stat path)))
       end.

Definition os_Lstat (path : string) : M (FileInfo + error) :=
  failed ← perform (Lstat path);
  w ← get_world;
  if failed || is_empty_path path then mret (inr (IOError (Lstat path)))
  else match lookup_node (files w) (resolve path) with
       | Some n => mret (inl (info_of n))
       | None => mret (inr (IOError (Lstat path)))
       end.

Definition readDirNames (path : string) : M (list string + error) :=
  failed ← perform (ReadDir path);
  w ← get_world;
  if failed || is_empty_path path then mret (inr (IOError (ReadDir path)))
  else match lookup_node (files w) (resolve path) with
       | Some Dir => mret (inl (dir_names (files w) (resolve path)))
       | _ => mret (inr (IOError (ReadDir path)))
       end.

(** [os.Open]: a new descriptor on an existing file or directory. *)
Definition os_Open (path : string) : M (nat + error) :=
  failed ← perform (Open path);
  w ← get_world;
  if failed || is_empty_path path then mret (inr (IOError (Open path)))
  else match lookup_node (files w) (resolve path) with
       | Some _ =>
           let fd := fresh (dom (fds w)) in
           put_world (set_fds (<[fd := resolve path]> (fds w)) w);;
           mret (inl fd)
       | None => mret (inr (IOError (Open path)))
       end.

Definition os_MkdirAll (path : string) : M (option error) :=
  failed ← perform (MkdirAll path);
  w ← get_world;
  if failed || is_empty_path path then mret (Some (IOError (MkdirAll path)))
  else match mkdir_all (resolve path).1 (rev (resolve path).2) (files w) with
       | Some fs' => put_world (set_files fs' w);; mret None
       | None => mret (Some (IOError (MkdirAll path)))
       end.

(** [os.OpenFile(path, os.O_WRONLY|os.O_CREATE|os.O_TRUNC, 0666)]: the
    directory of the file must exist; the file is created, or emptied if it
    exists. *)
Definition os_OpenFile (path : string) : M (nat + error) :=
  failed ← perform (Create path);
  w ← get_world;
  if failed || is_empty_path path then mret (inr (IOError (Create path)))
  else match lookup_node (files w) (resolve path),
             lookup_node (files w) (parent (resolve path)) with
       | Some Dir, _ => mret (inr (IOError (Create path)))
       | _, Some Dir =>
           let fd := fresh (dom (fds w)) in
           put_world (set_fds (<[fd := resolve path]> (fds w))
                        (set_files (<[resolve path := File []]> (files w)) w));;
           mret (inl fd)
       | _, _ => mret (inr (IOError (Create path)))
       end.

Definition file_Close (fd : nat) : M (option error) :=
  failed ← perform (Close fd);
  w ← get_world;
  match fds w !! fd with
  | Some _ =>
      put_world (set_fds (delete fd (fds w)) w);;
      if (failed : bool) then mret (Some (IOError (Close fd))) else mret None
  | None => mret (Some (IOError (Close fd)))
  end.

Definition file_Sync (fd : nat) : M (option error) :=
  failed ← perform (Sync fd);
  w ← get_world;
  match fds w !! fd with
  | Some _ => if (failed : bool) then mret (Some (IOError (Sync fd))) else mret None
  | None => mret (Some (IOError (Sync fd)))
  end.

(** *** The object store *)

Definition storage_NewClient : M (unit + error) :=
  failed ← perform NewClient;
  if (failed : bool) then mret (inr (IOError NewClient)) else mret (inl tt).

Definition client_Close : M unit :=
  _ ← perform CloseClient; mret tt.

Definition listed (bucket pre : string) (k : string * string) : option string :=
  if String.eqb k.1 bucket && strings_HasPrefix k.2 pre then Some k.2 else None.

(** The listing of [Bucket(bucket).Objects(ctx, Query(Prefix: pre))], fetched
    by the first [it.Next()] as one page, in the order of the names. *)
Definition list_objects (bucket pre : string) : M (list string + error) :=
  failed ← perform (ListObjects bucket pre);
  w ← get_world;
  if (failed : bool) then mret (inr (IOError (ListObjects bucket pre)))
  else mret (inl (merge_sort string_le
                    (omap (listed bucket pre) (map_to_list (objects w)).*1))).

Inductive reader : Type :=
| FileReader (fd : nat)
| ObjectReader (bucket name : string) (data : bytes).

Inductive writer : Type :=
| FileWriter (fd : nat)
| ObjectWriter (bucket name : string) (buf : bytes).

Definition object_NewReader (bucket name : string) : M (reader + error) :=
  failed ← perform (NewReader bucket name);
  w ← get_world;
  if (failed : bool) then mret (inr (IOError (NewReader bucket name)))
  else match objects w !! (bucket, name) with
       | Some data => mret (inl (ObjectReader bucket name data))
       | None => mret (inr (IOError (NewReader bucket name)))
       end.

Definition reader_Close (bucket name : string) : M unit :=
  _ ← perform (CloseReader bucket name); mret tt.

(** [NewWriter] contacts nobody; the object is committed by [Close]. *)
Definition object_NewWriter (bucket name : string) : writer :=
  ObjectWriter bucket name [].

Definition writer_Close (bucket name : string) (buf : bytes) : M (option error) :=
  failed ← perform (Upload bucket name);
  w ← get_world;
  if (failed : bool) then mret (Some (IOError (Upload bucket name)))
  else put_world (set_objects (<[(bucket, name) := buf]> (objects w)) w);;
       mret None.

(** [dst.CopierFrom(src).Run(ctx)]: the service copies the object. *)
Definition copier_Run (srcBucket srcName dstBucket dstName : string)
    : M (option error) :=
  let o := ServerCopy srcBucket srcName dstBucket dstName in
  failed ← perform o;
  w ← get_world;
  if (failed : bool) then mret (Some (IOError o))
  else match objects w !! (srcBucket, srcName) with
       | Some data =>
           put_world (set_objects (<[(dstBucket, dstName) := data]> (objects w)) w);;
           mret None
       | None => mret (Some (IOError o))
       end.

(** *** [io.Copy]

    The source is read to its end through its handle, so a local file gives
    the bytes it holds when it is read; the bytes are appended through the
    destination handle. *)

Definition reader_endpoint (w : world) (r : reader) : option endpoint :=
  match r with
  | FileReader fd => LocalFile <$> fds w !! fd
  | ObjectReader b n _ => Some (Object b n)
  end.

Definition writer_endpoint (w : world) (d : writer) : option endpoint :=
  match d with
  | FileWriter fd => LocalFile <$> fds w !! fd
  | ObjectWriter b n _ => Some (Object b n)
  end.

Definition read_all (w : world) (r : reader) : option bytes :=
  match r with
  | FileReader fd =>
      match fds w !! fd with
      | Some l => match files w !! l with
                  | Some (File data) => Some data
                  | _ => None
                  end
      | None => None
      end
  | ObjectReader _ _ data => Some data
  end.

Definition write_all (w : world) (d : writer) (data : bytes) : option (writer * world) :=
  match d with
  | FileWriter fd =>
      match fds w !! fd with
      | Some l => match files w !! l with
                  | Some (File old) =>
                      Some (d, set_files (<[l := File (old ++ data)%list]> (files w)) w)
                  | _ => None
                  end
      | None => None
      end
  | ObjectWriter b n buf => Some (ObjectWriter b n (buf ++ data)%list, w)
  end.

Definition bad_handle : error := Errorf "file already closed".

Definition io_Copy (dst : writer) (src : reader) : M (writer * option error) :=
  w ← get_world;
  match reader_endpoint w src, writer_endpoint w dst with
  | Some s, Some d =>
      failed ← perform (Copy s d);
      w ← get_world;
      match read_all w src with
      | Some data =>
          match write_all w dst data with
          | Some (dst', w') =>
              if (failed : bool) then mret (dst, Some (IOError (Copy s d)))
              else put_world w';; mret (dst', None)
          | None => mret (dst, Some (IOError (Copy s d)))
          end
      | None => mret (dst, Some (IOError (Copy s d)))
      end
  | _, _ => mret (dst, Some bad_handle)
  end.

(** *** [filepath.Walk]

    [fuel] bounds the depth of the recursion of [walk]; the names of a
    directory are read when the directory is entered, and every entry is
    looked up again just before it is visited. *)

Definition WalkFunc : Type :=
  string -> option FileInfo -> option error -> M (option error).

Definition is_SkipDir (e : error) : bool :=
  match e with SkipDir => true | _ => false end.

(** The loop of [walk] over the names of a directory; [walk_rec] is the
    recursive call. *)
Fixpoint walk_names (walk_rec : string -> FileInfo -> WalkFunc -> M (option error))
    (path : string) (walkFn : WalkFunc) (names : list string)
    : M (option error) :=
  match names with
  | [] => mret None
  | name :: names' =>
      let filename := filepath_Join [path; name] in
      r ← os_Lstat filename;
      match r with
      | inr e =>
          err ← walkFn filename None (Some e);
          match err with
          | Some e' =>
              if is_SkipDir e' then walk_names walk_rec path walkFn names'
              else mret (Some e')
          | None => walk_names walk_rec path walkFn names'
          end
      | inl fileInfo =>
          err ← walk_rec filename fileInfo walkFn;
          match err with
          | Some e' =>
              if negb (IsDir fileInfo) || negb (is_SkipDir e')
              then mret (Some e')
              else walk_names walk_rec path walkFn names'
          | None => walk_names walk_rec path walkFn names'
          end
      end
  end.

Fixpoint walk (fuel : nat) (path : string) (info : FileInfo) (walkFn : WalkFunc)
    : M (option error) :=
  match fuel with
  | 0 => out_of_fuel
  | S fuel' =>
      if negb (IsDir info) then walkFn path (Some info) None
      else
        r ← readDirNames path;
        let err := match r with inl _ => None | inr e => Some e end in
        let names := match r with inl ns => ns | inr _ => [] end in
        err1 ← walkFn path (Some info) err;
        match err, err1 with
        | None, None => walk_names (walk fuel') path walkFn names
        | _, _ => mret err1
        end
  end.

Definition filepath_Walk (fuel : nat) (root : string) (walkFn : WalkFunc)
    : M (option error) :=
  r ← os_Lstat root;
  err ← match r with
        | inr e => walkFn root None (Some e)
        | inl info => walk fuel root info walkFn
        end;
  match err with
  | Some e => if is_SkipDir e then mret None else mret (Some e)
  | None => mret None
  end.

(** ** The program *)

Definition quoted (s : string) : string := String dquote s +:+ String dquote "".

Definition gs_url (bucket name : string) : string :=
  "gs://" +:+ bucket +:+ "/" +:+ name.

(** The destination name under a remote root: the root, a slash unless the
    root ends with one, and the relative path. *)
Definition under_prefix (dstPath relFilePath : string) : string :=
  let dstFilePath := dstPath in
  let dstFilePath :=
    if negb (strings_HasSuffix_slash dstFilePath) then dstFilePath +:+ "/"
    else dstFilePath in
  dstFilePath +:+ relFilePath.

Definition copyFileFromGcsToLocal (srcBucket srcFilePath dstFilePath : string)
    : M unit :=
  must storage_NewClient;;
  log_Print ("Copying from " +:+ quoted (gs_url srcBucket srcFilePath)
             +:+ " to " +:+ quoted dstFilePath);;
  srcReader ← must (object_NewReader srcBucket srcFilePath);
  let dstFileDir := filepath_Dir dstFilePath in
  check (os_MkdirAll dstFileDir);;
  dstWriter ← must (os_OpenFile dstFilePath);
  r ← io_Copy (FileWriter dstWriter) srcReader;
  check (mret r.2);;
  check (file_Sync dstWriter);;
  (* deferred calls, last one first: dstWriter.Close(), srcReader.Close() *)
  _ ← file_Close dstWriter;
  reader_Close srcBucket srcFilePath.

(** The body of the loop of [copyFromGcsToLocal] for one listed object. *)
Definition copyFromGcsToLocal_entry (srcBucket srcPath dstPath name : string)
    : M unit :=
  let srcFilePath := name in
  match slice_from (String.length srcPath) srcFilePath with
  | None => go_panic
  | Some relPath =>
      if String.eqb relPath "" then
        copyFileFromGcsToLocal srcBucket srcFilePath dstPath
      else
        let dstFilePath := filepath_Join [dstPath; relPath] in
        copyFileFromGcsToLocal srcBucket srcFilePath dstFilePath
  end.

Definition copyFromGcsToLocal (srcBucket srcPath dstPath : string)
    : M (option error) :=
  must storage_NewClient;;
  it ← must (list_objects srcBucket srcPath);
  for_each it (copyFromGcsToLocal_entry srcBucket srcPath dstPath);;
  mret None.

Definition copyFileFromLocalToGcs (srcFilePath dstBucket dstFilePath : string)
    : M unit :=
  must storage_NewClient;;
  src ← must (os_Open srcFilePath);
  log_Print ("Copying from " +:+ quoted srcFilePath
             +:+ " to " +:+ quoted (gs_url dstBucket dstFilePath));;
  let dst := object_NewWriter dstBucket dstFilePath in
  r ← io_Copy dst (FileReader src);
  check (mret r.2);;
  check (match r.1 with
         | ObjectWriter b n buf => writer_Close b n buf
         | FileWriter fd => file_Close fd
         end);;
  (* deferred call: client.Close() *)
  client_Close.

Definition rel_result (r : string + string) : string + error :=
  match r with
  | inl rel => inl rel
  | inr msg => inr (Errorf msg)
  end.

Definition info_IsDir (info : option FileInfo) : bool :=
  match info with
  | Some i => IsDir i
  | None => false
  end.

(** The function literal that [copyFromLocalToGcs] hands to [filepath.Walk]. *)
Definition copyFromLocalToGcs_walkFn (srcPath dstBucket dstPath : string)
    : WalkFunc :=
  fun srcFilePath info err =>
    check (mret err);;
    relFilePath ← must (mret (rel_result (filepath_Rel srcPath srcFilePath)));
    (if negb (String.eqb relFilePath ".") && negb (info_IsDir info) then
       let dstFilePath := under_prefix dstPath relFilePath in
       copyFileFromLocalToGcs srcFilePath dstBucket dstFilePath
     else mret tt);;
    mret None.

Definition copyFromLocalToGcs (fuel : nat) (srcPath dstBucket dstPath : string)
    : M unit :=
  fi ← must (os_Stat srcPath);
  if negb (IsDir fi) then copyFileFromLocalToGcs srcPath dstBucket dstPath
  else
    err ← filepath_Walk fuel srcPath
            (copyFromLocalToGcs_walkFn srcPath dstBucket dstPath);
    match err with
    | Some e => log_Println e
    | None => mret tt
    end.

Definition copyFileFromGcsToGcs
    (srcBucket srcFilePath dstBucket dstFilePath : string) : M unit :=
  must storage_NewClient;;
  log_Print ("Copying from " +:+ quoted (gs_url srcBucket srcFilePath)
             +:+ " to " +:+ quoted (gs_url dstBucket dstFilePath));;
  check (copier_Run srcBucket srcFilePath dstBucket dstFilePath);;
  (* deferred call: client.Close() *)
  client_Close.

(** The body of the loop of [copyFromGcsToGcs] for one listed object. *)
Definition copyFromGcsToGcs_entry
    (srcBucket srcPath dstBucket dstPath name : string) : M unit :=
  let srcFilePath := name in
  match slice_from (String.length srcPath) srcFilePath with
  | None => go_panic
  | Some relFilePath =>
      if String.eqb relFilePath "" then
        copyFileFromGcsToGcs srcBucket srcFilePath dstBucket dstPath
      else
        let dstFilePath := under_prefix dstPath relFilePath in
        copyFileFromGcsToGcs srcBucket srcFilePath dstBucket dstFilePath
  end.

Definition copyFromGcsToGcs (srcBucket srcPath dstBucket dstPath : string)
    : M (option error) :=
  must storage_NewClient;;
  it ← must (list_objects srcBucket srcPath);
  for_each it (copyFromGcsToGcs_entry srcBucket srcPath dstBucket dstPath);;
  mret None.

Definition copyFileFromLocalToLocal (srcFilePath dstFilePath : string) : M unit :=
  src ← must (os_Open srcFilePath);
  let dstFileDir := filepath_Dir dstFilePath in
  check (os_MkdirAll dstFileDir);;
  dst ← must (os_OpenFile dstFilePath);
  log_Print ("Copying from " +:+ quoted srcFilePath
             +:+ " to " +:+ quoted dstFilePath);;
  r ← io_Copy (FileWriter dst) (FileReader src);
  check (mret r.2);;
  check (file_Close dst).

(** The function literal that [copyFromLocalToLocal] hands to [filepath.Walk]. *)
Definition copyFromLocalToLocal_walkFn (srcPath dstPath : string) : WalkFunc :=
  fun srcFilePath info err =>
    check (mret err);;
    relFilePath ← must (mret (rel_result (filepath_Rel srcPath srcFilePath)));
    (if negb (String.eqb relFilePath ".") && negb (info_IsDir info) then
       let dstFilePath := filepath_Join [dstPath; relFilePath] in
       copyFileFromLocalToLocal srcFilePath dstFilePath
     else mret tt);;
    mret None.

Definition copyFromLocalToLocal (fuel : nat) (srcPath dstPath : string) : M unit :=
  fi ← must (os_Stat srcPath);
  if negb (IsDir fi) then copyFileFromLocalToLocal srcPath dstPath
  else
    err ← filepath_Walk fuel srcPath (copyFromLocalToLocal_walkFn srcPath dstPath);
    match err with
    | Some e => log_Println e
    | None => mret tt
    end.

Definition is_nil (err : option string) : bool :=
  match err with
  | None => true
  | Some _ => false
  end.

Definition usage (program : string) : string :=
  "Usage: " +:+ program +:+ " <src> <dst>".

(** [main]: [program] is [os.Args[0]] and [args] is [flag.Args()], the
    positional arguments left by [flag.Parse()] (the program defines no
    flag). *)
Definition main (fuel : nat) (program : string) (args : list string) : M unit :=
  if Nat.ltb (length args) 2 then log_Fatalf (usage program)
  else
    let from := nth 0 args "" in
    let to := nth 1 args "" in
    log_Print ("From: " +:+ from);;
    log_Print ("To: " +:+ to);;
    let '(fromBkt, fromObj, err) := splitGcsPath from in
    let srcIsGcs := is_nil err in
    let '(toBkt, toObj, err) := splitGcsPath to in
    let dstIsGcs := is_nil err in
    (if srcIsGcs then
       if dstIsGcs then
         _ ← copyFromGcsToGcs fromBkt fromObj toBkt toObj; mret tt
       else
         _ ← copyFromGcsToLocal fromBkt fromObj to; mret tt
     else
       if dstIsGcs then copyFromLocalToGcs fuel from toBkt toObj
       else copyFromLocalToLocal fuel from to);;
    log_Print "Finished copying".

(** The exit status of the process. *)
Definition exit_status {A} (o : outcome A) : option nat :=
  match o with
  | Returned _ _ => Some 0
  | Exited c _ => Some c
  | OutOfFuel => None
  end.

Definition final_world {A} (o : outcome A) : option world :=
  match o with
  | Returned _ w => Some w
  | Exited _ w => Some w
  | OutOfFuel => None
  end.

(** * The vocabulary of the statements *)

(** The longest prefix of [s] in the class, and what follows it. *)
Fixpoint span (cls : ascii -> bool) (s : string) : string * string :=
  match s with
  | EmptyString => (EmptyString, EmptyString)
  | String c s' =>
      if cls c then (String c (span cls s').1, (span cls s').2)
      else (EmptyString, s)
  end.

(** What is left of [s] after the literal [lit], if [s] starts with it. *)
Fixpoint strip_literal (lit s : string) : option string :=
  match lit, s with
  | EmptyString, _ => Some s
  | String c lit', String c' s' =>
      if Ascii.eqb c c' then strip_literal lit' s' else None
  | String _ _, EmptyString => None
  end.

(** The shape test that [gcsRegexp] performs, written out. *)
Definition gcs_shape (s : string) : option (string * string) :=
  match strip_literal "gs://" s with
  | None => None
  | Some s1 =>
      match (span not_slash s1).2 with
      | EmptyString => None
      | String _ s2 =>
          match (span any_not_nl s2).2 with
          | EmptyString => Some ((span not_slash s1).1, (span any_not_nl s2).1)
          | String _ _ => None
          end
      end
  end.

(** What [splitGcsPath] returns for a string that is not a remote path. *)
Definition local_path_result (s : string) : string * string * option string :=
  (EmptyString, EmptyString, Some (not_a_gcs_path s)).

(** A machine with no file and no object. *)
Definition empty_world : world := World ∅ ∅ ∅ [] [] (fun _ => false).

(** A name of a directory entry. *)
Definition is_name (n : string) : bool :=
  negb (String.eqb n "") && negb (String.eqb n ".") && negb (String.eqb n "..")
  && string_forallb not_slash n.

(** The elements after the leading [..] elements. *)
Fixpoint skip_dotdots (elems : list string) : list string :=
  match elems with
  | e :: elems' => if String.eqb e ".." then skip_dotdots elems' else elems
  | [] => []
  end.

(** The locations that [resolve] produces. *)
Definition is_clean (l : location) : bool :=
  forallb is_name (if l.1 then l.2 else skip_dotdots l.2).

(** Every element is a proper name: not empty, not [.] or [..], and free of
    separators. *)
Definition names_ok (names : list string) : Prop :=
  Forall (fun n => is_name n = true) names.

(** [k] times [..]. *)
Definition dotdots (k : nat) : list string := repeat ".." k.

(** The shape of a cleaned path: [..] elements, only at the front and only
    without a root, then names. *)
Definition clean_form (rooted : bool) (elems : list string) : Prop :=
  exists k names,
    elems = (dotdots k ++ names)%list /\ names_ok names /\ (rooted = true -> k = 0).

(** The buffer of [Clean] keeps the shape: names on top of [..] elements. *)
Definition buffer_form (rooted : bool) (out : list string) : Prop :=
  clean_form rooted (rev out).

(** A bucket with an object named like the prefix, one under it, and one
    elsewhere. *)
Definition sample_objects : world :=
  World ∅ (list_to_map [(("bkt", "dir/a.txt"), [Byte.x68; Byte.x69]);
                         (("bkt", "dir"), [Byte.x6f]);
                         (("bkt", "other"), [])])
        ∅ [] [] (fun _ => false).

(** A walk function that never returns an error, and ends the process when
    it is handed one. *)
Definition fatal_on_error (fn : WalkFunc) : Prop :=
  forall path info err w r w',
    fn path info err w = Returned r w' -> r = None /\ err = None.

(** A directory [a] with an unreadable subdirectory [a/bad] and a file
    [a/z.txt]. *)
Definition unreadable_subdir : world :=
  World (list_to_map [((false, ["a"]), Dir);
                      ((false, ["a"; "bad"]), Dir);
                      ((false, ["a"; "z.txt"]), File [Byte.x7a])])
        ∅ ∅ [] []
        (fun o => match o with
                  | ReadDir p => String.eqb p "a/bad"
                  | _ => false
                  end).

(** A file [a.txt] holding two bytes, and no open descriptor. *)
Definition one_file : world :=
  World (list_to_map [((false, ["a.txt"]), File [Byte.x68; Byte.x69])])
        ∅ ∅ [] [] (fun _ => false).

(** Every run of [m] that ends relates the world it leaves to the world it
    started in. *)
Definition stable (R : world -> world -> Prop) {A} (m : M A) : Prop :=
  forall w,
    match m w with
    | Returned _ w' => R w w'
    | Exited _ w' => R w w'
    | OutOfFuel => True
    end.

(** The locations an operation may create or change. *)
Definition touches_file (o : op) (l : location) : bool :=
  match o with
  | MkdirAll p =>
      Bool.eqb l.1 (resolve p).1
      && bool_decide (l.2 `prefix_of` (resolve p).2)
      && negb (is_anchor l)
  | Create p => bool_decide (l = resolve p)
  | Copy _ (LocalFile l') => bool_decide (l = l')
  | _ => false
  end.

(** The objects an operation may create or replace. *)
Definition touches_object (o : op) (k : string * string) : bool :=
  match o with
  | Upload b n => bool_decide (k = (b, n))
  | ServerCopy _ _ b n => bool_decide (k = (b, n))
  | _ => false
  end.

(** Some operation of the trace touches the location, or the object. *)
Definition writes_file (t : list op) (l : location) : bool :=
  existsb (fun o => touches_file o l) t.
Definition writes_object (t : list op) (k : string * string) : bool :=
  existsb (fun o => touches_object o k) t.

(** The operations performed between two states of a run. *)
Definition new_ops (w w' : world) : list op := drop (length (trace w)) (trace w').

(** [w'] comes after [w]: the trace has grown, and whatever the new
    operations do not touch is as it was. *)
Definition evolves (w w' : world) : Prop :=
  exists t,
    trace w' = (trace w ++ t)%list
    /\ faults w' = faults w
    /\ (forall l, writes_file t l = false -> files w' !! l = files w !! l)
    /\ (forall k, writes_object t k = false -> objects w' !! k = objects w !! k).

(** The local files, or the objects, are exactly as before. *)
Definition same_files (w w' : world) : Prop := files w' = files w.
Definition same_objects (w w' : world) : Prop := objects w' = objects w.

(** Two files in the current directory. *)
Definition two_files : world :=
  World (list_to_map [((false, ["a.txt"]), File [Byte.x68; Byte.x69]);
                      ((false, ["c.txt"]), File [Byte.x63])])
        ∅ ∅ [] [] (fun _ => false).

(** No operation fails for reasons of the environment. *)
Definition quiet (w : world) : Prop := forall o, faults w o = false.

(** The transfers recorded in a trace: the source and the destination of each
    copy between two local files. *)
Definition copies (t : list op) : list (location * location) :=
  omap (fun o => match o with
                 | Copy (LocalFile s) (LocalFile d) => Some (s, d)
                 | _ => None
                 end) t.

(** The location reached from [a] by the relative path [rel]. *)
Definition at_path (a : location) (rel : list string) : location :=
  (a.1, (a.2 ++ rel)%list).

(** [l] is [a] or lies under it. *)
Definition is_below (a l : location) : bool :=
  Bool.eqb a.1 l.1 && bool_decide (a.2 `prefix_of` l.2).

(** Every entry has a clean path and lives in a directory. *)
Definition wf_files (fs : gmap location fnode) : Prop :=
  map_Forall (fun l _ =>
                is_clean l = true /\ is_anchor l = false
                /\ lookup_node fs (parent l) = Some Dir) fs.

Local Open Scope list_scope.

(** The states of the walk: the source is as it was, and the destination
    holds nothing but copies. *)
Record Inv (F0 : gmap location fnode) (Src Dst : location) (w : world)
    : Prop := {
  inv_quiet : quiet w;
  inv_frame : forall l,
    is_below Dst l = false -> is_below l Dst = false -> files w !! l = F0 !! l;
  inv_above : forall l n,
    is_below l Dst = true -> files w !! l = Some n -> n = Dir;
  inv_mirror : forall rel n,
    rel <> [] -> files w !! at_path Dst rel = Some n ->
    names_ok rel /\ F0 !! at_path Src rel = Some n
}.

(** From [w] to [w'] the leaves [rels] were copied, in this order. *)
Definition Copied (F0 : gmap location fnode) (Src Dst : location)
    (rels : list (list string)) (w w' : world) : Prop :=
  Inv F0 Src Dst w'
  /\ (forall l d, files w !! l = Some (File d) -> files w' !! l = Some (File d))
  /\ (forall r, r ∈ rels ->
        exists data, F0 !! at_path Src r = Some (File data)
                     /\ files w' !! at_path Dst r = Some (File data))
  /\ exists t,
       trace w' = trace w ++ t
       /\ copies t = (fun r => (at_path Src r, at_path Dst r)) <$> rels.

(** The leaves of the source tree at or under [rel]. *)
Definition leaf_under (F0 : gmap location fnode) (Src : location)
    (rel r : list string) : Prop :=
  rel `prefix_of` r /\ names_ok r
  /\ exists data, F0 !! at_path Src r = Some (File data).

(** The walk of the source tree from [rel] downwards copies the leaves
    under [rel], each of them once. *)
Definition walked (F0 : gmap location fnode) (Src Dst : location)
    (rel : list string) (w : world) (o : outcome (option error)) : Prop :=
  exists w' rels,
    o = Returned None w' /\ Copied F0 Src Dst rels w w' /\ NoDup rels
    /\ forall r, r ∈ rels <-> leaf_under F0 Src rel r.

(** Nothing exists at or below [dst], and what lies above it are directories. *)
Definition fresh_under (fs : gmap location fnode) (dst : location) : Prop :=
  map_Forall (fun l n => is_below dst l = false
                         /\ (is_below l dst = true -> n = Dir)) fs.

(** No entry lies [fuel] or more levels below [src]. *)
Definition within_depth (fs : gmap location fnode) (src : location) (fuel : nat)
    : Prop :=
  map_Forall (fun l _ => is_below src l = true ->
                         length l.2 < length src.2 + fuel) fs.

(** A directory [a] holding a file, a subdirectory with a file, and an empty
    subdirectory. *)
Definition sample_tree : world :=
  World (list_to_map [((false, ["a"]), Dir);
                      ((false, ["a"; "1.txt"]), File [Byte.x61]);
                      ((false, ["a"; "sub"]), Dir);
                      ((false, ["a"; "sub"; "2.txt"]), File [Byte.x62]);
                      ((false, ["a"; "empty"]), Dir)])
        ∅ ∅ [] [] (fun _ => false).

(** A directory [a] holding a file and an empty subdirectory [s]. *)
Definition nested_tree : world :=
  World (list_to_map [((false, ["a"]), Dir);
                      ((false, ["a"; "1.txt"]), File [Byte.x61]);
                      ((false, ["a"; "s"]), Dir)])
        ∅ ∅ [] [] (fun _ => false).

(** The machine as the next process finds it: the files and objects stay,
    the descriptors of the process that ended are gone. *)
Definition next_run (w : world) : world :=
  World (files w) (objects w) ∅ (log w) (trace w) (faults w).

(** The prefixes of a list, the empty one first. *)
Definition prefixes {A} (l : list A) : list (list A) :=
  (fun i => take i l) <$> seq 0 (S (length l)).

(** The locations an operation may create or change, listed: for
    [os.MkdirAll] the path and the directories above it, as far as they are
    not directories that always exist. *)
Definition file_writes (o : op) : list location :=
  match o with
  | MkdirAll p =>
      filter (fun l => is_anchor l = false)
        ((fun es => ((resolve p).1, es)) <$> prefixes (resolve p).2)
  | Create p => [resolve p]
  | Copy _ (LocalFile l) => [l]
  | _ => []
  end.

(** The objects an operation may create or replace, listed. *)
Definition object_writes (o : op) : list (string * string) :=
  match o with
  | Upload b n => [(b, n)]
  | ServerCopy _ _ b n => [(b, n)]
  | _ => []
  end.

(** The operation looks at nothing that is in [fw] or [ow]: it opens,
    inspects and reads none of these files and objects, and lists no directory
    and no prefix that holds one of them. *)
Definition reads_apart (fw : list location) (ow : list (string * string))
    (o : op) : bool :=
  match o with
  | Stat p | Lstat p | Open p => bool_decide (resolve p ∉ fw)
  | ReadDir p =>
      bool_decide (resolve p ∉ fw)
      && forallb (fun l => bool_decide (child_name (resolve p) l = None)) fw
  | ListObjects b pre =>
      forallb (fun k => bool_decide (listed b pre k = None)) ow
  | NewReader b n => bool_decide ((b, n) ∉ ow)
  | ServerCopy sb sn _ _ => bool_decide ((sb, sn) ∉ ow)
  | _ => true
  end.

(** No operation of the run looks at what the run writes. *)
Definition separated (t : list op) : bool :=
  forallb (reads_apart (t ≫= file_writes) (t ≫= object_writes)) t.

(** What exists keeps its kind: a file stays a file, a directory a
    directory. *)
Definition kinds_kept (f f' : gmap location fnode) : Prop :=
  forall l n, f !! l = Some n ->
    exists n', f' !! l = Some n' /\ IsDir (info_of n') = IsDir (info_of n).

(** From [w] to [w'] the trace has grown and the kinds are kept. *)
Definition grows (w w' : world) : Prop :=
  (exists t, trace w' = trace w ++ t) /\ kinds_kept (files w) (files w').

(** The files of the second run against those of the first: a location holds
    the same in both, or it is one that the first run writes, not yet written
    and not open in the second, which still holds what the first run left. *)
Definition files_follow (FW : list location) (EF : gmap location fnode)
    (d : gmap nat location) (fw fv : gmap location fnode) : Prop :=
  forall l,
    fv !! l = fw !! l
    \/ (l ∈ FW /\ fv !! l = EF !! l /\ forall fd, d !! fd <> Some l).

(** A state [w] of the first run and the state [v] that the second run has
    reached by the same operations. [FW] and [OW] are the files and objects
    that the first run writes, [EF] and [EO] what it leaves. *)
Record Rel (FW : list location) (OW : list (string * string))
    (EF : gmap location fnode) (EO : gmap (string * string) bytes)
    (w v : world) : Prop := {
  rel_faults : faults v = faults w;
  rel_fds : fds v = fds w;
  rel_kept : kinds_kept EF (files v);
  rel_files : files_follow FW EF (fds w) (files w) (files v);
  rel_objects : forall k,
    objects v !! k = objects w !! k \/ (k ∈ OW /\ objects v !! k = EO !! k)
}.

(** What the first run does from [w] to [w'] looks at nothing it writes. *)
Definition ok_ops (FW : list location) (OW : list (string * string))
    (w w' : world) : Prop :=
  Forall (fun o => reads_apart FW OW o = true) (new_ops w w').

(** The second run does what the first did, wherever the first returns a
    result that is [good]. *)
Definition sim_on (FW : list location) (OW : list (string * string))
    (EF : gmap location fnode) (EO : gmap (string * string) bytes)
    {A} (good : A -> Prop) (m : M A) : Prop :=
  forall w v a w',
    m w = Returned a w' -> good a -> Rel FW OW EF EO w v ->
    ok_ops FW OW w w' -> kinds_kept (files w') EF ->
    exists v', m v = Returned a v' /\ Rel FW OW EF EO w' v'.

(** ... and on the way the first run only adds operations and keeps the
    kinds. *)
Definition Sim_on (FW : list location) (OW : list (string * string))
    (EF : gmap location fnode) (EO : gmap (string * string) bytes)
    {A} (good : A -> Prop) (m : M A) : Prop :=
  stable grows m /\ sim_on FW OW EF EO good m.

(** Whenever [m] returns, it has performed exactly the operation [o]. *)
Definition performs {A} (o : op) (m : M A) : Prop :=
  forall w a w', m w = Returned a w' -> trace w' = trace w ++ [o].

(** The world that a run leaves, or the world it started from if it does not
    finish. *)
Definition world_after (m : M unit) (w : world) : world :=
  match m w with
  | Returned _ w' => w'
  | Exited _ w' => w'
  | OutOfFuel => w
  end.

(** [sample_tree] after [a] was copied to [dst]. *)
Definition sample_tree_copied : world :=
  world_after (main 5 "gcs_copy" ["a"; "dst"]) sample_tree.

(** Whenever [m] ends the process, the status is 1. *)
Definition exits_with_1 {A} (m : M A) : Prop :=
  forall w c w', m w = Exited c w' -> c = 1.

(** A bucket with one object, and a directory [out] to receive it. *)
Definition one_object : world :=
  World (list_to_map [((false, ["out"]), Dir)])
        (list_to_map [(("bkt", "dir/a.txt"), [Byte.x68; Byte.x69])])
        ∅ [] [] (fun _ => false).

(** The name that the loop of [copyFromGcsToGcs] gives to the copy of the
    listed object [name]: the destination itself for the object named like
    the prefix, and otherwise the destination, a slash unless it ends in one,
    and the rest of the name. *)
Definition remote_destination (srcPath dstPath name : string) : string :=
  match slice_from (String.length srcPath) name with
  | Some relFilePath =>
      if String.eqb relFilePath "" then dstPath
      else under_prefix dstPath relFilePath
  | None => dstPath
  end.

(** The object [name] of the source bucket is listed under the prefix. *)
Definition listed_in (objs : gmap (string * string) bytes)
    (bucket pre name : string) : Prop :=
  String.prefix pre name = true /\ is_Some (objs !! (bucket, name)).

(** The objects after the names [done] of the listing were copied: each copy
    holds what its source held at the start, everything else is as it was. *)
Definition copied_objects (O0 : gmap (string * string) bytes)
    (srcBucket srcPath dstBucket dstPath : string) (done : list string)
    (w : world) : Prop :=
  quiet w
  /\ (forall n, n ∈ done ->
        objects w !! (dstBucket, remote_destination srcPath dstPath n)
        = O0 !! (srcBucket, n))
  /\ (forall k,
        (forall n, n ∈ done ->
                   k <> (dstBucket, remote_destination srcPath dstPath n)) ->
        objects w !! k = O0 !! k).

(** A bucket with two objects under [dir/] and one elsewhere. *)
Definition remote_tree : world :=
  World ∅ (list_to_map [(("bkt", "dir/a.txt"), [Byte.x61]);
                         (("bkt", "dir/sub/b.txt"), [Byte.x62]);
                         (("bkt", "other"), [Byte.x63])])
        ∅ [] [] (fun _ => false).

(** Every run of [m] that returns relates the world it leaves to the world
    it started in. *)
Definition returns (R : world -> world -> Prop) {A} (m : M A) : Prop :=
  forall w a w', m w = Returned a w' -> R w w'.

(** The operation is a transfer that reads a local file. *)
Definition reads_local (o : op) : bool :=
  match o with
  | Copy (LocalFile _) _ => true
  | _ => false
  end.

(** How many transfers of the trace read a local file. *)
Definition local_reads (t : list op) : nat :=
  length (List.filter reads_local t).

(** From [w] to [w'] the table of descriptors has grown by one entry for
    each transfer that read a local file. *)
Definition leaks (w w' : world) : Prop :=
  exists t,
    trace w' = trace w ++ t
    /\ size (fds w') = size (fds w) + local_reads t.

(** The operations on the local file system. *)
Definition is_local_op (o : op) : bool :=
  match o with
  | Stat _ | Lstat _ | ReadDir _ | Open _ | MkdirAll _ | Create _
  | Sync _ | Close _ => true
  | Copy (LocalFile _) (LocalFile _) => true
  | _ => false
  end.

(** The operations on the object store. *)
Definition is_remote_op (o : op) : bool :=
  match o with
  | NewClient | CloseClient | ListObjects _ _ | NewReader _ _
  | CloseReader _ _ | Upload _ _ | ServerCopy _ _ _ _ => true
  | _ => false
  end.

(** From [w] to [w'] only the local file system was used. *)
Definition local_only (w w' : world) : Prop :=
  (exists t, trace w' = trace w ++ t /\ forallb is_local_op t = true)
  /\ objects w' = objects w.

(** From [w] to [w'] only the object store was used. *)
Definition remote_only (w w' : world) : Prop :=
  (exists t, trace w' = trace w ++ t /\ forallb is_remote_op t = true)
  /\ files w' = files w /\ fds w' = fds w.

(** The path that the loop of [copyFromGcsToLocal] gives to the download of
    the listed object [name]: the destination itself for the object named
    like the prefix, and otherwise [filepath.Join] of the destination and the
    rest of the name. *)
Definition local_destination (srcPath dstPath name : string) : string :=
  match slice_from (String.length srcPath) name with
  | Some relPath =>
      if String.eqb relPath "" then dstPath
      else filepath_Join [dstPath; relPath]
  | None => dstPath
  end.

(** The file that the download of the listed object [name] writes. *)
Definition download_place (srcPath dstPath name : string) : location :=
  resolve (local_destination srcPath dstPath name).

(** The files after the names [done] of the listing were downloaded: each
    place holds the bytes of its object, and every other location is as it
    was or is a directory made above one of the places. *)
Definition downloaded (F0 : gmap location fnode)
    (O0 : gmap (string * string) bytes) (D0 : gmap nat location)
    (srcBucket srcPath dstPath : string) (done : list string) (w : world)
    : Prop :=
  quiet w /\ objects w = O0 /\ fds w = D0
  /\ (forall n data, n ∈ done -> O0 !! (srcBucket, n) = Some data ->
        files w !! download_place srcPath dstPath n = Some (File data))
  /\ (forall l,
        (exists n, n ∈ done /\ l = download_place srcPath dstPath n)
        \/ files w !! l = F0 !! l
        \/ (F0 !! l = None /\ files w !! l = Some Dir
            /\ exists n, n ∈ done
                 /\ is_below l (parent (download_place srcPath dstPath n)) = true)).

(** A bucket with two objects under [dir], and a local directory that holds a
    file of the name of one of them. *)
Definition download_tree : world :=
  World (list_to_map [((false, ["out"]), Dir);
                      ((false, ["out"; "a.txt"]), File [Byte.x30])])
        (list_to_map [(("bkt", "dir/a.txt"), [Byte.x61]);
                      (("bkt", "dir/sub/b.txt"), [Byte.x62]);
                      (("bkt", "other"), [Byte.x63])])
        ∅ [] [] (fun _ => false).

(** The name of the object that receives the file at the relative path
    [rel] of the source tree. *)
Definition upload_key (dstPath : string) (rel : list string) : string :=
  under_prefix dstPath (join_slash rel).

(** From [w] to [w'] the leaves [rels] were uploaded: the local files are
    untouched, each leaf is an object with its bytes, and the other objects
    are as in [w]. *)
Definition Uploaded (F0 : gmap location fnode) (Src : location)
    (dstBucket dstPath : string) (rels : list (list string)) (w w' : world)
    : Prop :=
  quiet w' /\ files w' = files w
  /\ (forall r, r ∈ rels ->
        names_ok r
        /\ exists data,
             F0 !! at_path Src r = Some (File data)
             /\ objects w' !! (dstBucket, upload_key dstPath r) = Some data)
  /\ (forall k,
        (forall r, r ∈ rels -> k <> (dstBucket, upload_key dstPath r)) ->
        objects w' !! k = objects w !! k).

(** The walk of the source tree from [rel] downwards uploads the leaves
    under [rel]. *)
Definition upload_walked (F0 : gmap location fnode) (Src : location)
    (dstBucket dstPath : string) (rel : list string) (w : world)
    (o : outcome (option error)) : Prop :=
  exists w' rels,
    o = Returned None w' /\ Uploaded F0 Src dstBucket dstPath rels w w'
    /\ forall r, r ∈ rels <-> leaf_under F0 Src rel r.

(** From [w] to [w'] the log has grown by plain lines only. *)
Definition calm (w w' : world) : Prop :=
  exists msgs, log w' = log w ++ (Line <$> msgs).

Local Open Scope string_scope.

(** * Proofs *)

(** * The model on examples *)

(** ** The path functions, on the cases of the documentation of
    [path/filepath] *)

Example Clean_ex1 : filepath_Clean "a//b/./c/.." = "a/b".
Proof. reflexivity. Qed.

Example Clean_ex2 : filepath_Clean "/../a/" = "/a".
Proof. reflexivity. Qed.

Example Clean_ex3 : filepath_Clean "../../a/../.." = "../../..".
Proof. reflexivity. Qed.

Example Clean_ex4 : filepath_Clean "" = ".".
Proof. reflexivity. Qed.

Example Clean_ex5 : filepath_Clean "/" = "/".
Proof. reflexivity. Qed.

Example Join_ex1 : filepath_Join ["dst"; "/a.txt"] = "dst/a.txt".
Proof. reflexivity. Qed.

Example Join_ex2 : filepath_Join [""; "a"] = "a".
Proof. reflexivity. Qed.

Example Join_ex3 : filepath_Join ["a"; ""] = "a".
Proof. reflexivity. Qed.

Example Dir_ex1 : filepath_Dir "x/y.txt" = "x".
Proof. reflexivity. Qed.

Example Dir_ex2 : filepath_Dir "y.txt" = ".".
Proof. reflexivity. Qed.

Example Dir_ex3 : filepath_Dir "/y.txt" = "/".
Proof. reflexivity. Qed.

Example Rel_ex1 : filepath_Rel "a" "a/sub/2.txt" = inl "sub/2.txt".
Proof. reflexivity. Qed.

Example Rel_ex2 : filepath_Rel "./a/" "a" = inl ".".
Proof. reflexivity. Qed.

Example Rel_ex3 : filepath_Rel "a/b" "a/c/d" = inl "../c/d".
Proof. reflexivity. Qed.

Example Rel_ex4 : filepath_Rel "/" "/a" = inl "a".
Proof. reflexivity. Qed.

Example Rel_ex5 : filepath_Rel "." "a/b" = inl "a/b".
Proof. reflexivity. Qed.

Example Rel_ex6 : filepath_Rel "a/b" "a" = inl "..".
Proof. reflexivity. Qed.

(** ** The pattern of remote paths *)

Example splitGcsPath_ex1 :
  splitGcsPath "gs://bucket/dir/file.txt" = ("bucket", "dir/file.txt", None).
Proof. reflexivity. Qed.

Example splitGcsPath_ex2 : splitGcsPath "gs://bucket/" = ("bucket", EmptyString, None).
Proof. reflexivity. Qed.

Example splitGcsPath_ex3 :
  splitGcsPath "gs://a/b/c" = ("a", "b/c", None).
Proof. reflexivity. Qed.

Example splitGcsPath_ex4 : is_nil (splitGcsPath "/tmp/gs://b/k").2 = false.
Proof. reflexivity. Qed.

Example splitGcsPath_ex5 : is_nil (splitGcsPath "s3://bucket/key").2 = false.
Proof. reflexivity. Qed.


(** * Byte strings *)

Lemma append_cons x (a b : string) : String x a +:+ b = String x (a +:+ b).
Proof. reflexivity. Qed.

Lemma append_nil_l (b : string) : "" +:+ b = b.
Proof. reflexivity. Qed.

Ltac sapp := rewrite ?append_cons, ?append_nil_l.

Lemma append_assoc (a b c : string) : (a +:+ b) +:+ c = a +:+ (b +:+ c).
Proof. induction a as [|x a IH]; sapp; [done | by f_equal]. Qed.

Lemma append_nil_r (a : string) : a +:+ "" = a.
Proof. induction a as [|x a IH]; sapp; [done | by f_equal]. Qed.

Lemma length_append (a b : string) :
  String.length (a +:+ b) = String.length a + String.length b.
Proof. induction a as [|x a IH]; sapp; simpl; [done | by f_equal]. Qed.

Lemma substring_here (n : nat) (a b : string) :
  String.length a = n -> String.substring 0 n (a +:+ b) = a.
Proof.
  revert n; induction a as [|x a IH]; intros n Hn; sapp; simpl in *; subst; simpl.
  - by destruct b.
  - by rewrite IH.
Qed.

Lemma substring_skip (a : string) (m : nat) (b : string) :
  String.substring (String.length a) m (a +:+ b) = String.substring 0 m b.
Proof. induction a as [|x a IH]; sapp; simpl; [done | exact IH]. Qed.

Lemma string_slice_middle (a b c : string) (lo hi : nat) :
  lo = String.length a -> hi = lo + String.length b ->
  string_slice lo hi (a +:+ b +:+ c) = b.
Proof.
  intros -> ->. unfold string_slice.
  replace (String.length a + String.length b - String.length a)
    with (String.length b) by lia.
  rewrite substring_skip. by apply substring_here.
Qed.

Lemma contains_cons c x s : contains c (String x s) <-> x = c \/ contains c s.
Proof. unfold contains; simpl; tauto. Qed.

Lemma contains_nil c : ~ contains c "".
Proof. unfold contains; simpl; tauto. Qed.

Lemma contains_append c a b : contains c (a +:+ b) <-> contains c a \/ contains c b.
Proof.
  induction a as [|x a IH]; sapp.
  - pose proof (contains_nil c). tauto.
  - rewrite !contains_cons, IH; tauto.
Qed.

Lemma forallb_not_slash s : string_forallb not_slash s = true <-> ~ contains slash s.
Proof.
  induction s as [|x s IH]; simpl.
  - pose proof (contains_nil slash). tauto.
  - rewrite contains_cons, andb_true_iff, IH. unfold not_slash.
    rewrite negb_true_iff. destruct (Ascii.eqb_spec x slash); intuition congruence.
Qed.

Lemma forallb_any_not_nl s :
  string_forallb any_not_nl s = true <-> ~ contains newline s.
Proof.
  induction s as [|x s IH]; simpl.
  - pose proof (contains_nil newline). tauto.
  - rewrite contains_cons, andb_true_iff, IH. unfold any_not_nl.
    rewrite negb_true_iff. destruct (Ascii.eqb_spec x newline); intuition congruence.
Qed.

(** * The matcher *)

Lemma span_append cls s : (span cls s).1 +:+ (span cls s).2 = s.
Proof.
  induction s as [|c s IH]; simpl; [done|].
  destruct (cls c); simpl; sapp; [by rewrite IH | done].
Qed.

Lemma span_forallb cls s : string_forallb cls (span cls s).1 = true.
Proof.
  induction s as [|c s IH]; simpl; [done|].
  destruct (cls c) eqn:E; simpl; [by rewrite E | done].
Qed.

Lemma span_stops cls s c t : (span cls s).2 = String c t -> cls c = false.
Proof.
  induction s as [|x s IH]; simpl; [done|].
  destruct (cls x) eqn:E; simpl; [done | congruence].
Qed.

Lemma span_exact cls a t :
  string_forallb cls a = true ->
  match t with String c _ => cls c = false | EmptyString => True end ->
  span cls (a +:+ t) = (a, t).
Proof.
  intros Ha Ht. induction a as [|x a IH]; sapp; simpl in *.
  - destruct t as [|c t]; simpl; [done | by rewrite Ht].
  - apply andb_true_iff in Ha as [-> Ha]. by rewrite (IH Ha).
Qed.

(** A greedy star whose continuation fails inside the run stops at its end. *)
Lemma star_match_run cls (k : cont) s pos cs :
  (forall n c t, cls c = true ->
     k n (String c t) cs = None) ->
  star_match cls k pos s cs
  = k (pos + String.length (span cls s).1) (span cls s).2 cs.
Proof.
  intros Hk. revert pos. induction s as [|c s IH]; intros pos; simpl.
  - by rewrite Nat.add_0_r.
  - destruct (cls c) eqn:Ec; simpl.
    + rewrite IH.
      replace (S pos + String.length (span cls s).1)
          with (pos + S (String.length (span cls s).1)) by lia.
      destruct (k _ (span cls s).2 cs) eqn:Ek; [done|].
      by rewrite Hk.
    + by rewrite Nat.add_0_r.
Qed.


Lemma strip_literal_Some lit s rest :
  strip_literal lit s = Some rest <-> s = lit +:+ rest.
Proof.
  revert s; induction lit as [|c lit IH]; intros s; sapp; simpl.
  - split; congruence.
  - destruct s as [|c' s]; [split; discriminate|].
    destruct (Ascii.eqb_spec c c') as [->|Hne].
    + rewrite IH. split; congruence.
    + split; [discriminate | congruence].
Qed.

Lemma literal_match lit (k : cont) pos s cs :
  regex_match (literal lit) k pos s cs
  = match strip_literal lit s with
    | Some rest => k (pos + String.length lit) rest cs
    | None => None
    end.
Proof.
  revert pos s; induction lit as [|c lit IH]; intros pos s; simpl.
  - by rewrite Nat.add_0_r.
  - destruct s as [|c' s]; [done|].
    destruct (Ascii.eqb c c'); [|done].
    rewrite IH. by replace (S pos + String.length lit)
      with (pos + S (String.length lit)) by lia.
Qed.

Lemma gcsRegexp_match (k : cont) s :
  regex_match gcsRegexp k 0 s []
  = match strip_literal "gs://" s with
    | None => None
    | Some s1 =>
        let b := (span not_slash s1).1 in
        match (span not_slash s1).2 with
        | EmptyString => None
        | String _ s2 =>
            let key := (span any_not_nl s2).1 in
            match (span any_not_nl s2).2 with
            | EmptyString =>
                k (6 + String.length b + String.length key) EmptyString
                  [(2, (6 + String.length b, 6 + String.length b + String.length key));
                   (1, (5, 5 + String.length b))]
            | String _ _ => None
            end
        end
    end.
Proof.
  unfold gcsRegexp. cbn [regex_match Nat.eqb]. rewrite literal_match.
  destruct (strip_literal "gs://" s) as [s1|]; [|done].
  cbn [regex_match String.length Nat.add].
  rewrite star_match_run.
  2:{ intros n c t Hc. cbn [regex_match]. unfold not_slash in Hc.
      apply negb_true_iff in Hc. rewrite Ascii.eqb_sym in Hc. by rewrite Hc. }
  cbn [regex_match].
  destruct (span not_slash s1).2 as [|c s2] eqn:E2; [done|].
  pose proof (span_stops _ _ _ _ E2) as Hc. unfold not_slash in Hc.
  apply negb_false_iff in Hc. rewrite Ascii.eqb_sym in Hc. rewrite Hc.
  rewrite star_match_run by done.
  destruct (span any_not_nl s2).2; [|done].
  f_equal; try lia; repeat (f_equal; try lia).
Qed.

Lemma gcsRegexp_search_later s pos : pos <> 0 -> regex_search gcsRegexp pos s = None.
Proof.
  revert pos; induction s as [|c s IH]; intros pos Hpos; simpl;
    destruct pos; try done.
  by apply IH.
Qed.

Lemma gs_url_split b k :
  gs_url b k = "gs://" +:+ (b +:+ String slash k).
Proof. reflexivity. Qed.

Lemma splitGcsPath_shape s :
  splitGcsPath s
  = match gcs_shape s with
    | Some (b, k) => (b, k, None)
    | None => (EmptyString, EmptyString, Some (not_a_gcs_path s))
    end.
Proof.
  unfold splitGcsPath, regexp_FindStringSubmatch, gcs_shape.
  assert (Hs : regex_search gcsRegexp 0 s
               = regex_match gcsRegexp (fun p _ cs => Some (p, cs)) 0 s [] ≫= λ m, Some (0, m)).
  { destruct s as [|c s]; cbn [regex_search];
      destruct (regex_match gcsRegexp _ 0 _ []); try done.
    cbn [mbind option_bind]. by apply gcsRegexp_search_later. }
  rewrite Hs, gcsRegexp_match. clear Hs.
  destruct (strip_literal "gs://" s) as [s1|] eqn:E1; [|done].
  apply strip_literal_Some in E1.
  pose proof (span_append not_slash s1) as A1.
  destruct (span not_slash s1) as [b t] eqn:Eb; simpl in *.
  destruct t as [|c s2]; [done|].
  pose proof (span_append any_not_nl s2) as A2.
  destruct (span any_not_nl s2) as [key u] eqn:Ek; simpl in *.
  destruct u as [|]; [|done]. simpl.
  rewrite append_nil_r in A2. subst key.
  assert (Hc : c = slash).
  { pose proof (span_stops not_slash s1 c s2) as H. rewrite Eb in H.
    specialize (H eq_refl). unfold not_slash in H. apply negb_false_iff in H.
    by apply Ascii.eqb_eq in H. }
  subst c s1 s.
  unfold capture_bounds; simpl. f_equal. f_equal.
  - change ("gs://" +:+ b +:+ String slash s2)
      with ("gs://" +:+ b +:+ (String slash s2)).
    apply string_slice_middle; simpl; lia.
  - replace ("gs://" +:+ b +:+ String slash s2)
      with (("gs://" +:+ b +:+ "/") +:+ s2 +:+ "").
    + apply string_slice_middle; [|lia].
      rewrite !length_append. simpl. lia.
    + rewrite append_nil_r, !append_assoc. reflexivity.
Qed.

Lemma gcs_shape_Some s b k :
  gcs_shape s = Some (b, k)
  <-> s = gs_url b k /\ ~ contains slash b /\ ~ contains newline k.
Proof.
  unfold gcs_shape. split.
  - destruct (strip_literal "gs://" s) as [s1|] eqn:E1; [|done].
    apply strip_literal_Some in E1.
    pose proof (span_append not_slash s1) as A1.
    pose proof (span_forallb not_slash s1) as F1.
    destruct (span not_slash s1) as [b' t] eqn:Eb; simpl in *.
    destruct t as [|c s2]; [done|].
    pose proof (span_append any_not_nl s2) as A2.
    pose proof (span_forallb any_not_nl s2) as F2.
    assert (Hc : c = slash).
    { pose proof (span_stops not_slash s1 c s2) as H. rewrite Eb in H.
      specialize (H eq_refl). unfold not_slash in H. apply negb_false_iff in H.
      by apply Ascii.eqb_eq in H. }
    destruct (span any_not_nl s2) as [key u] eqn:Ek; simpl in *.
    destruct u; [|done]. intros [= <- <-].
    rewrite append_nil_r in A2. subst.
    split; [done|]. split; [by apply forallb_not_slash | by apply forallb_any_not_nl].
  - intros (-> & Hb & Hk). rewrite gs_url_split.
    assert (E1 : strip_literal "gs://" ("gs://" +:+ (b +:+ String slash k))
                 = Some (b +:+ String slash k)) by by apply strip_literal_Some.
    rewrite E1.
    rewrite (span_exact not_slash b (String slash k)); simpl;
      [|by apply forallb_not_slash|done].
    pose proof (span_exact any_not_nl k "") as E2. rewrite append_nil_r in E2.
    rewrite E2; [done| by apply forallb_any_not_nl | done].
Qed.


Lemma splitGcsPath_remote s b k :
  splitGcsPath s = (b, k, None)
  <-> s = gs_url b k /\ ~ contains slash b /\ ~ contains newline k.
Proof.
  rewrite splitGcsPath_shape, <- gcs_shape_Some.
  destruct (gcs_shape s) as [[b' k']|]; split; congruence.
Qed.

Lemma splitGcsPath_local s :
  splitGcsPath s = local_path_result s
  <-> ~ exists b k, s = gs_url b k /\ ~ contains slash b /\ ~ contains newline k.
Proof.
  rewrite splitGcsPath_shape. unfold local_path_result.
  destruct (gcs_shape s) as [[b k]|] eqn:E.
  - apply gcs_shape_Some in E. split; [done|]. intros H; destruct H; eauto.
  - split; [|done]. intros _ (b & k & H). apply gcs_shape_Some in H. congruence.
Qed.

Lemma splitGcsPath_no_slash_after_bucket b :
  ~ contains slash b -> splitGcsPath ("gs://" +:+ b) = local_path_result ("gs://" +:+ b).
Proof.
  intros Hb. rewrite splitGcsPath_shape. unfold gcs_shape.
  assert (E1 : strip_literal "gs://" ("gs://" +:+ b) = Some b)
    by by apply strip_literal_Some.
  rewrite E1. pose proof (span_exact not_slash b "") as E2.
  rewrite append_nil_r in E2. rewrite E2; [done | by apply forallb_not_slash | done].
Qed.

(** C1, amended: a string [gs://b/k] whose bucket [b] holds no slash and whose
    key [k] holds no line feed is split into [b] and [k] with no error; every
    string that is not of that shape gets the error result; and [main] takes
    the error result of both arguments as the sign of two local paths and runs
    the local copy, without reporting it. *)
Theorem splitGcsPath_classifies :
  (forall b k, ~ contains slash b -> ~ contains newline k ->
     splitGcsPath (gs_url b k) = (b, k, None)) /\
  (forall s,
     (~ exists b k, s = gs_url b k /\ ~ contains slash b /\ ~ contains newline k) ->
     splitGcsPath s = local_path_result s) /\
  (forall fuel program from to,
     splitGcsPath from = local_path_result from ->
     splitGcsPath to = local_path_result to ->
     main fuel program [from; to]
     = (log_Print ("From: " +:+ from);; log_Print ("To: " +:+ to);;
        copyFromLocalToLocal fuel from to;; log_Print "Finished copying")).
Proof.
  split; [|split].
  - intros b k Hb Hk. by apply splitGcsPath_remote.
  - intros s Hs. by apply splitGcsPath_local.
  - intros fuel program from to Hf Ht. unfold main. cbn [length Nat.ltb Nat.leb nth].
    rewrite Hf, Ht. reflexivity.
Qed.

Lemma splitGcsPath_classifies_witness :
  splitGcsPath (gs_url "bkt" "dir/obj.txt") = ("bkt", "dir/obj.txt", None)
  /\ splitGcsPath "dir/obj.txt" = local_path_result "dir/obj.txt"
  /\ main 1 "gcs_copy" ["a.txt"; "b.txt"]
     = (log_Print "From: a.txt";; log_Print "To: b.txt";;
        copyFromLocalToLocal 1 "a.txt" "b.txt";; log_Print "Finished copying").
Proof.
  destruct splitGcsPath_classifies as (H1 & H2 & H3). split; [|split].
  - apply H1; unfold contains; simpl; intuition discriminate.
  - apply H2. intros (b & k & E & _). discriminate E.
  - apply H3; reflexivity.
Defined.

(** C1 as first stated fails on a key that holds a line feed: the bucket is
    free of slashes, the string has the remote shape, and the result is the
    error result of a local path. *)
Lemma splitGcsPath_newline_key_counterexample :
  ~ contains slash "b"
  /\ splitGcsPath (gs_url "b" ("k" +:+ String newline "x"))
     = local_path_result (gs_url "b" ("k" +:+ String newline "x")).
Proof.
  split; [unfold contains; simpl; intuition discriminate | reflexivity].
Qed.

(** C5, amended: every string accepted as remote is [gs://b/k] for the
    returned bucket [b] and key [k], and the bucket holds no slash (it may be
    empty). *)
Theorem splitGcsPath_bucket_slash_free s b k :
  splitGcsPath s = (b, k, None) ->
  ~ contains slash b /\ s = gs_url b k.
Proof. intros H. apply splitGcsPath_remote in H. tauto. Qed.

Lemma splitGcsPath_bucket_slash_free_witness :
  ~ contains slash "bkt" /\ "gs://bkt/dir/obj.txt" = gs_url "bkt" "dir/obj.txt".
Proof.
  apply (splitGcsPath_bucket_slash_free "gs://bkt/dir/obj.txt" "bkt" "dir/obj.txt").
  reflexivity.
Defined.

(** C5 as first stated fails: [gs:///k] is accepted as remote, with the empty
    bucket. *)
Lemma splitGcsPath_empty_bucket_counterexample :
  splitGcsPath "gs:///k" = (EmptyString, "k", None).
Proof. reflexivity. Qed.

(** C9: [gs://b] with no slash after a slash-free bucket [b] gets the error
    result of a local path, and [main] hands it, as source or as destination,
    to the routines that copy from or to the local file system. *)
Theorem bucket_without_slash_is_local b :
  ~ contains slash b ->
  let path := "gs://" +:+ b in
  splitGcsPath path = local_path_result path
  /\ (forall fuel program to,
        main fuel program [path; to]
        = (log_Print ("From: " +:+ path);; log_Print ("To: " +:+ to);;
           (let '(toBkt, toObj, err) := splitGcsPath to in
            if is_nil err then copyFromLocalToGcs fuel path toBkt toObj
            else copyFromLocalToLocal fuel path to);;
           log_Print "Finished copying"))
  /\ (forall fuel program from,
        main fuel program [from; path]
        = (log_Print ("From: " +:+ from);; log_Print ("To: " +:+ path);;
           (let '(fromBkt, fromObj, err) := splitGcsPath from in
            if is_nil err then _ ← copyFromGcsToLocal fromBkt fromObj path; mret tt
            else copyFromLocalToLocal fuel from path);;
           log_Print "Finished copying")).
Proof.
  intros Hb path. pose proof (splitGcsPath_no_slash_after_bucket b Hb) as Hp.
  fold path in Hp. split; [done|]. split.
  - intros fuel program to. unfold main. cbn [length Nat.ltb Nat.leb nth].
    rewrite Hp. unfold local_path_result.
    destruct (splitGcsPath to) as [[toBkt toObj] err]. reflexivity.
  - intros fuel program from. unfold main. cbn [length Nat.ltb Nat.leb nth].
    rewrite Hp. unfold local_path_result.
    destruct (splitGcsPath from) as [[fromBkt fromObj] err]. reflexivity.
Qed.

Lemma bucket_without_slash_is_local_witness :
  splitGcsPath "gs://mybucket" = local_path_result "gs://mybucket".
Proof.
  apply (bucket_without_slash_is_local "mybucket").
  unfold contains; simpl; intuition discriminate.
Defined.




(** * Splitting and joining *)

Lemma split_slash_nonempty s : split_slash s <> [].
Proof.
  destruct s as [|c s]; simpl; [done|].
  destruct (Ascii.eqb c slash); [done|]. by destruct (split_slash s).
Qed.

Lemma split_slash_free s :
  string_forallb not_slash s = true -> split_slash s = [s].
Proof.
  induction s as [|c s IH]; simpl; [done|].
  intros [Hc Hs]%andb_true_iff. unfold not_slash in Hc.
  apply negb_true_iff in Hc. rewrite Hc, (IH Hs). done.
Qed.

Lemma split_slash_app a b :
  split_slash (a +:+ String slash b) = (split_slash a ++ split_slash b)%list.
Proof.
  induction a as [|c a IH]; sapp; simpl.
  - done.
  - destruct (Ascii.eqb c slash); [by rewrite IH|].
    rewrite IH. pose proof (split_slash_nonempty a).
    by destruct (split_slash a).
Qed.

Lemma split_slash_elems s :
  Forall (fun e => string_forallb not_slash e = true) (split_slash s).
Proof.
  induction s as [|c s IH]; simpl; [by repeat constructor|].
  destruct (Ascii.eqb c slash) eqn:Ec; [by constructor|].
  destruct (split_slash s) as [|seg segs].
  - constructor; [|done]. simpl. unfold not_slash. by rewrite Ec.
  - inversion IH; subst. constructor; [|done]. simpl. unfold not_slash at 1.
    by rewrite Ec.
Qed.

Lemma join_slash_cons x y l :
  join_slash (x :: y :: l) = x +:+ String slash (join_slash (y :: l)).
Proof. reflexivity. Qed.

Lemma split_join l :
  l <> [] -> Forall (fun e => string_forallb not_slash e = true) l ->
  split_slash (join_slash l) = l.
Proof.
  induction l as [|x l IH]; [done|]. intros _ Hl. inversion Hl; subst.
  destruct l as [|y l].
  - by apply split_slash_free.
  - rewrite join_slash_cons, split_slash_app, IH, split_slash_free; done.
Qed.

Lemma is_name_not_slash n : is_name n = true -> string_forallb not_slash n = true.
Proof. unfold is_name. rewrite !andb_true_iff. tauto. Qed.

Lemma is_name_step rooted out n :
  is_name n = true -> clean_step rooted out n = n :: out.
Proof.
  unfold is_name, clean_step. rewrite !andb_true_iff, !negb_true_iff.
  intros [[[-> ->] ->] _]. done.
Qed.

Lemma fold_names rooted names out :
  Forall (fun n => is_name n = true) names ->
  fold_left (clean_step rooted) names out = (rev names ++ out)%list.
Proof.
  revert out; induction names as [|n names IH]; intros out Hn; simpl; [done|].
  inversion Hn; subst. rewrite is_name_step, IH by done.
  by rewrite <- app_assoc.
Qed.

Lemma is_rooted_join es :
  Forall (fun e => string_forallb not_slash e = true) es ->
  (forall e, head es = Some e -> e <> "") ->
  is_rooted (join_slash es) = false.
Proof.
  destruct es as [|e es]; [done|]. intros He Hh. inversion He; subst.
  specialize (Hh e eq_refl).
  destruct e as [|c e]; [done|]. simpl in H1. apply andb_true_iff in H1 as [Hc _].
  unfold not_slash in Hc. apply negb_true_iff in Hc.
  destruct es; simpl; sapp; simpl; done.
Qed.


Lemma forallb_Forall_true {A} (p : A -> bool) (l : list A) :
  forallb p l = true <-> Forall (fun x => p x = true) l.
Proof. rewrite forallb_forall, Forall_forall. by setoid_rewrite list_elem_of_In. Qed.

Lemma skip_dotdots_form k names :
  names_ok names -> skip_dotdots (dotdots k ++ names) = names.
Proof.
  unfold dotdots, names_ok. intros Hn. induction k as [|k IH]; simpl; [|done].
  destruct names as [|n names]; [done|]. simpl.
  inversion Hn; subst. unfold is_name in H1.
  rewrite !andb_true_iff, !negb_true_iff in H1. by destruct H1 as [[[_ _] ->] _].
Qed.

Lemma skip_dotdots_split es :
  exists k, es = (dotdots k ++ skip_dotdots es)%list.
Proof.
  unfold dotdots. induction es as [|e es [k IH]]; [by exists 0|]. simpl.
  destruct (String.eqb_spec e "..") as [->|Hne].
  - exists (S k). simpl. by f_equal.
  - by exists 0.
Qed.

Lemma is_clean_form rooted es :
  is_clean (rooted, es) = true <-> clean_form rooted es.
Proof.
  unfold is_clean, clean_form; simpl. split.
  - intros H. destruct rooted.
    + exists 0, es. split; [done|]. split; [|done]. by apply forallb_Forall_true in H.
    + destruct (skip_dotdots_split es) as [k Hk]. exists k, (skip_dotdots es).
      split; [done|]. split; [|done]. by apply forallb_Forall_true in H.
  - intros (k & names & -> & Hn & Hk). destruct rooted.
    + rewrite (Hk eq_refl). simpl. by apply forallb_Forall_true.
    + rewrite skip_dotdots_form by done. by apply forallb_Forall_true.
Qed.

Lemma rev_dotdots k : rev (dotdots k) = dotdots k.
Proof.
  unfold dotdots. induction k as [|k IH]; [done|]. simpl. rewrite IH.
  clear IH. induction k as [|k IH]; [done|]. simpl. by rewrite IH.
Qed.

Lemma clean_step_form rooted out e :
  string_forallb not_slash e = true ->
  buffer_form rooted out -> buffer_form rooted (clean_step rooted out e).
Proof.
  intros He (k & names & Hout & Hn & Hk). unfold clean_step.
  unfold buffer_form, clean_form, dotdots, names_ok in *.
  destruct (String.eqb_spec e "") as [->|H1]; simpl; [by exists k, names|].
  destruct (String.eqb_spec e ".") as [->|H2]; simpl; [by exists k, names|].
  destruct (String.eqb_spec e "..") as [->|H3].
  - destruct out as [|top out'].
    + destruct rooted; [by exists k, names|]. exists 1, []. by repeat split.
    + simpl in Hout.
      destruct names as [|n names _] using rev_ind.
      * rewrite app_nil_r in Hout.
        assert (Htop : top = "..").
        { assert (In top (repeat ".." k)) as Hin.
          { rewrite <- Hout. apply in_or_app. right. by left. }
          by apply repeat_spec in Hin. }
        subst top. rewrite String.eqb_refl.
        destruct rooted.
        { rewrite (Hk eq_refl) in Hout. simpl in Hout.
          by destruct (rev out'). }
        exists (S k), []. split; [|by split].
        unfold dotdots. simpl. rewrite Hout, app_nil_r.
        clear. induction k as [|k IH]; [done|]. simpl. by rewrite <- IH.
      * rewrite app_assoc in Hout. apply app_inj_tail in Hout as [Hout ->].
        apply Forall_app in Hn as [Hn Hlast]. inversion Hlast; subst.
        assert (n <> "..") as Hne.
        { intros ->. done. }
        apply String.eqb_neq in Hne. rewrite Hne.
        exists k, names. by repeat split.
  - exists k, (names ++ [e])%list. split; [|split; [|done]].
    + simpl. rewrite Hout. by rewrite app_assoc.
    + apply Forall_app. split; [done|]. constructor; [|done].
      unfold is_name. apply String.eqb_neq in H1, H2, H3.
      by rewrite H1, H2, H3, He.
Qed.

Lemma fold_clean_form rooted elems out :
  Forall (fun e => string_forallb not_slash e = true) elems ->
  buffer_form rooted out ->
  buffer_form rooted (fold_left (clean_step rooted) elems out).
Proof.
  revert out; induction elems as [|e elems IH]; intros out He Hout; simpl; [done|].
  inversion He; subst. apply IH; [done|]. by apply clean_step_form.
Qed.

Lemma resolve_clean p : clean_form (resolve p).1 (resolve p).2.
Proof.
  unfold resolve; simpl.
  apply (fold_clean_form (is_rooted p) (split_slash p) []).
  - apply split_slash_elems.
  - exists 0, []. repeat split. constructor.
Qed.

Lemma clean_step_dotdots j :
  clean_step false (repeat ".." j) ".." = repeat ".." (S j).
Proof. by destruct j. Qed.

Lemma fold_dotdots k :
  fold_left (clean_step false) (dotdots k) [] = dotdots k.
Proof.
  unfold dotdots.
  assert (H : forall j, fold_left (clean_step false) (repeat ".." k) (repeat ".." j)
                        = repeat ".." (j + k)).
  { induction k as [|k IH]; intros j.
    - by rewrite Nat.add_0_r.
    - cbn [repeat fold_left]. rewrite clean_step_dotdots, IH. f_equal. lia. }
  exact (H 0).
Qed.

Lemma dotdots_not_slash k :
  Forall (fun e => string_forallb not_slash e = true) (dotdots k).
Proof. unfold dotdots. induction k; simpl; by constructor. Qed.

Lemma names_not_slash names :
  names_ok names -> Forall (fun e => string_forallb not_slash e = true) names.
Proof. intros H. eapply Forall_impl; [exact H|]. intros n. apply is_name_not_slash. Qed.

Lemma name_nonempty n : is_name n = true -> n <> "".
Proof. intros H ->. done. Qed.

Lemma resolve_rooted x :
  resolve (String slash x)
  = (true, rev (fold_left (clean_step true) (split_slash x) [])).
Proof. reflexivity. Qed.

(** [resolve] reads a rendered clean location back. *)
Lemma resolve_render rooted es :
  clean_form rooted es -> resolve (render (rooted, es)) = (rooted, es).
Proof.
  intros (k & names & -> & Hn & Hk). unfold render; cbn [fst snd].
  destruct rooted.
  - rewrite (Hk eq_refl). cbn [dotdots repeat app]. rewrite resolve_rooted. f_equal.
    destruct names as [|n names]; [done|].
    rewrite split_join; [|done|by apply names_not_slash].
    rewrite fold_names, app_nil_r, rev_involutive; done.
  - destruct (dotdots k ++ names)%list as [|e es] eqn:E; [done|]. rewrite <- E.
    assert (Hns : Forall (fun e => string_forallb not_slash e = true)
                    (dotdots k ++ names)).
    { apply Forall_app. split; [apply dotdots_not_slash | by apply names_not_slash]. }
    unfold resolve. rewrite is_rooted_join; [|done|].
    + f_equal. rewrite split_join; [|by rewrite E|done].
      rewrite fold_left_app, fold_dotdots, fold_names by done.
      by rewrite rev_app_distr, rev_involutive, rev_dotdots.
    + rewrite E. intros e' [= <-]. destruct k; simpl in E.
      * subst names. inversion Hn; subst. by apply name_nonempty.
      * by inversion E.
Qed.

Lemma Clean_resolve p : resolve (filepath_Clean p) = resolve p.
Proof.
  unfold filepath_Clean. destruct (resolve p) as [r es] eqn:E.
  apply resolve_render. pose proof (resolve_clean p) as H. by rewrite E in H.
Qed.

Lemma is_rooted_app a b : a <> "" -> is_rooted (a +:+ b) = is_rooted a.
Proof. by destruct a. Qed.

(** Names appended after a separator are appended to the location. *)
Lemma resolve_app_names a names :
  a <> "" -> names_ok names -> names <> [] ->
  resolve (a +:+ String slash (join_slash names))
  = ((resolve a).1, ((resolve a).2 ++ names)%list).
Proof.
  intros Ha Hn Hne. unfold resolve. rewrite is_rooted_app by done. simpl. f_equal.
  rewrite split_slash_app, fold_left_app.
  rewrite split_join by (done || by apply names_not_slash).
  by rewrite fold_names, rev_app_distr, rev_involutive.
Qed.

Lemma resolve_names names :
  names_ok names -> names <> [] -> resolve (join_slash names) = (false, names).
Proof.
  intros Hn Hne.
  rewrite <- (resolve_render false names); [|by exists 0, names].
  unfold render; simpl. by destruct names.
Qed.

Lemma resolve_empty : resolve "" = (false, []).
Proof. reflexivity. Qed.

Lemma Join_names d names :
  names_ok names -> names <> [] ->
  resolve (filepath_Join [d; join_slash names])
  = ((resolve d).1, ((resolve d).2 ++ names)%list).
Proof.
  intros Hn Hne. simpl.
  assert (Hj : join_slash names <> "").
  { destruct names as [|n names]; [done|]. inversion Hn; subst.
    pose proof (name_nonempty _ H1). destruct n; [done|].
    destruct names; simpl; sapp; done. }
  destruct (String.eqb_spec d "") as [->|Hd].
  - apply String.eqb_neq in Hj. rewrite Hj. rewrite Clean_resolve.
    change (join_slash [join_slash names]) with (join_slash names).
    by rewrite resolve_names.
  - rewrite Clean_resolve.
    change (join_slash [d; join_slash names])
      with (d +:+ String slash (join_slash names)).
    by apply resolve_app_names.
Qed.

Lemma Join_name d n :
  is_name n = true ->
  resolve (filepath_Join [d; n]) = ((resolve d).1, ((resolve d).2 ++ [n])%list).
Proof.
  intros Hn. change n with (join_slash [n]) at 1.
  apply Join_names; [by constructor | done].
Qed.

Lemma strip_common_app es names :
  strip_common es (es ++ names) = ([], names).
Proof.
  induction es as [|e es IH]; simpl; [by destruct names|].
  by rewrite String.eqb_refl.
Qed.

Lemma Rel_below base targ names :
  resolve targ = ((resolve base).1, ((resolve base).2 ++ names)%list) ->
  filepath_Rel base targ
  = inl (match names with [] => "." | _ => join_slash names end).
Proof.
  intros Ht. unfold filepath_Rel. rewrite Ht.
  destruct (resolve base) as [r es]. cbn [fst snd].
  destruct names as [|n names].
  - rewrite app_nil_r. by rewrite bool_decide_eq_true_2.
  - rewrite bool_decide_eq_false_2.
    + rewrite Bool.eqb_reflx. cbn [negb]. by rewrite strip_common_app.
    + intros [= H].
      apply (f_equal length) in H. rewrite length_app in H. simpl in H. lia.
Qed.


Lemma fold_clean rooted es :
  clean_form rooted es -> rev (fold_left (clean_step rooted) es []) = es.
Proof.
  intros (k & names & -> & Hn & Hk). destruct rooted.
  - rewrite (Hk eq_refl). cbn [dotdots repeat app].
    by rewrite fold_names, app_nil_r, rev_involutive.
  - rewrite fold_left_app, fold_dotdots, fold_names by done.
    by rewrite rev_app_distr, rev_involutive, rev_dotdots.
Qed.

Lemma clean_form_not_slash rooted es :
  clean_form rooted es -> Forall (fun e => string_forallb not_slash e = true) es.
Proof.
  intros (k & names & -> & Hn & Hk).
  apply Forall_app. split; [apply dotdots_not_slash | by apply names_not_slash].
Qed.

Lemma clean_form_head rooted es e :
  clean_form rooted es -> head es = Some e -> e <> "".
Proof.
  intros (k & names & -> & Hn & Hk) He. destruct k; simpl in He.
  - destruct names; [done|]. injection He as <-. inversion Hn; subst.
    by apply name_nonempty.
  - by injection He as <-.
Qed.

Lemma clean_form_app_names rooted es names :
  clean_form rooted es -> names_ok names -> clean_form rooted (es ++ names).
Proof.
  intros (k & ns & -> & Hn & Hk) Hnames. exists k, (ns ++ names)%list.
  split; [by rewrite app_assoc|]. split; [by apply Forall_app|done].
Qed.

Lemma fold_skip_last rooted es :
  fold_left (clean_step rooted) (es ++ [""]) [] = fold_left (clean_step rooted) es [].
Proof. by rewrite fold_left_app. Qed.

Lemma join_slash_cons_ne x l :
  l <> [] -> join_slash (x :: l) = x +:+ String slash (join_slash l).
Proof. by destruct l. Qed.

(** The directory of a clean path that ends with a name. *)
Lemma Dir_render rooted es n :
  clean_form rooted es -> is_name n = true ->
  resolve (filepath_Dir (render (rooted, (es ++ [n])%list))) = (rooted, es).
Proof.
  intros Hes Hn. unfold filepath_Dir. rewrite Clean_resolve.
  assert (Hns : Forall (fun e => string_forallb not_slash e = true) (es ++ [n])).
  { apply Forall_app. split; [by eapply clean_form_not_slash|].
    constructor; [by apply is_name_not_slash|done]. }
  assert (Hns' : Forall (fun e => string_forallb not_slash e = true) (es ++ [""])).
  { apply Forall_app. split; [by eapply clean_form_not_slash|]. by constructor. }
  assert (Hne : (es ++ [n])%list <> []) by by destruct es.
  assert (Hne' : (es ++ [""])%list <> []) by by destruct es.
  unfold render; cbn [fst snd]. destruct rooted.
  - change (String slash (join_slash (es ++ [n])))
      with ("" +:+ String slash (join_slash (es ++ [n]))).
    rewrite split_slash_app, split_join by done.
    change (split_slash "" ++ (es ++ [n]))%list with (("" :: es) ++ [n])%list.
    rewrite removelast_last.
    change (("" :: es) ++ [""])%list with ("" :: (es ++ [""]))%list.
    rewrite join_slash_cons_ne by done. sapp.
    rewrite resolve_rooted, split_join, fold_skip_last by done.
    f_equal. by apply fold_clean.
  - assert (Hr : match (es ++ [n])%list with
                  | [] => "."
                  | _ :: _ => join_slash (es ++ [n])
                  end = join_slash (es ++ [n])) by by destruct es.
    rewrite Hr, split_join, removelast_last by done.
    destruct es as [|e1 es']; [done|].
    unfold resolve. rewrite is_rooted_join; [|done|].
    + rewrite split_join, fold_skip_last by done. f_equal. by apply fold_clean.
    + intros e He. eapply clean_form_head; [exact Hes|]. exact He.
Qed.

Lemma Join_is_render d names :
  names_ok names -> names <> [] ->
  filepath_Join [d; join_slash names]
  = render ((resolve d).1, ((resolve d).2 ++ names)%list).
Proof.
  intros Hn Hne. rewrite <- (Join_names d names Hn Hne).
  assert (Hj : join_slash names <> "").
  { destruct names as [|n names]; [done|]. inversion Hn; subst.
    pose proof (name_nonempty _ H1). destruct n; [done|].
    destruct names; simpl; sapp; done. }
  cbn [filepath_Join]. apply String.eqb_neq in Hj. rewrite Hj.
  destruct (String.eqb d ""); by rewrite Clean_resolve.
Qed.

(** The directory of a file placed under [d] at the relative path [names]. *)
Lemma Dir_Join d names n :
  names_ok names -> is_name n = true ->
  resolve (filepath_Dir (filepath_Join [d; join_slash (names ++ [n])]))
  = ((resolve d).1, ((resolve d).2 ++ names)%list).
Proof.
  intros Hn Hlast. rewrite Join_is_render.
  - rewrite app_assoc. apply Dir_render; [|done].
    apply clean_form_app_names; [apply resolve_clean | done].
  - apply Forall_app. split; [done|]. by constructor.
  - by destruct names.
Qed.

(** [filepath.Join] names the file that the two paths joined by a separator
    name. *)
Lemma Join_same_file d rel :
  d <> "" -> resolve (filepath_Join [d; rel]) = resolve (d +:+ String slash rel).
Proof.
  intros Hd. cbn [filepath_Join]. apply String.eqb_neq in Hd. rewrite Hd.
  by rewrite Clean_resolve.
Qed.


Lemma prefix_cons c pre c' n :
  String.prefix (String c pre) (String c' n)
  = if ascii_dec c c' then String.prefix pre n else false.
Proof. reflexivity. Qed.

Lemma prefix_slice pre n :
  String.prefix pre n = true ->
  exists rel, n = pre +:+ rel /\ slice_from (String.length pre) n = Some rel.
Proof.
  revert n; induction pre as [|c pre IH]; intros n H.
  - exists n. split; [done|]. by destruct n.
  - destruct n as [|c' n]; [done|]. rewrite prefix_cons in H.
    destruct (ascii_dec c c') as [->|]; [|done].
    destruct (IH n H) as (rel & -> & Hs). exists rel. split; [by sapp | done].
Qed.

Lemma list_objects_names bucket pre w names w' :
  list_objects bucket pre w = Returned (inl names) w' ->
  forall name, name ∈ names ->
    String.prefix pre name = true /\ is_Some (objects w !! (bucket, name)).
Proof.
  unfold list_objects, perform, mbind, M_bind, get_world, mret, M_ret.
  destruct (faults w (ListObjects bucket pre)); [done|].
  intros [= <- <-] name Hin.
  rewrite merge_sort_Permutation in Hin.
  apply list_elem_of_omap in Hin as ([b n] & Hk & Hl).
  unfold listed in Hl. simpl in Hl.
  destruct (String.eqb_spec b bucket) as [->|]; [|done].
  unfold strings_HasPrefix in Hl.
  destruct (String.prefix pre n) eqn:Hp; [|done]. simpl in Hl.
  injection Hl as <-. split; [done|].
  apply list_elem_of_fmap in Hk as ([k v] & Hkv & Hin). simpl in Hkv. subst k.
  apply elem_of_map_to_list in Hin. simpl. by exists v.
Qed.

(** C2: for every name that the listing of the source prefix yields, the
    relative path is the name without its first [len srcPath] characters; an
    empty relative path sends the entry to the destination path as given; any
    other is joined beneath the destination: by [filepath.Join] for a local
    destination, by a slash (unless the destination ends in one) for a remote
    one; and the joined local path names the file [dstPath/relPath]. *)
Theorem remote_tree_copy_destination w srcBucket srcPath names w' name :
  list_objects srcBucket srcPath w = Returned (inl names) w' ->
  name ∈ names ->
  exists relPath,
    name = srcPath +:+ relPath
    /\ slice_from (String.length srcPath) name = Some relPath
    /\ (forall dstPath,
          copyFromGcsToLocal_entry srcBucket srcPath dstPath name
          = copyFileFromGcsToLocal srcBucket name
              (if String.eqb relPath "" then dstPath
               else filepath_Join [dstPath; relPath]))
    /\ (forall dstBucket dstPath,
          copyFromGcsToGcs_entry srcBucket srcPath dstBucket dstPath name
          = copyFileFromGcsToGcs srcBucket name dstBucket
              (if String.eqb relPath "" then dstPath
               else if strings_HasSuffix_slash dstPath then dstPath +:+ relPath
               else dstPath +:+ "/" +:+ relPath))
    /\ (forall dstPath, dstPath <> "" ->
          resolve (filepath_Join [dstPath; relPath])
          = resolve (dstPath +:+ "/" +:+ relPath)).
Proof.
  intros Hl Hin.
  destruct (list_objects_names _ _ _ _ _ Hl name Hin) as [Hp _].
  destruct (prefix_slice _ _ Hp) as (rel & Hname & Hs).
  exists rel. split; [done|]. split; [done|]. split; [|split].
  - intros dstPath. unfold copyFromGcsToLocal_entry. rewrite Hs.
    by destruct (String.eqb rel "").
  - intros dstBucket dstPath. unfold copyFromGcsToGcs_entry. rewrite Hs.
    destruct (String.eqb rel ""); [done|]. unfold under_prefix.
    destruct (strings_HasSuffix_slash dstPath); simpl; [done|].
    by rewrite append_assoc.
  - intros dstPath Hd. by apply Join_same_file.
Qed.

Lemma remote_tree_copy_destination_witness :
  exists relPath,
    "dir/a.txt" = "dir" +:+ relPath
    /\ slice_from (String.length "dir") "dir/a.txt" = Some relPath
    /\ (forall dstPath,
          copyFromGcsToLocal_entry "bkt" "dir" dstPath "dir/a.txt"
          = copyFileFromGcsToLocal "bkt" "dir/a.txt"
              (if String.eqb relPath "" then dstPath
               else filepath_Join [dstPath; relPath]))
    /\ (forall dstBucket dstPath,
          copyFromGcsToGcs_entry "bkt" "dir" dstBucket dstPath "dir/a.txt"
          = copyFileFromGcsToGcs "bkt" "dir/a.txt" dstBucket
              (if String.eqb relPath "" then dstPath
               else if strings_HasSuffix_slash dstPath then dstPath +:+ relPath
               else dstPath +:+ "/" +:+ relPath))
    /\ (forall dstPath, dstPath <> "" ->
          resolve (filepath_Join [dstPath; relPath])
          = resolve (dstPath +:+ "/" +:+ relPath)).
Proof.
  apply (remote_tree_copy_destination sample_objects "bkt" "dir"
           ["dir"; "dir/a.txt"]
           (add_trace (ListObjects "bkt" "dir") sample_objects) "dir/a.txt").
  - vm_compute. reflexivity.
  - apply list_elem_of_In. simpl. tauto.
Defined.


(** * Running the monad *)

Lemma bind_Returned {A B} (m : M A) (f : A -> M B) w a w' :
  m w = Returned a w' -> (m ≫= f) w = f a w'.
Proof. unfold mbind, M_bind. by intros ->. Qed.

Lemma bind_Exited {A B} (m : M A) (f : A -> M B) w c w' :
  m w = Exited c w' -> (m ≫= f) w = Exited c w'.
Proof. unfold mbind, M_bind. by intros ->. Qed.

Lemma bind_Returned_inv {A B} (m : M A) (f : A -> M B) w b w'' :
  (m ≫= f) w = Returned b w'' ->
  exists a w', m w = Returned a w' /\ f a w' = Returned b w''.
Proof. unfold mbind, M_bind. destruct (m w) as [a w'| |]; [eauto|done|done]. Qed.

Lemma must_Returned_inv {A} (m : M (A + error)) w a w' :
  must m w = Returned a w' -> m w = Returned (inl a) w'.
Proof.
  unfold must. intros (r & w1 & Hm & Hr)%bind_Returned_inv.
  destruct r; [|done]. by injection Hr as -> ->.
Qed.

Lemma check_Returned_inv (m : M (option error)) w u w' :
  check m w = Returned u w' -> m w = Returned None w'.
Proof.
  unfold check. intros (r & w1 & Hm & Hr)%bind_Returned_inv.
  destruct r; [done|]. by injection Hr as _ ->.
Qed.

(** * Errors handed to the callback of a walk *)

Lemma walkFn_LL_fatal srcPath dstPath :
  fatal_on_error (copyFromLocalToLocal_walkFn srcPath dstPath).
Proof.
  intros path info err w r w'. unfold copyFromLocalToLocal_walkFn.
  intros (u & w1 & Hc & H)%bind_Returned_inv.
  apply check_Returned_inv in Hc. injection Hc as -> ->.
  apply bind_Returned_inv in H as (rel & w2 & _ & H).
  apply bind_Returned_inv in H as (u' & w3 & _ & H).
  by injection H as <- _.
Qed.

Lemma walkFn_LG_fatal srcPath dstBucket dstPath :
  fatal_on_error (copyFromLocalToGcs_walkFn srcPath dstBucket dstPath).
Proof.
  intros path info err w r w'. unfold copyFromLocalToGcs_walkFn.
  intros (u & w1 & Hc & H)%bind_Returned_inv.
  apply check_Returned_inv in Hc. injection Hc as -> ->.
  apply bind_Returned_inv in H as (rel & w2 & _ & H).
  apply bind_Returned_inv in H as (u' & w3 & _ & H).
  by injection H as <- _.
Qed.

Lemma walk_names_returns_nil walk_rec fn path names w r w' :
  fatal_on_error fn ->
  (forall p i w r w', walk_rec p i fn w = Returned r w' -> r = None) ->
  walk_names walk_rec path fn names w = Returned r w' -> r = None.
Proof.
  intros Hfn Hrec. revert w. induction names as [|name names IHn]; intros w H.
  { by injection H as <- _. }
  cbn [walk_names] in H.
  apply bind_Returned_inv in H as (rl & w3 & Hl & H).
  destruct rl as [fileInfo|e].
  - apply bind_Returned_inv in H as (err & w4 & Hw & H).
    apply Hrec in Hw as ->. by apply IHn in H.
  - apply bind_Returned_inv in H as (err & w4 & Hw & H).
    apply Hfn in Hw as [_ ?]. done.
Qed.

Lemma walk_returns_nil fn fuel path info w r w' :
  fatal_on_error fn ->
  walk fuel path info fn w = Returned r w' -> r = None.
Proof.
  intros Hfn. revert path info w r w'.
  induction fuel as [|fuel IH]; intros path info w r w'; [done|].
  cbn [walk]. destruct (negb (IsDir info)).
  { intros H. by apply Hfn in H as [-> _]. }
  intros (rd & w1 & Hrd & H)%bind_Returned_inv.
  apply bind_Returned_inv in H as (err1 & w2 & Hfn1 & H).
  apply Hfn in Hfn1 as [-> Herr].
  destruct rd as [names|e]; [|done].
  by apply walk_names_returns_nil in H.
Qed.

Lemma Walk_returns_nil fn fuel root w r w' :
  fatal_on_error fn ->
  filepath_Walk fuel root fn w = Returned r w' -> r = None.
Proof.
  intros Hfn. unfold filepath_Walk.
  intros (rl & w1 & Hl & H)%bind_Returned_inv.
  apply bind_Returned_inv in H as (err & w2 & Hw & H).
  assert (err = None) as ->.
  { destruct rl; [by apply walk_returns_nil in Hw | by apply Hfn in Hw as [-> _]]. }
  by injection H as <- _.
Qed.

(** C4, amended: an error handed to the callback of either local walk is
    logged and ends the process with status 1, whatever the entry; hence a walk
    that returns at all returns no error, and nothing is left for the caller to
    log. *)
Theorem walk_error_is_fatal srcPath path info e w :
  (forall dstPath,
     copyFromLocalToLocal_walkFn srcPath dstPath path info (Some e) w
     = Exited 1 (add_log (ErrorLine e) w))
  /\ (forall dstBucket dstPath,
        copyFromLocalToGcs_walkFn srcPath dstBucket dstPath path info (Some e) w
        = Exited 1 (add_log (ErrorLine e) w))
  /\ (forall fuel dstPath r w',
        filepath_Walk fuel srcPath (copyFromLocalToLocal_walkFn srcPath dstPath) w
        = Returned r w' -> r = None)
  /\ (forall fuel dstBucket dstPath r w',
        filepath_Walk fuel srcPath
          (copyFromLocalToGcs_walkFn srcPath dstBucket dstPath) w
        = Returned r w' -> r = None).
Proof.
  split; [done|]. split; [done|]. split.
  - intros fuel dstPath r w'. apply Walk_returns_nil, walkFn_LL_fatal.
  - intros fuel dstBucket dstPath r w'. apply Walk_returns_nil, walkFn_LG_fatal.
Qed.

(** C4 as first stated fails: the error of reading [a/bad] ends the process, and
    [a/z.txt] is never copied. *)
Lemma walk_error_counterexample :
  exists w',
    copyFromLocalToLocal 5 "a" "dst" unreadable_subdir = Exited 1 w'
    /\ log w' = [ErrorLine (IOError (ReadDir "a/bad"))]
    /\ files w' = files unreadable_subdir
    /\ Lstat "a/z.txt" ∉ trace w'.
Proof.
  eexists. split; [vm_compute; reflexivity|]. split; [reflexivity|].
  split; [reflexivity|]. cbn [trace]. rewrite list_elem_of_In. simpl.
  intuition discriminate.
Qed.


Ltac unfold_monad :=
  unfold must, check, perform, get_world, put_world, log_Print, log_Fatal,
    log_Println, log_Fatalf, mbind, M_bind, mret, M_ret in *.

Ltac world_simpl :=
  cbn [files objects fds log trace faults
       add_trace add_log set_fds set_files set_objects] in *.

(** * What the single operations do to the descriptor table *)

Lemma os_Open_fds path w fd w' :
  os_Open path w = Returned (inl fd) w' ->
  fd = fresh (dom (fds w)) /\ fds w' = <[fd := resolve path]> (fds w).
Proof.
  unfold os_Open. unfold_monad. world_simpl.
  repeat case_match; intros; by simplify_eq/=.
Qed.

Lemma os_MkdirAll_fds path w r w' :
  os_MkdirAll path w = Returned r w' -> fds w' = fds w.
Proof.
  unfold os_MkdirAll. unfold_monad. world_simpl.
  repeat case_match; intros; by simplify_eq/=.
Qed.

Lemma os_OpenFile_fds path w fd w' :
  os_OpenFile path w = Returned (inl fd) w' ->
  fd = fresh (dom (fds w)) /\ fds w' = <[fd := resolve path]> (fds w).
Proof.
  unfold os_OpenFile. unfold_monad. world_simpl.
  repeat case_match; intros; by simplify_eq/=.
Qed.

Lemma io_Copy_fds dst src w r w' :
  io_Copy dst src w = Returned r w' -> fds w' = fds w.
Proof.
  unfold io_Copy, write_all. unfold_monad. world_simpl.
  repeat case_match; intros; by simplify_eq/=.
Qed.

Lemma file_Close_fds fd w w' :
  file_Close fd w = Returned None w' -> fds w' = delete fd (fds w).
Proof.
  unfold file_Close. unfold_monad. world_simpl.
  repeat case_match; intros; by simplify_eq/=.
Qed.

(** [copyFileFromLocalToLocal] returns with one descriptor more than it was
    given: the one of the source. *)
Lemma copyFileFromLocalToLocal_fds src dst w w' :
  copyFileFromLocalToLocal src dst w = Returned tt w' ->
  fds w' = <[fresh (dom (fds w)) := resolve src]> (fds w).
Proof.
  unfold copyFileFromLocalToLocal.
  intros (fd & w1 & H1%must_Returned_inv & H)%bind_Returned_inv.
  apply os_Open_fds in H1 as [-> E1].
  apply bind_Returned_inv in H as (u2 & w2 & H2%check_Returned_inv & H).
  apply os_MkdirAll_fds in H2 as E2.
  apply bind_Returned_inv in H as (fd' & w3 & H3%must_Returned_inv & H).
  apply os_OpenFile_fds in H3 as [-> E3].
  apply bind_Returned_inv in H as (u4 & w4 & H4 & H).
  injection H4 as _ <-.
  apply bind_Returned_inv in H as (r & w5 & H5 & H).
  apply io_Copy_fds in H5 as E5. world_simpl.
  apply bind_Returned_inv in H as (u6 & w6 & H6%check_Returned_inv & H).
  injection H6 as _ <-.
  apply check_Returned_inv in H. apply file_Close_fds in H as ->.
  rewrite E5, E3, E2, E1. apply delete_insert_id.
  apply not_elem_of_dom. apply is_fresh.
Qed.

(** C6: the code does not do what the claim says. The copy of [a.txt] to
    [b.txt] returns with the descriptor of the source still open: the only
    [Close] of the run is that of the destination (descriptor 1), and
    descriptor 0 stays in the table. *)
Theorem copyFileFromLocalToLocal_leaves_source_open :
  exists w',
    copyFileFromLocalToLocal "a.txt" "b.txt" one_file = Returned tt w'
    /\ fds one_file = ∅
    /\ fds w' = {[ 0 := (false, ["a.txt"]) ]}
    /\ trace w' = [Open "a.txt"; MkdirAll "."; Create "b.txt";
                   Copy (LocalFile (false, ["a.txt"])) (LocalFile (false, ["b.txt"]));
                   Close 1].
Proof.
  eexists. split; [vm_compute; reflexivity|]. split; [reflexivity|].
  split; [|reflexivity].
  apply map_eq. intros i. vm_compute. reflexivity.
Qed.


(** * Relations that every step of a run keeps *)

Section Stable.
Context (R : world -> world -> Prop).
Context (R_refl : forall w, R w w).
Context (R_trans : forall w1 w2 w3, R w1 w2 -> R w2 w3 -> R w1 w3).
Context (R_log : forall e w, R w (add_log e w)).

Lemma stable_ret {A} (a : A) : stable R (mret a).
Proof. intros w. apply R_refl. Qed.

Lemma stable_bind {A B} (m : M A) (f : A -> M B) :
  stable R m -> (forall a, stable R (f a)) -> stable R (m ≫= f).
Proof.
  intros Hm Hf w. specialize (Hm w). unfold mbind, M_bind.
  destruct (m w) as [a w1|c w1|]; [|done|done].
  specialize (Hf a w1). destruct (f a w1); eauto.
Qed.

Lemma stable_log_Print msg : stable R (log_Print msg).
Proof. intros w. apply R_log. Qed.
Lemma stable_log_Println e : stable R (log_Println e).
Proof. intros w. apply R_log. Qed.
Lemma stable_log_Fatal {A} e : stable R (@log_Fatal A e).
Proof. intros w. apply R_log. Qed.
Lemma stable_log_Fatalf {A} msg : stable R (@log_Fatalf A msg).
Proof. intros w. apply R_log. Qed.
Lemma stable_go_panic {A} : stable R (@go_panic A).
Proof. intros w. apply R_refl. Qed.
Lemma stable_out_of_fuel {A} : stable R (@out_of_fuel A).
Proof. by intros w. Qed.

Lemma stable_must {A} (m : M (A + error)) : stable R m -> stable R (must m).
Proof.
  intros Hm. apply stable_bind; [done|]. intros [a|e];
    [apply stable_ret | apply stable_log_Fatal].
Qed.

Lemma stable_check (m : M (option error)) : stable R m -> stable R (check m).
Proof.
  intros Hm. apply stable_bind; [done|]. intros [e|];
    [apply stable_log_Fatal | apply stable_ret].
Qed.

Lemma stable_for_each {A} (l : list A) (body : A -> M unit) :
  (forall x, stable R (body x)) -> stable R (for_each l body).
Proof.
  intros Hb. induction l as [|x l IH]; [apply stable_ret|].
  apply stable_bind; [apply Hb | by intros _].
Qed.

Context (R_Lstat : forall p, stable R (os_Lstat p)).
Context (R_ReadDir : forall p, stable R (readDirNames p)).

Lemma stable_walk_names walk_rec fn path names :
  (forall p i e, stable R (fn p i e)) ->
  (forall p i, stable R (walk_rec p i fn)) ->
  stable R (walk_names walk_rec path fn names).
Proof.
  intros Hfn Hrec. induction names as [|name names IH]; [apply stable_ret|].
  cbn [walk_names]. apply stable_bind; [apply R_Lstat|]. intros [fi|e].
  - apply stable_bind; [apply Hrec|]. intros [e'|]; [|done].
    destruct (_ || _); [apply stable_ret | done].
  - apply stable_bind; [apply Hfn|]. intros [e'|]; [|done].
    destruct (is_SkipDir e'); [done | apply stable_ret].
Qed.

Lemma stable_walk fn fuel path info :
  (forall p i e, stable R (fn p i e)) -> stable R (walk fuel path info fn).
Proof.
  intros Hfn. revert path info.
  induction fuel as [|fuel IH]; intros path info; [apply stable_out_of_fuel|].
  cbn [walk]. destruct (negb (IsDir info)); [apply Hfn|].
  apply stable_bind; [apply R_ReadDir|]. intros r.
  apply stable_bind; [apply Hfn|]. intros err1.
  destruct r; [|apply stable_ret].
  destruct err1; [apply stable_ret|].
  by apply stable_walk_names.
Qed.

Lemma stable_Walk fn fuel root :
  (forall p i e, stable R (fn p i e)) -> stable R (filepath_Walk fuel root fn).
Proof.
  intros Hfn. unfold filepath_Walk.
  apply stable_bind; [apply R_Lstat|]. intros r.
  apply stable_bind.
  - destruct r; [by apply stable_walk | apply Hfn].
  - intros [e|]; [|apply stable_ret]. destruct (is_SkipDir e); apply stable_ret.
Qed.
End Stable.

(** * What a run writes *)

Lemma evolves_refl w : evolves w w.
Proof. exists []. by rewrite app_nil_r. Qed.

Lemma evolves_trans w1 w2 w3 : evolves w1 w2 -> evolves w2 w3 -> evolves w1 w3.
Proof.
  intros (t1 & T1 & F1 & Hf1 & Ho1) (t2 & T2 & F2 & Hf2 & Ho2).
  exists (t1 ++ t2)%list. split; [by rewrite T2, T1, app_assoc|].
  split; [congruence|]. unfold writes_file, writes_object. split.
  - intros l Hl. rewrite existsb_app in Hl. apply orb_false_iff in Hl as [H1 H2].
    by rewrite Hf2, Hf1.
  - intros k Hk. rewrite existsb_app in Hk. apply orb_false_iff in Hk as [H1 H2].
    by rewrite Ho2, Ho1.
Qed.

Lemma evolves_log e w : evolves w (add_log e w).
Proof. exists []. by rewrite app_nil_r. Qed.

Lemma evolves_one o w w' :
  trace w' = (trace w ++ [o])%list -> faults w' = faults w ->
  (forall l, touches_file o l = false -> files w' !! l = files w !! l) ->
  (forall k, touches_object o k = false -> objects w' !! k = objects w !! k) ->
  evolves w w'.
Proof.
  intros T F Hf Ho. exists [o]. split; [done|]. split; [done|].
  unfold writes_file, writes_object. simpl. split.
  - intros l Hl. apply Hf. by destruct (touches_file o l).
  - intros k Hk. apply Ho. by destruct (touches_object o k).
Qed.

Lemma evolves_read o w : evolves w (add_trace o w).
Proof. by apply (evolves_one o). Qed.

Lemma evolves_fds o d w : evolves w (set_fds d (add_trace o w)).
Proof. by apply (evolves_one o). Qed.

Lemma is_anchor_lookup fs l : is_anchor l = true -> lookup_node fs l = Some Dir.
Proof. unfold lookup_node. by intros ->. Qed.

(** [os.MkdirAll] changes nothing but the path and the directories above it. *)
Lemma mkdir_all_frame rooted rev_elems fs fs' l :
  mkdir_all rooted rev_elems fs = Some fs' ->
  (Bool.eqb l.1 rooted && bool_decide (l.2 `prefix_of` rev rev_elems)
   && negb (is_anchor l)) = false ->
  fs' !! l = fs !! l.
Proof.
  revert fs'. induction rev_elems as [|e up IH]; intros fs' H Hl; simpl in H.
  - by destruct (lookup_node fs (rooted, [])) as [[]|]; simplify_eq.
  - destruct (lookup_node fs (rooted, (rev up ++ [e])%list)) as [[]|] eqn:E;
      simplify_eq; [done|].
    destruct (mkdir_all rooted up fs) as [fs1|] eqn:E1; [|done].
    injection H as <-.
    rewrite lookup_insert_ne.
    + apply IH; [done|]. simpl in Hl.
      destruct (Bool.eqb l.1 rooted) eqn:Er; [|done]. simpl in *.
      destruct (is_anchor l) eqn:Ea; [by rewrite andb_false_r|].
      rewrite andb_true_r in *. apply bool_decide_eq_false in Hl.
      apply bool_decide_eq_false. intros Hp. apply Hl.
      by apply prefix_app_r.
    + intros <-. simpl in Hl. rewrite Bool.eqb_reflx in Hl. simpl in Hl.
      rewrite bool_decide_eq_true_2 in Hl by done. simpl in Hl.
      apply negb_false_iff in Hl.
      by rewrite (is_anchor_lookup _ _ Hl) in E.
Qed.

Ltac run_prim :=
  intros w; unfold_monad; world_simpl; repeat case_match; simplify_eq/=;
  try done; world_simpl.

Lemma evolves_Stat p : stable evolves (os_Stat p).
Proof. unfold os_Stat. run_prim; apply evolves_read. Qed.
Lemma evolves_Lstat p : stable evolves (os_Lstat p).
Proof. unfold os_Lstat. run_prim; apply evolves_read. Qed.
Lemma evolves_ReadDir p : stable evolves (readDirNames p).
Proof. unfold readDirNames. run_prim; apply evolves_read. Qed.
Lemma evolves_Open p : stable evolves (os_Open p).
Proof. unfold os_Open. run_prim; (apply evolves_read || apply evolves_fds). Qed.

Lemma evolves_MkdirAll p : stable evolves (os_MkdirAll p).
Proof.
  unfold os_MkdirAll. run_prim; try apply evolves_read.
  eapply evolves_one; try done. world_simpl. intros l Hl.
  eapply mkdir_all_frame; [eassumption|]. simpl in Hl.
  by rewrite rev_involutive.
Qed.

Lemma evolves_OpenFile p : stable evolves (os_OpenFile p).
Proof.
  unfold os_OpenFile. run_prim; try apply evolves_read.
  all: eapply evolves_one; try done; world_simpl; intros l Hl; simpl in Hl;
    apply bool_decide_eq_false in Hl; by rewrite lookup_insert_ne.
Qed.

Lemma evolves_Close fd : stable evolves (file_Close fd).
Proof. unfold file_Close. run_prim; (apply evolves_read || apply evolves_fds). Qed.
Lemma evolves_Sync fd : stable evolves (file_Sync fd).
Proof. unfold file_Sync. run_prim; apply evolves_read. Qed.
Lemma evolves_NewClient : stable evolves storage_NewClient.
Proof. unfold storage_NewClient. run_prim; apply evolves_read. Qed.
Lemma evolves_client_Close : stable evolves client_Close.
Proof. unfold client_Close. run_prim; apply evolves_read. Qed.
Lemma evolves_list b pre : stable evolves (list_objects b pre).
Proof. unfold list_objects. run_prim; apply evolves_read. Qed.
Lemma evolves_NewReader b n : stable evolves (object_NewReader b n).
Proof. unfold object_NewReader. run_prim; apply evolves_read. Qed.
Lemma evolves_reader_Close b n : stable evolves (reader_Close b n).
Proof. unfold reader_Close. run_prim; apply evolves_read. Qed.

Lemma evolves_writer_Close b n buf : stable evolves (writer_Close b n buf).
Proof.
  unfold writer_Close. run_prim; try apply evolves_read.
  eapply evolves_one; try done; world_simpl; intros k Hk; simpl in Hk;
    apply bool_decide_eq_false in Hk; by rewrite lookup_insert_ne.
Qed.

Lemma evolves_copier_Run sb sn db dn : stable evolves (copier_Run sb sn db dn).
Proof.
  unfold copier_Run. run_prim; try apply evolves_read.
  eapply evolves_one; try done; world_simpl; intros k Hk; simpl in Hk;
    apply bool_decide_eq_false in Hk; by rewrite lookup_insert_ne.
Qed.

Lemma evolves_io_Copy dst src : stable evolves (io_Copy dst src).
Proof.
  unfold io_Copy, write_all, writer_endpoint. run_prim;
    try apply evolves_refl; try apply evolves_read.
  eapply evolves_one; try done; world_simpl; intros l' Hl; simpl in Hl;
    apply bool_decide_eq_false in Hl; by rewrite lookup_insert_ne.
Qed.


(** * Relations kept by the functions of the program *)

Section StablePrograms.
Context (R : world -> world -> Prop).
Context (R_refl : forall w, R w w).
Context (R_trans : forall w1 w2 w3, R w1 w2 -> R w2 w3 -> R w1 w3).
Context (R_log : forall e w, R w (add_log e w)).
Context (R_Stat : forall p, stable R (os_Stat p)).
Context (R_Lstat : forall p, stable R (os_Lstat p)).
Context (R_ReadDir : forall p, stable R (readDirNames p)).
Context (R_Open : forall p, stable R (os_Open p)).
Context (R_MkdirAll : forall p, stable R (os_MkdirAll p)).
Context (R_OpenFile : forall p, stable R (os_OpenFile p)).
Context (R_Close : forall fd, stable R (file_Close fd)).
Context (R_Sync : forall fd, stable R (file_Sync fd)).
Context (R_NewClient : stable R storage_NewClient).
Context (R_client_Close : stable R client_Close).
Context (R_list : forall b pre, stable R (list_objects b pre)).
Context (R_NewReader : forall b n, stable R (object_NewReader b n)).
Context (R_reader_Close : forall b n, stable R (reader_Close b n)).
Context (R_writer_Close : forall b n buf, stable R (writer_Close b n buf)).
Context (R_copier_Run : forall sb sn db dn, stable R (copier_Run sb sn db dn)).
Context (R_Copy_to_file : forall fd src, stable R (io_Copy (FileWriter fd) src)).
Context (R_Copy_to_object :
           forall b n buf src, stable R (io_Copy (ObjectWriter b n buf) src)).

Local Ltac step :=
  lazymatch goal with
  | |- stable _ (mret _) => apply stable_ret; assumption
  | |- stable _ (log_Print _) => apply stable_log_Print; assumption
  | |- stable _ (log_Println _) => apply stable_log_Println; assumption
  | |- stable _ go_panic => apply stable_go_panic; assumption
  | |- stable _ (must _) => apply stable_must; [assumption..|]
  | |- stable _ (check _) => apply stable_check; [assumption..|]
  | |- stable _ (mbind _ _) => apply stable_bind; [assumption..| |intros ?]
  | |- stable _ (match ?x with _ => _ end) => destruct x
  | |- stable _ _ => solve [auto]
  end.

Lemma stable_copyFileFromLocalToLocal s d :
  stable R (copyFileFromLocalToLocal s d).
Proof. unfold copyFileFromLocalToLocal. repeat step. Qed.

Lemma stable_copyFileFromLocalToGcs s b d :
  stable R (copyFileFromLocalToGcs s b d).
Proof. unfold copyFileFromLocalToGcs, object_NewWriter. repeat step. Qed.

Lemma stable_copyFileFromGcsToLocal b s d :
  stable R (copyFileFromGcsToLocal b s d).
Proof. unfold copyFileFromGcsToLocal. repeat step. Qed.

Lemma stable_copyFileFromGcsToGcs sb s db d :
  stable R (copyFileFromGcsToGcs sb s db d).
Proof. unfold copyFileFromGcsToGcs. repeat step. Qed.

Lemma stable_walkFn_LL s d p i e :
  stable R (copyFromLocalToLocal_walkFn s d p i e).
Proof.
  unfold copyFromLocalToLocal_walkFn. repeat step.
  apply stable_copyFileFromLocalToLocal.
Qed.

Lemma stable_walkFn_LG s b d p i e :
  stable R (copyFromLocalToGcs_walkFn s b d p i e).
Proof.
  unfold copyFromLocalToGcs_walkFn. repeat step.
  apply stable_copyFileFromLocalToGcs.
Qed.

Lemma stable_copyFromLocalToLocal fuel s d :
  stable R (copyFromLocalToLocal fuel s d).
Proof.
  unfold copyFromLocalToLocal. repeat step.
  - apply stable_copyFileFromLocalToLocal.
  - apply stable_Walk; try assumption. apply stable_walkFn_LL.
Qed.

Lemma stable_copyFromLocalToGcs fuel s b d :
  stable R (copyFromLocalToGcs fuel s b d).
Proof.
  unfold copyFromLocalToGcs. repeat step.
  - apply stable_copyFileFromLocalToGcs.
  - apply stable_Walk; try assumption. apply stable_walkFn_LG.
Qed.

Lemma stable_copyFromGcsToLocal b s d : stable R (copyFromGcsToLocal b s d).
Proof.
  unfold copyFromGcsToLocal. repeat step.
  apply stable_for_each; try assumption. intros name.
  unfold copyFromGcsToLocal_entry. repeat step;
    apply stable_copyFileFromGcsToLocal.
Qed.

Lemma stable_copyFromGcsToGcs sb s db d : stable R (copyFromGcsToGcs sb s db d).
Proof.
  unfold copyFromGcsToGcs. repeat step.
  apply stable_for_each; try assumption. intros name.
  unfold copyFromGcsToGcs_entry. repeat step;
    apply stable_copyFileFromGcsToGcs.
Qed.

Lemma stable_main fuel program args : stable R (main fuel program args).
Proof.
  unfold main. destruct (Nat.ltb _ _); [by apply stable_log_Fatalf|].
  repeat step.
  all: lazymatch goal with
       | |- stable _ (copyFromGcsToGcs _ _ _ _) => apply stable_copyFromGcsToGcs
       | |- stable _ (copyFromGcsToLocal _ _ _) => apply stable_copyFromGcsToLocal
       | |- stable _ (copyFromLocalToGcs _ _ _ _) => apply stable_copyFromLocalToGcs
       | |- stable _ (copyFromLocalToLocal _ _ _) => apply stable_copyFromLocalToLocal
       end.
Qed.
End StablePrograms.


Lemma stable_final (R : world -> world -> Prop) {A} (m : M A) w w' :
  stable R m -> final_world (m w) = Some w' -> R w w'.
Proof.
  intros Hm H. specialize (Hm w). destruct (m w); simpl in H; by simplify_eq.
Qed.

Lemma evolves_new_ops w w' :
  evolves w w' ->
  trace w' = (trace w ++ new_ops w w')%list
  /\ faults w' = faults w
  /\ (forall l, writes_file (new_ops w w') l = false -> files w' !! l = files w !! l)
  /\ (forall k, writes_object (new_ops w w') k = false ->
        objects w' !! k = objects w !! k).
Proof.
  intros (t & T & F & Hf & Ho). unfold new_ops. rewrite T, drop_app_length. done.
Qed.

Lemma evolves_main fuel program args : stable evolves (main fuel program args).
Proof.
  apply stable_main; intros;
    first [ apply evolves_refl | eapply evolves_trans; eassumption
          | apply evolves_log | apply evolves_Stat | apply evolves_Lstat
          | apply evolves_ReadDir | apply evolves_Open | apply evolves_MkdirAll
          | apply evolves_OpenFile | apply evolves_Close | apply evolves_Sync
          | apply evolves_NewClient | apply evolves_client_Close
          | apply evolves_list | apply evolves_NewReader
          | apply evolves_reader_Close | apply evolves_writer_Close
          | apply evolves_copier_Run | apply evolves_io_Copy ].
Qed.

(** ** Runs that leave the local files, or the objects, alone *)

Create HintDb prims.
#[local] Hint Unfold os_Stat os_Lstat readDirNames os_Open os_MkdirAll
  os_OpenFile file_Close file_Sync storage_NewClient client_Close list_objects
  object_NewReader reader_Close writer_Close copier_Run io_Copy write_all
  : prims.

Ltac same_prim :=
  intros;
  first
    [ done
    | unfold same_files, same_objects in *; congruence
    | autounfold with prims; run_prim; unfold same_files, same_objects;
      world_simpl; done ].

Lemma same_files_copyFromLocalToGcs fuel s b d :
  stable same_files (copyFromLocalToGcs fuel s b d).
Proof. apply stable_copyFromLocalToGcs; same_prim. Qed.

Lemma same_objects_copyFromGcsToLocal b s d :
  stable same_objects (copyFromGcsToLocal b s d).
Proof. apply stable_copyFromGcsToLocal; same_prim. Qed.

Lemma main_local_to_remote fuel program args w w' :
  is_nil (splitGcsPath (nth 0 args "")).2 = false ->
  is_nil (splitGcsPath (nth 1 args "")).2 = true ->
  final_world (main fuel program args w) = Some w' -> files w' = files w.
Proof.
  intros H1 H2. apply (stable_final same_files). clear w w'.
  unfold main. destruct (Nat.ltb _ _); [by intros w|].
  destruct (splitGcsPath (nth 0 args "")) as [[fromBkt fromObj] err1].
  destruct (splitGcsPath (nth 1 args "")) as [[toBkt toObj] err2].
  simpl in H1, H2. rewrite H1, H2.
  assert (Ht : forall w1 w2 w3, same_files w1 w2 -> same_files w2 w3 ->
                                same_files w1 w3)
    by (unfold same_files; congruence).
  apply stable_bind; [done | by intros w | intros _].
  apply stable_bind; [done | by intros w | intros _].
  apply stable_bind; [done | apply same_files_copyFromLocalToGcs | intros _].
  by intros w.
Qed.

Lemma main_remote_to_local fuel program args w w' :
  is_nil (splitGcsPath (nth 0 args "")).2 = true ->
  is_nil (splitGcsPath (nth 1 args "")).2 = false ->
  final_world (main fuel program args w) = Some w' -> objects w' = objects w.
Proof.
  intros H1 H2. apply (stable_final same_objects). clear w w'.
  unfold main. destruct (Nat.ltb _ _); [by intros w|].
  destruct (splitGcsPath (nth 0 args "")) as [[fromBkt fromObj] err1].
  destruct (splitGcsPath (nth 1 args "")) as [[toBkt toObj] err2].
  simpl in H1, H2. rewrite H1, H2.
  assert (Ht : forall w1 w2 w3, same_objects w1 w2 -> same_objects w2 w3 ->
                                same_objects w1 w3)
    by (unfold same_objects; congruence).
  apply stable_bind; [done | by intros w | intros _].
  apply stable_bind; [done | by intros w | intros _].
  apply stable_bind; [done | | intros _; by intros w].
  apply stable_bind; [done | apply same_objects_copyFromGcsToLocal | intros _].
  by intros w.
Qed.





(** * Runs without faults *)

Lemma must_ok {A} (m : M (A + error)) w a w' :
  m w = Returned (inl a) w' -> must m w = Returned a w'.
Proof. intros H. unfold must. by rewrite (bind_Returned _ _ _ _ _ H). Qed.

Lemma check_ok (m : M (option error)) w w' :
  m w = Returned None w' -> check m w = Returned tt w'.
Proof. intros H. unfold check. by rewrite (bind_Returned _ _ _ _ _ H). Qed.

Lemma not_empty_path p : p <> "" -> is_empty_path p = false.
Proof. intros H. by apply String.eqb_neq. Qed.

Lemma os_Stat_ok p w n :
  quiet w -> p <> "" -> lookup_node (files w) (resolve p) = Some n ->
  os_Stat p w = Returned (inl (info_of n)) (add_trace (Stat p) w).
Proof.
  intros Hq Hp Hn. unfold os_Stat. unfold_monad. world_simpl.
  by rewrite Hq, not_empty_path, Hn.
Qed.

Lemma os_Lstat_ok p w n :
  quiet w -> p <> "" -> lookup_node (files w) (resolve p) = Some n ->
  os_Lstat p w = Returned (inl (info_of n)) (add_trace (Lstat p) w).
Proof.
  intros Hq Hp Hn. unfold os_Lstat. unfold_monad. world_simpl.
  by rewrite Hq, not_empty_path, Hn.
Qed.

Lemma readDirNames_ok p w :
  quiet w -> p <> "" -> lookup_node (files w) (resolve p) = Some Dir ->
  readDirNames p w
  = Returned (inl (dir_names (files w) (resolve p))) (add_trace (ReadDir p) w).
Proof.
  intros Hq Hp Hn. unfold readDirNames. unfold_monad. world_simpl.
  by rewrite Hq, not_empty_path, Hn.
Qed.

Lemma os_Open_ok p w n :
  quiet w -> p <> "" -> lookup_node (files w) (resolve p) = Some n ->
  os_Open p w
  = Returned (inl (fresh (dom (fds w))))
      (set_fds (<[fresh (dom (fds w)) := resolve p]> (fds w))
         (add_trace (Open p) w)).
Proof.
  intros Hq Hp Hn. unfold os_Open. unfold_monad. world_simpl.
  by rewrite Hq, not_empty_path, Hn.
Qed.

Lemma os_MkdirAll_ok p w fs' :
  quiet w -> p <> "" ->
  mkdir_all (resolve p).1 (rev (resolve p).2) (files w) = Some fs' ->
  os_MkdirAll p w = Returned None (set_files fs' (add_trace (MkdirAll p) w)).
Proof.
  intros Hq Hp Hn. unfold os_MkdirAll. unfold_monad. world_simpl.
  by rewrite Hq, not_empty_path, Hn.
Qed.

Lemma os_OpenFile_ok p w :
  quiet w -> p <> "" ->
  lookup_node (files w) (resolve p) <> Some Dir ->
  lookup_node (files w) (parent (resolve p)) = Some Dir ->
  os_OpenFile p w
  = Returned (inl (fresh (dom (fds w))))
      (set_fds (<[fresh (dom (fds w)) := resolve p]> (fds w))
         (set_files (<[resolve p := File []]> (files w))
            (add_trace (Create p) w))).
Proof.
  intros Hq Hp Hn Hpar. unfold os_OpenFile. unfold_monad. world_simpl.
  rewrite Hq, not_empty_path, Hpar by done. simpl.
  by destruct (lookup_node (files w) (resolve p)) as [[]|].
Qed.

Lemma io_Copy_files_ok fd_d fd_s w ls ld data old :
  quiet w -> fds w !! fd_s = Some ls -> fds w !! fd_d = Some ld ->
  files w !! ls = Some (File data) -> files w !! ld = Some (File old) ->
  io_Copy (FileWriter fd_d) (FileReader fd_s) w
  = Returned (FileWriter fd_d, None)
      (set_files (<[ld := File (old ++ data)%list]> (files w))
         (add_trace (Copy (LocalFile ls) (LocalFile ld)) w)).
Proof.
  intros Hq Hs Hd Hls Hld. unfold io_Copy, reader_endpoint, writer_endpoint,
    read_all, write_all. unfold_monad. world_simpl.
  rewrite Hs, Hd. simpl. world_simpl. rewrite Hs, Hd, Hls, Hld, Hq. done.
Qed.

Lemma file_Close_ok fd w l :
  quiet w -> fds w !! fd = Some l ->
  file_Close fd w
  = Returned None (set_fds (delete fd (fds w)) (add_trace (Close fd) w)).
Proof.
  intros Hq Hl. unfold file_Close. unfold_monad. world_simpl.
  by rewrite Hl, Hq.
Qed.

Lemma Clean_not_empty p : filepath_Clean p <> "".
Proof.
  unfold filepath_Clean, render. pose proof (resolve_clean p) as Hcl.
  destruct (resolve p) as [[] es]; cbn [fst snd] in *; [done|].
  destruct es as [|e es]; [done|].
  pose proof (clean_form_head _ _ e Hcl eq_refl) as He.
  destruct e as [|c e]; [done|]. destruct es; cbn; sapp; done.
Qed.

Lemma Join_not_empty d b : b <> "" -> filepath_Join [d; b] <> "".
Proof.
  intros Hb. cbn [filepath_Join]. apply String.eqb_neq in Hb. rewrite Hb.
  destruct (String.eqb d ""); apply Clean_not_empty.
Qed.

Lemma Dir_not_empty p : filepath_Dir p <> "".
Proof. apply Clean_not_empty. Qed.

Lemma fresh_fd_ne (d : gmap nat location) fd l :
  fresh (dom (<[fd := l]> d)) <> fd.
Proof.
  intros H. pose proof (is_fresh (dom (<[fd := l]> d))) as Hf.
  rewrite H in Hf. apply Hf. rewrite dom_insert. set_solver.
Qed.

(** One transfer, when nothing is in its way. *)
Lemma copyFileFromLocalToLocal_ok src dst w data fs1 :
  quiet w -> src <> "" -> dst <> "" ->
  files w !! resolve src = Some (File data) ->
  is_anchor (resolve src) = false ->
  mkdir_all (resolve (filepath_Dir dst)).1 (rev (resolve (filepath_Dir dst)).2)
    (files w) = Some fs1 ->
  fs1 !! resolve src = Some (File data) ->
  lookup_node fs1 (resolve dst) <> Some Dir ->
  lookup_node fs1 (parent (resolve dst)) = Some Dir ->
  resolve dst <> resolve src ->
  exists w',
    copyFileFromLocalToLocal src dst w = Returned tt w'
    /\ files w' = <[resolve dst := File data]> fs1
    /\ faults w' = faults w
    /\ objects w' = objects w
    /\ trace w'
       = (trace w ++ [Open src; MkdirAll (filepath_Dir dst); Create dst;
                      Copy (LocalFile (resolve src)) (LocalFile (resolve dst));
                      Close (fresh (dom (<[fresh (dom (fds w)) := resolve src]>
                                           (fds w))))])%list.
Proof.
  intros Hq Hsrc Hdst Hdata Hanc Hmk Hkeep Hnd Hpar Hne.
  pose proof (Dir_not_empty dst) as Hdir.
  unfold copyFileFromLocalToLocal.
  set (f1 := fresh (dom (fds w))).
  set (f2 := fresh (dom (<[f1 := resolve src]> (fds w)))).
  erewrite bind_Returned; [|apply must_ok; eapply os_Open_ok; try done].
  2:{ unfold lookup_node. by rewrite Hanc. }
  fold f1.
  erewrite bind_Returned; [|apply check_ok; eapply os_MkdirAll_ok; try done].
  erewrite bind_Returned; [|apply must_ok; eapply os_OpenFile_ok; try done].
  world_simpl. fold f2.
  erewrite bind_Returned; [|reflexivity].
  erewrite bind_Returned;
    [|eapply (io_Copy_files_ok _ _ _ (resolve src) (resolve dst) data []); try done].
  2:{ world_simpl. rewrite lookup_insert_ne; [apply lookup_insert_eq|].
      apply fresh_fd_ne. }
  2:{ world_simpl. apply lookup_insert_eq. }
  2:{ world_simpl. by rewrite lookup_insert_ne. }
  2:{ world_simpl. apply lookup_insert_eq. }
  erewrite bind_Returned; [|reflexivity].
  erewrite check_ok; [|eapply file_Close_ok; try done].
  2:{ world_simpl. apply lookup_insert_eq. }
  eexists. split; [reflexivity|]. world_simpl.
  split; [by rewrite insert_insert_eq|]. split; [done|]. split; [done|].
  by rewrite <- !app_assoc.
Qed.


(** * [os.MkdirAll] on the model *)

Lemma mkdir_all_keeps rooted rev_elems fs fs' l n :
  mkdir_all rooted rev_elems fs = Some fs' -> fs !! l = Some n -> fs' !! l = Some n.
Proof.
  revert fs'. induction rev_elems as [|e up IH]; intros fs' H Hl; cbn [mkdir_all rev] in *.
  - destruct (lookup_node fs (rooted, [])) as [[]|]; by simplify_eq.
  - destruct (lookup_node fs (rooted, (rev up ++ [e])%list)) as [[]|] eqn:E.
    + done.
    + by injection H as <-.
    + destruct (mkdir_all rooted up fs) as [fs1|] eqn:E1; [|done].
      injection H as <-. rewrite lookup_insert_ne; [by apply IH|].
      intros Heq. subst l. unfold lookup_node in E.
      destruct (is_anchor _); [done|]. by rewrite E in Hl.
Qed.

Lemma mkdir_all_new rooted rev_elems fs fs' l n :
  mkdir_all rooted rev_elems fs = Some fs' -> fs' !! l = Some n ->
  fs !! l = Some n
  \/ (n = Dir /\ l.1 = rooted /\ l.2 `prefix_of` rev rev_elems
      /\ is_anchor l = false).
Proof.
  revert fs'. induction rev_elems as [|e up IH]; intros fs' H Hl; cbn [mkdir_all rev] in *.
  - destruct (lookup_node fs (rooted, [])) as [[]|]; simplify_eq; by left.
  - destruct (lookup_node fs (rooted, (rev up ++ [e])%list)) as [[]|] eqn:E.
    + done.
    + injection H as <-. by left.
    + destruct (mkdir_all rooted up fs) as [fs1|] eqn:E1; [|done].
      injection H as <-.
      destruct (decide (l = (rooted, (rev up ++ [e])%list))) as [->|Hne].
      * rewrite lookup_insert_eq in Hl. injection Hl as <-. right.
        split; [done|]. split; [done|]. split; [done|].
        unfold lookup_node in E. by destruct (is_anchor _).
      * rewrite lookup_insert_ne in Hl by done.
        destruct (IH _ eq_refl Hl) as [?|(-> & Hr & Hp & Ha)]; [by left|right].
        split; [done|]. split; [done|]. split; [|done].
        simpl. by apply prefix_app_r.
Qed.

Lemma mkdir_all_made rooted rev_elems fs fs' :
  mkdir_all rooted rev_elems fs = Some fs' ->
  lookup_node fs' (rooted, rev rev_elems) = Some Dir.
Proof.
  destruct rev_elems as [|e up]; cbn [mkdir_all rev]; intros H.
  - destruct (lookup_node fs (rooted, [])) as [[]|] eqn:E; by simplify_eq.
  - destruct (lookup_node fs (rooted, (rev up ++ [e])%list)) as [[]|] eqn:E.
    + done.
    + by injection H as <-.
    + destruct (mkdir_all rooted up fs) as [fs1|] eqn:E1; [|done].
      injection H as <-. unfold lookup_node in *.
      destruct (is_anchor _); [done|]. apply lookup_insert_eq.
Qed.

Lemma mkdir_all_Some rooted rev_elems fs :
  (forall l data, l.1 = rooted -> l.2 `prefix_of` rev rev_elems ->
                  lookup_node fs l <> Some (File data)) ->
  exists fs', mkdir_all rooted rev_elems fs = Some fs'.
Proof.
  induction rev_elems as [|e up IH]; intros Hno; cbn [mkdir_all rev] in *.
  - destruct (lookup_node fs (rooted, [])) as [[data|]|] eqn:E; eauto.
    by destruct (Hno (rooted, []) data).
  - destruct (lookup_node fs (rooted, (rev up ++ [e])%list)) as [[data|]|] eqn:E; eauto.
    + by destruct (Hno (rooted, (rev up ++ [e])%list) data).
    + destruct IH as [fs1 ->]; [|eauto].
      intros l data Hr Hp. apply Hno; [done|]. simpl. by apply prefix_app_r.
Qed.


(** * Locations under a root *)

Lemma is_below_at a l : is_below a l = true <-> exists rel, l = at_path a rel.
Proof.
  unfold is_below, at_path. rewrite andb_true_iff, bool_decide_eq_true. split.
  - intros [Hr [rel Hrel]]. exists rel. destruct l as [r es]; simpl in *.
    apply Bool.eqb_prop in Hr. by subst.
  - intros [rel ->]. simpl. split; [apply Bool.eqb_reflx | by exists rel].
Qed.

Lemma is_below_refl a : is_below a a = true.
Proof. apply is_below_at. exists []. unfold at_path. rewrite app_nil_r. by destruct a. Qed.

Lemma is_below_trans a b c :
  is_below a b = true -> is_below b c = true -> is_below a c = true.
Proof.
  rewrite !is_below_at. intros [r1 ->] [r2 ->]. exists (r1 ++ r2)%list.
  unfold at_path. simpl. by rewrite app_assoc.
Qed.

Lemma is_below_total a b c :
  is_below a c = true -> is_below b c = true ->
  is_below a b = true \/ is_below b a = true.
Proof.
  unfold is_below. rewrite !andb_true_iff, !bool_decide_eq_true.
  intros [Ha Hpa] [Hb Hpb]. apply Bool.eqb_prop in Ha, Hb.
  destruct (prefix_weak_total _ _ _ Hpa Hpb); [left|right];
    (split; [|done]); apply Bool.eqb_true_iff; congruence.
Qed.

Lemma at_path_app a r1 r2 : at_path (at_path a r1) r2 = at_path a (r1 ++ r2).
Proof. unfold at_path. simpl. by rewrite app_assoc. Qed.

Lemma at_path_nil a : at_path a [] = a.
Proof. unfold at_path. rewrite app_nil_r. by destruct a. Qed.

Lemma at_path_inj a r1 r2 : at_path a r1 = at_path a r2 -> r1 = r2.
Proof. unfold at_path. intros [= H]. by apply app_inv_head in H. Qed.

Lemma parent_at_path a rel n : parent (at_path a (rel ++ [n])) = at_path a rel.
Proof. unfold parent, at_path. simpl. by rewrite app_assoc, removelast_last. Qed.

Lemma is_anchor_name a rel n :
  is_name n = true -> is_anchor (at_path a (rel ++ [n])) = false.
Proof.
  intros Hn. unfold is_anchor, at_path. cbn [fst snd].
  rewrite app_assoc, forallb_app. apply andb_false_iff. right.
  cbn [forallb]. rewrite andb_true_r.
  apply String.eqb_neq. intros <-. done.
Qed.

Lemma is_anchor_prefix r es rest :
  is_anchor (r, (es ++ rest)%list) = true -> is_anchor (r, es) = true.
Proof. unfold is_anchor. simpl. rewrite forallb_app. by intros [? ?]%andb_true_iff. Qed.

(** ** Well-formed file systems *)

Lemma wf_above fs r es rest n :
  wf_files fs -> fs !! (r, (es ++ rest)%list) = Some n -> rest <> [] ->
  lookup_node fs (r, es) = Some Dir.
Proof.
  intros Hwf. revert n. induction rest as [|x rest IH] using rev_ind;
    intros n Hn Hne; [done|].
  destruct (Hwf _ _ Hn) as (_ & _ & Hpar).
  unfold parent in Hpar. simpl in Hpar. rewrite app_assoc, removelast_last in Hpar.
  destruct rest as [|y rest' _] using rev_ind.
  { by rewrite app_nil_r in Hpar. }
  unfold lookup_node in Hpar.
  destruct (is_anchor (r, (es ++ rest' ++ [y])%list)) eqn:Ha.
  - unfold lookup_node. by rewrite (is_anchor_prefix _ _ _ Ha).
  - eapply IH; [done|]. by destruct rest'.
Qed.

Lemma wf_name fs l n :
  wf_files fs -> fs !! l = Some n ->
  exists es x, l.2 = (es ++ [x])%list /\ is_name x = true.
Proof.
  intros Hwf Hn. destruct (Hwf _ _ Hn) as (Hc & Ha & _).
  apply is_clean_form in Hc as (k & names & Hes & Hnames & Hk).
  destruct l as [r es]; simpl in *. subst es.
  destruct names as [|x names _] using rev_ind.
  - rewrite app_nil_r in Ha. unfold is_anchor in Ha. simpl in Ha.
    exfalso. apply not_true_iff_false in Ha. apply Ha.
    apply forallb_forall. intros e He. apply repeat_spec in He. by subst.
  - exists (dotdots k ++ names)%list, x. split; [by rewrite app_assoc|].
    by apply Forall_app in Hnames as [_ [? _]%Forall_cons].
Qed.

(** ** The names in a directory *)

Lemma strip_prefix_Some pre l rest :
  strip_prefix pre l = Some rest <-> l = (pre ++ rest)%list.
Proof.
  revert l. induction pre as [|p pre IH]; intros l; simpl.
  - split; congruence.
  - destruct l as [|x l]; [split; discriminate|].
    destruct (String.eqb_spec p x) as [->|Hne].
    + rewrite IH. split; congruence.
    + split; [discriminate | congruence].
Qed.

Lemma child_name_Some d k n : child_name d k = Some n <-> k = at_path d [n].
Proof.
  unfold child_name, at_path. destruct k as [r es]; simpl. split.
  - destruct (Bool.eqb d.1 r) eqn:Er; [|done]. apply Bool.eqb_prop in Er. subst r.
    destruct (strip_prefix d.2 es) as [rest|] eqn:E; [|done].
    apply strip_prefix_Some in E. destruct rest as [|x [|]]; try done.
    by intros [= ->]; subst.
  - intros [= -> ->]. rewrite Bool.eqb_reflx.
    assert (strip_prefix d.2 (d.2 ++ [n]) = Some [n]) as -> by by apply strip_prefix_Some.
    done.
Qed.

Lemma elem_of_dir_names fs d n :
  n ∈ dir_names fs d <-> is_Some (fs !! at_path d [n]).
Proof.
  unfold dir_names. rewrite merge_sort_Permutation, list_elem_of_omap. split.
  - intros (k & Hk & Hc). apply child_name_Some in Hc as ->.
    apply list_elem_of_fmap in Hk as ([k v] & -> & Hin).
    apply elem_of_map_to_list in Hin. by exists v.
  - intros [v Hv]. exists (at_path d [n]). split; [|by apply child_name_Some].
    apply list_elem_of_fmap. exists (at_path d [n], v). split; [done|].
    by apply elem_of_map_to_list.
Qed.

Lemma NoDup_omap_inj {A B} (f : A -> option B) (l : list A) :
  (forall x y b, f x = Some b -> f y = Some b -> x = y) ->
  NoDup l -> NoDup (omap f l).
Proof.
  intros Hinj. induction 1 as [|x l Hx Hl IH]; simpl; [constructor|].
  destruct (f x) as [b|] eqn:E; [|done]. constructor; [|done].
  intros (y & Hy & Hfy)%list_elem_of_omap. by rewrite (Hinj _ _ _ E Hfy) in Hx.
Qed.

Lemma NoDup_dir_names fs d : NoDup (dir_names fs d).
Proof.
  unfold dir_names. rewrite merge_sort_Permutation.
  apply NoDup_omap_inj; [|apply NoDup_fst_map_to_list].
  intros x y b Hx%child_name_Some Hy%child_name_Some. congruence.
Qed.


Local Open Scope list_scope.

Lemma names_ok_app a b : names_ok (a ++ b) <-> names_ok a /\ names_ok b.
Proof. apply Forall_app. Qed.

Lemma names_ok_prefix a b : a `prefix_of` b -> names_ok b -> names_ok a.
Proof. intros [k ->] H. by apply names_ok_app in H as [? _]. Qed.

Lemma join_names_not_empty rel : names_ok rel -> rel <> [] -> join_slash rel <> "".
Proof.
  intros Hn Hne. destruct rel as [|x rel]; [done|]. inversion Hn; subst.
  pose proof (name_nonempty _ H1). destruct x; [done|].
  destruct rel; simpl; sapp; done.
Qed.

Lemma join_names_not_dot rel : names_ok rel -> rel <> [] -> join_slash rel <> ".".
Proof.
  intros Hn Hne. destruct rel as [|x rel]; [done|]. inversion Hn; subst.
  destruct rel as [|y rel].
  - change (join_slash [x]) with x. intros ->. done.
  - rewrite join_slash_cons. destruct x as [|c x]; [done|]. sapp.
    destruct x; sapp; done.
Qed.

Lemma copies_app t1 t2 : copies (t1 ++ t2) = (copies t1 ++ copies t2)%list.
Proof. unfold copies. apply omap_app. Qed.

(** * Copying a tree *)

Section TreeCopy.
Context (F0 : gmap location fnode) (srcPath dstPath : string).
Context (Src Dst : location).
Context (HresS : resolve srcPath = Src) (HresD : resolve dstPath = Dst).
Context (Hwf : wf_files F0).
Context (HSD : is_below Src Dst = false) (HDS : is_below Dst Src = false).

Local Abbreviation Inv := (Inv F0 Src Dst).
Local Abbreviation Copied := (Copied F0 Src Dst).
Local Abbreviation leaf_under := (leaf_under F0 Src).
Local Abbreviation walked := (walked F0 Src Dst).

Lemma src_apart rel :
is_below Dst (at_path Src rel) = false /\ is_below (at_path Src rel) Dst = false.
Proof.
split.
- apply not_true_iff_false. intros H.
  assert (is_below Src (at_path Src rel) = true) as HS
    by (apply is_below_at; eauto).
  destruct (is_below_total _ _ _ HS H); congruence.
- apply not_true_iff_false. intros H.
  assert (is_below Src (at_path Src rel) = true) as HS
    by (apply is_below_at; eauto).
  by rewrite (is_below_trans _ _ _ HS H) in HSD.
Qed.

Lemma inv_source w rel : Inv w -> files w !! at_path Src rel = F0 !! at_path Src rel.
Proof. intros HI. destruct (src_apart rel). by apply (inv_frame F0 Src Dst). Qed.

Lemma below_dst_cases l ns :
l.1 = Dst.1 -> l.2 `prefix_of` (Dst.2 ++ ns) ->
is_below l Dst = true
\/ exists rel, rel <> [] /\ rel `prefix_of` ns /\ l = at_path Dst rel.
Proof.
intros Hr Hp.
destruct (prefix_weak_total _ _ _ Hp (prefix_app_r Dst.2 Dst.2 ns (reflexivity _)))
  as [H|[rel Hrel]].
- left. unfold is_below. rewrite Hr, Bool.eqb_reflx. by apply bool_decide_eq_true.
- destruct rel as [|x rel].
  + left. rewrite app_nil_r in Hrel. unfold is_below.
    rewrite Hr, Bool.eqb_reflx, Hrel. by apply bool_decide_eq_true.
  + right. exists (x :: rel). split; [done|]. split.
    * rewrite Hrel in Hp. by apply prefix_app_inv in Hp.
    * destruct l as [r es]; simpl in *. unfold at_path. by subst.
Qed.

Lemma source_above_is_dir ns n rel node :
F0 !! at_path Src (ns ++ [n]) = Some node -> names_ok (ns ++ [n]) ->
rel <> [] -> rel `prefix_of` ns -> F0 !! at_path Src rel = Some Dir.
Proof.
intros Hkey Hnames Hne [k Hk]. subst ns.
assert (lookup_node F0 (at_path Src rel) = Some Dir) as Hl.
{ eapply (wf_above F0 Src.1 (Src.2 ++ rel) (k ++ [n])); [done| |by destruct k].
  unfold at_path in Hkey. simpl in Hkey. by rewrite <- !app_assoc in *. }
unfold lookup_node in Hl.
destruct rel as [|x rel _] using rev_ind; [done|].
rewrite is_anchor_name in Hl; [done|].
apply names_ok_app in Hnames as [Hn1 _].
apply names_ok_app in Hn1 as [Hn1 _].
by apply names_ok_app in Hn1 as [_ [? _]%Forall_cons].
Qed.

(** One leaf of the tree is copied to its place under the destination. *)
Lemma copy_one w path ns n data :
Inv w -> path <> "" -> resolve path = at_path Src (ns ++ [n]) ->
names_ok (ns ++ [n]) ->
F0 !! at_path Src (ns ++ [n]) = Some (File data) ->
exists w',
  copyFileFromLocalToLocal path
    (filepath_Join [dstPath; join_slash (ns ++ [n])]) w = Returned tt w'
  /\ Inv w'
  /\ files w' !! at_path Dst (ns ++ [n]) = Some (File data)
  /\ (forall l d, files w !! l = Some (File d) -> files w' !! l = Some (File d))
  /\ exists t,
       trace w' = (trace w ++ t)%list
       /\ copies t = [(at_path Src (ns ++ [n]), at_path Dst (ns ++ [n]))].
Proof.
intros HI Hpath Hres Hnames Hdata.
pose proof Hnames as [Hns Hn%Forall_cons]%names_ok_app. destruct Hn as [Hn _].
assert (Hrel : ns ++ [n] <> []) by by destruct ns.
assert (Hdst : resolve (filepath_Join [dstPath; join_slash (ns ++ [n])])
               = at_path Dst (ns ++ [n]))
  by (rewrite <- HresD; by apply Join_names).
assert (Hdir : resolve (filepath_Dir
                          (filepath_Join [dstPath; join_slash (ns ++ [n])]))
               = at_path Dst ns) by (rewrite <- HresD; by apply Dir_Join).
assert (Hanchor : forall a, is_anchor (at_path a (ns ++ [n])) = false)
  by (intros a; by apply is_anchor_name).
assert (Hparent : parent (at_path Dst (ns ++ [n])) = at_path Dst ns)
  by apply parent_at_path.
assert (Hlen : length ns < length (ns ++ [n]))
  by (rewrite length_app; simpl; lia).
remember (ns ++ [n]) as rel eqn:Erel.
remember (filepath_Join [dstPath; join_slash rel]) as dst eqn:Edst.
assert (Hsrcfile : files w !! resolve path = Some (File data))
  by by rewrite Hres, inv_source.
destruct (mkdir_all_Some Dst.1 (rev (Dst.2 ++ ns)) (files w)) as [fs1 Hmk].
{ intros l d Hr Hp. rewrite rev_involutive in Hp.
  destruct (below_dst_cases l ns Hr Hp) as [Hab|(rel' & Hne & Hpre & ->)].
  - unfold lookup_node. destruct (is_anchor l); [done|].
    intros Hl. by apply (inv_above F0 Src Dst w HI) in Hl.
  - unfold lookup_node. destruct (is_anchor _); [done|]. intros Hl.
    apply (inv_mirror F0 Src Dst w HI) in Hl as [_ Hl]; [|done].
    rewrite (source_above_is_dir ns n rel' (File data)) in Hl; try done.
    + by rewrite <- Erel.
    + by rewrite <- Erel. }
assert (Hnew : forall l node, fs1 !! l = Some node ->
          files w !! l = Some node
          \/ node = Dir /\ is_anchor l = false
             /\ (is_below l Dst = true
                 \/ exists rel', rel' <> [] /\ rel' `prefix_of` ns
                                 /\ l = at_path Dst rel')).
{ intros l node Hl.
  destruct (mkdir_all_new _ _ _ _ _ _ Hmk Hl) as [?|(-> & Hr & Hp & Ha)];
    [by left|right]. rewrite rev_involutive in Hp.
  split; [done|]. split; [done|]. by apply below_dst_cases. }
destruct (copyFileFromLocalToLocal_ok path dst w data fs1) as (w' & Hrun & Hfiles & Hfaults & _ & Htrace).
- apply HI.
- done.
- subst dst. by apply Join_not_empty, join_names_not_empty.
- done.
- by rewrite Hres.
- by rewrite Hdir.
- by eapply mkdir_all_keeps.
- rewrite Hdst. unfold lookup_node. rewrite Hanchor.
  intros Hl. destruct (Hnew _ _ Hl) as [Hold|(_ & _ & [Hab|(rel' & _ & Hpre & Heq)])].
  + apply (inv_mirror F0 Src Dst w HI) in Hold as [_ Hold]; [|done]. congruence.
  + apply is_below_at in Hab as [r Hr]. rewrite at_path_app in Hr.
    rewrite <- (at_path_nil Dst) in Hr at 1. apply at_path_inj in Hr.
    by destruct rel.
  + apply at_path_inj in Heq. subst rel'. apply prefix_length in Hpre. lia.
- rewrite Hdst, Hparent.
  pose proof (mkdir_all_made _ _ _ _ Hmk) as Hm.
  by rewrite rev_involutive in Hm.
- rewrite Hdst, Hres. intros Heq.
  destruct (src_apart rel) as [Hb _]. rewrite <- Heq in Hb.
  assert (is_below Dst (at_path Dst rel) = true) by (apply is_below_at; eauto).
  congruence.
- assert (Hframe1 : forall l, is_below Dst l = false -> is_below l Dst = false ->
                              fs1 !! l = files w !! l).
  { intros l H1 H2. destruct (fs1 !! l) as [node|] eqn:E.
    - destruct (Hnew _ _ E) as [?|(_ & _ & [Hab|(rel' & _ & _ & ->)])];
        [done|congruence|].
      assert (is_below Dst (at_path Dst rel') = true) by (apply is_below_at; eauto).
      congruence.
    - destruct (files w !! l) as [node|] eqn:E'; [|done].
      by rewrite (mkdir_all_keeps _ _ _ _ _ _ Hmk E') in E. }
  exists w'. split; [done|]. split; [|split; [|split]].
  + constructor.
    * intros o. rewrite Hfaults. apply HI.
    * intros l H1 H2. rewrite Hfiles, lookup_insert_ne.
      -- rewrite Hframe1 by done. by apply (inv_frame F0 Src Dst w HI).
      -- intros <-. rewrite Hdst in H1.
         assert (is_below Dst (at_path Dst rel) = true) by (apply is_below_at; eauto).
         congruence.
    * intros l node Hab Hl. rewrite Hfiles in Hl.
      rewrite lookup_insert_ne in Hl.
      -- destruct (Hnew _ _ Hl) as [?|(-> & _)]; [|done].
         by eapply (inv_above F0 Src Dst w HI).
      -- intros <-. rewrite Hdst in Hab.
         apply is_below_at in Hab as [r Hr]. rewrite at_path_app in Hr.
         rewrite <- (at_path_nil Dst) in Hr at 1. apply at_path_inj in Hr.
         by destruct rel.
    * intros rel' node Hne Hl. rewrite Hfiles in Hl.
      destruct (decide (rel' = rel)) as [->|Hneq].
      -- rewrite Hdst, lookup_insert_eq in Hl. by injection Hl as <-.
      -- rewrite lookup_insert_ne in Hl.
         2:{ rewrite Hdst. intros Heq. by apply at_path_inj in Heq. }
         destruct (Hnew _ _ Hl) as [?|(-> & _ & [Hab|(r & Hr & Hpre & Heq)])].
         ++ by apply (inv_mirror F0 Src Dst w HI).
         ++ apply is_below_at in Hab as [r Hr]. rewrite at_path_app in Hr.
            rewrite <- (at_path_nil Dst) in Hr at 1. apply at_path_inj in Hr.
            by destruct rel'.
         ++ apply at_path_inj in Heq. subst r. split.
            ** eapply names_ok_prefix; [|exact Hns]. done.
            ** eapply (source_above_is_dir ns n); try done.
               { rewrite <- Erel. exact Hdata. }
               by rewrite <- Erel.
  + by rewrite Hfiles, Hdst, lookup_insert_eq.
  + intros l d Hl. rewrite Hfiles.
    destruct (decide (l = resolve dst)) as [->|Hneq].
    * rewrite lookup_insert_eq. rewrite Hdst in Hl.
      apply (inv_mirror F0 Src Dst w HI) in Hl as [_ Hl]; [|done]. congruence.
    * rewrite lookup_insert_ne by done. by eapply mkdir_all_keeps.
  + eexists. split; [exact Htrace|]. simpl. by rewrite Hres, Hdst.
Qed.

Local Abbreviation fn := (copyFromLocalToLocal_walkFn srcPath dstPath).

Lemma Copied_trans r1 r2 w1 w2 w3 :
Copied r1 w1 w2 -> Copied r2 w2 w3 -> Copied (r1 ++ r2) w1 w3.
Proof.
intros (_ & Hk1 & Hc1 & t1 & Ht1 & Hp1) (HI & Hk2 & Hc2 & t2 & Ht2 & Hp2).
split; [done|]. split; [by eauto|]. split.
- intros r [Hr|Hr]%elem_of_app; [|by eauto].
  destruct (Hc1 r Hr) as (data & ? & ?). eauto.
- exists (t1 ++ t2). split; [by rewrite Ht2, Ht1, app_assoc|].
  by rewrite copies_app, Hp1, Hp2, fmap_app.
Qed.

Lemma Inv_add_trace o w : Inv w -> Inv (add_trace o w).
Proof. intros [? ? ? ?]. by constructor. Qed.

Lemma Copied_read o w :
Inv w -> copies [o] = [] -> Copied [] w (add_trace o w).
Proof.
intros HI Ho. split; [by apply Inv_add_trace|]. split; [done|].
split; [by intros r ?%elem_of_nil|]. by exists [o].
Qed.

Lemma Copied_refl w : Inv w -> Copied [] w w.
Proof.
intros HI. split; [done|]. split; [done|].
split; [by intros r ?%elem_of_nil|]. exists []. by rewrite app_nil_r.
Qed.

Lemma Rel_at path rel :
resolve path = at_path Src rel ->
filepath_Rel srcPath path
= inl (match rel with [] => "." | _ => join_slash rel end).
Proof. intros H. apply Rel_below. by rewrite HresS. Qed.

Lemma walkFn_dir w path rel :
resolve path = at_path Src rel ->
fn path (Some {| IsDir := true |}) None w = Returned None w.
Proof.
intros Hres. unfold copyFromLocalToLocal_walkFn.
rewrite (Rel_at _ _ Hres). unfold_monad. simpl.
by rewrite andb_false_r.
Qed.

Lemma walkFn_file w path ns n data :
Inv w -> path <> "" -> resolve path = at_path Src (ns ++ [n]) ->
names_ok (ns ++ [n]) -> F0 !! at_path Src (ns ++ [n]) = Some (File data) ->
exists w',
  fn path (Some (info_of (File data))) None w = Returned None w'
  /\ Copied [ns ++ [n]] w w'.
Proof.
intros HI Hp Hres Hnames Hdata.
destruct (copy_one w path ns n data)
  as (w' & Hrun & HI' & Hd & Hk & t & Ht & Hc); try done.
exists w'. split.
- unfold copyFromLocalToLocal_walkFn. rewrite (Rel_at _ _ Hres).
  assert (ns ++ [n] <> []) as Hne by by destruct ns.
  assert (match ns ++ [n] with [] => "." | _ => join_slash (ns ++ [n]) end
          = join_slash (ns ++ [n])) as -> by by destruct ns.
  erewrite bind_Returned; [|reflexivity].
  erewrite bind_Returned; [|reflexivity].
  assert (String.eqb (join_slash (ns ++ [n])) "." = false) as ->
    by by apply String.eqb_neq, join_names_not_dot.
  cbn [negb andb info_IsDir info_of IsDir].
  erewrite bind_Returned; [|exact Hrun]. done.
- split; [done|]. split; [done|]. split.
  + intros r ->%list_elem_of_singleton. eauto.
  + exists t. by split.
Qed.
Lemma lookup_node_source w rel :
Inv w -> lookup_node (files w) (at_path Src rel) = lookup_node F0 (at_path Src rel).
Proof.
intros HI. unfold lookup_node.
by rewrite (inv_source w rel HI).
Qed.

Lemma child_is_name rel n :
is_Some (F0 !! at_path Src (rel ++ [n])) -> is_name n = true.
Proof.
intros [node Hn]. destruct (wf_name _ _ _ Hwf Hn) as (es & x & Hes & Hx).
unfold at_path in Hes. simpl in Hes. rewrite app_assoc in Hes.
by apply app_inj_tail in Hes as [_ ->].
Qed.

Lemma leaf_under_file rel data r :
F0 !! at_path Src rel = Some (File data) -> leaf_under rel r -> r = rel.
Proof.
intros Hf ([k ->] & Hn & data' & Hr).
destruct k as [|x k]; [by rewrite app_nil_r|]. exfalso.
assert (lookup_node F0 (at_path Src rel) = Some Dir) as Hl.
{ apply (wf_above F0 Src.1 (Src.2 ++ rel) (x :: k) (File data')); [done| |done].
  unfold at_path in Hr. simpl in Hr. by rewrite <- app_assoc. }
unfold lookup_node in Hl. destruct (Hwf _ _ Hf) as (_ & Ha & _).
rewrite Ha in Hl. congruence.
Qed.

Lemma leaf_under_dir rel r :
lookup_node F0 (at_path Src rel) = Some Dir -> leaf_under rel r ->
exists n, is_Some (F0 !! at_path Src (rel ++ [n])) /\ leaf_under (rel ++ [n]) r.
Proof.
intros Hd ([k ->] & Hn & data & Hr). destruct k as [|x k].
- exfalso. rewrite app_nil_r in Hr. unfold lookup_node in Hd.
  destruct (Hwf _ _ Hr) as (_ & Ha & _). rewrite Ha in Hd. congruence.
- exists x. split.
  + destruct k as [|y k].
    * eauto.
    * assert (lookup_node F0 (at_path Src (rel ++ [x])) = Some Dir) as Hl.
      { apply (wf_above F0 Src.1 (Src.2 ++ rel ++ [x]) (y :: k) (File data));
          [done| |done].
        unfold at_path in Hr. simpl in Hr. by rewrite <- !app_assoc. }
      unfold lookup_node in Hl. rewrite is_anchor_name in Hl; [eauto|].
      apply names_ok_app in Hn as [_ Hn]. by inversion Hn.
  + split; [|split; [done|eauto]]. exists k. by rewrite <- app_assoc.
Qed.

Lemma leaf_under_child rel n r : leaf_under (rel ++ [n]) r -> leaf_under rel r.
Proof.
intros (Hp & ? & ?). split; [|done]. etrans; [|exact Hp]. by apply prefix_app_r.
Qed.

Lemma prefix_child_inj (rel : list string) n1 n2 r :
(rel ++ [n1]) `prefix_of` r -> (rel ++ [n2]) `prefix_of` r -> n1 = n2.
Proof.
intros [k1 ->] [k2 H]. rewrite <- !app_assoc in H.
apply app_inv_head in H. by injection H.
Qed.

Lemma walk_names_tree walk_rec path rel :
path <> "" -> resolve path = at_path Src rel -> names_ok rel ->
(forall n filename node w,
   F0 !! at_path Src (rel ++ [n]) = Some node -> Inv w ->
   filename <> "" -> resolve filename = at_path Src (rel ++ [n]) ->
   walked (rel ++ [n]) w (walk_rec filename (info_of node) fn w)) ->
forall names w,
  (forall n, n ∈ names -> is_Some (F0 !! at_path Src (rel ++ [n]))) ->
  NoDup names -> Inv w ->
  exists w' rels,
    walk_names walk_rec path fn names w = Returned None w'
    /\ Copied rels w w' /\ NoDup rels
    /\ forall r, r ∈ rels <-> exists n, n ∈ names /\ leaf_under (rel ++ [n]) r.
Proof.
intros Hpath Hres Hrel Hrec names.
induction names as [|n names IH]; intros w Hnames Hnd HI.
{ exists w, []. split; [done|]. split; [by apply Copied_refl|].
  split; [constructor|]. intros r. split; [by intros ?%elem_of_nil|].
  by intros (n & ?%elem_of_nil & _). }
destruct (Hnames n) as [node Hnode]; [by left|].
assert (Hn : is_name n = true) by (apply (child_is_name rel); eauto).
set (filename := filepath_Join [path; n]).
assert (Hfres : resolve filename = at_path Src (rel ++ [n])).
{ unfold filename. rewrite Join_name by done. rewrite Hres.
  unfold at_path. simpl. by rewrite app_assoc. }
assert (Hfne : filename <> "")
  by (apply Join_not_empty; by apply name_nonempty).
cbn [walk_names]. fold filename.
erewrite bind_Returned.
2:{ apply (os_Lstat_ok filename w node); [apply HI|done|].
    rewrite Hfres, lookup_node_source by done.
    unfold lookup_node. by rewrite is_anchor_name. }
destruct (Hrec n filename node (add_trace (Lstat filename) w))
  as (w1 & rels1 & Hrun1 & Hc1 & Hnd1 & Hin1);
  [done|by apply Inv_add_trace|done|done|].
erewrite bind_Returned; [|exact Hrun1].
apply NoDup_cons in Hnd as [Hnotin Hnd'].
destruct (IH w1) as (w2 & rels2 & Hrun2 & Hc2 & Hnd2 & Hin2).
{ intros n' Hn'. apply Hnames. by right. }
{ done. }
{ apply Hc1. }
exists w2, (rels1 ++ rels2). split; [done|]. split.
- change (rels1 ++ rels2) with ([] ++ (rels1 ++ rels2)).
  eapply Copied_trans; [apply (Copied_read (Lstat filename)); done|].
  eapply Copied_trans; eassumption.
- split.
  + apply NoDup_app. split; [done|]. split; [|done].
    intros r Hr1 Hr2. apply Hin1 in Hr1 as [Hp1 _].
    apply Hin2 in Hr2 as (n' & Hn' & Hp2 & _).
    rewrite (prefix_child_inj _ _ _ _ Hp1 Hp2) in Hnotin. done.
  + intros r. rewrite elem_of_app, Hin1, Hin2. split.
    * intros [H|(n' & Hn' & H)]; [exists n | exists n']; split; eauto;
        [by left | by right].
    * intros (n' & [->|Hn']%elem_of_cons & H); [by left | right; eauto].
Qed.

Lemma walk_tree fuel : forall rel path node w,
Inv w -> path <> "" -> resolve path = at_path Src rel -> names_ok rel ->
lookup_node F0 (at_path Src rel) = Some node ->
(forall data, node = File data -> rel <> []) ->
(forall r, is_Some (F0 !! at_path Src (rel ++ r)) -> length r < fuel) ->
0 < fuel ->
walked rel w (walk fuel path (info_of node) fn w).
Proof.
induction fuel as [|fuel IH]; intros rel path node w HI Hpath Hres Hrel Hnode
  Hfile Hdepth Hpos; [lia|].
cbn [walk]. destruct node as [data|]; cbn [info_of IsDir negb].
- (* a regular file *)
  assert (Hkey : F0 !! at_path Src rel = Some (File data)).
  { unfold lookup_node in Hnode. by destruct (is_anchor _). }
  destruct rel as [|n ns _] using rev_ind; [by destruct (Hfile data)|].
  destruct (walkFn_file w path ns n data)
    as (w' & Hrun & Hc); try done.
  exists w', [ns ++ [n]]. split; [done|]. split; [done|].
  split; [apply NoDup_singleton|]. intros r. rewrite list_elem_of_singleton.
  split.
  + intros ->. split; [done|]. split; [done|]. eauto.
  + by apply (leaf_under_file _ data).
- (* a directory *)
  erewrite bind_Returned.
  2:{ apply (readDirNames_ok path w); [apply HI|done|].
      by rewrite Hres, lookup_node_source. }
  cbn beta iota.
  erewrite bind_Returned; [|by eapply walkFn_dir].
  set (w1 := add_trace (ReadDir path) w).
  assert (HI1 : Inv w1) by by apply Inv_add_trace.
  destruct (walk_names_tree (walk fuel) path rel Hpath Hres Hrel)
    with (names := dir_names (files w) (resolve path)) (w := w1)
    as (w' & rels & Hrun & Hc & Hnd & Hin).
  + intros n filename node w2 Hn HI2 Hfne Hfres.
    apply IH; try done.
    * apply names_ok_app. split; [done|]. constructor; [|done].
      apply (child_is_name rel). eauto.
    * unfold lookup_node. rewrite is_anchor_name; [done|].
      apply (child_is_name rel). eauto.
    * intros _ _. by destruct rel.
    * intros r Hr. rewrite <- app_assoc in Hr. apply Hdepth in Hr.
      simpl in Hr. lia.
    * assert (length [n] < 1 + fuel) as Hl; [|simpl in Hl; lia].
      apply Hdepth. eauto.
  + intros n Hn. apply elem_of_dir_names in Hn. rewrite Hres in Hn.
    rewrite at_path_app in Hn.
    by rewrite (inv_source w _ HI) in Hn.
  + apply NoDup_dir_names.
  + done.
  + exists w', rels. split; [done|]. split.
    * change rels with ([] ++ rels).
      eapply Copied_trans; [apply (Copied_read (ReadDir path)); done|done].
    * split; [done|]. intros r. rewrite Hin. split.
      -- intros (n & _ & H). by eapply leaf_under_child.
      -- intros H. destruct (leaf_under_dir rel r Hnode H) as (n & Hn & Hl).
         exists n. split; [|done]. apply elem_of_dir_names.
         rewrite Hres, at_path_app.
         by rewrite (inv_source w _ HI).
Qed.
End TreeCopy.


Lemma Inv_initial w src dst :
  quiet w -> fresh_under (files w) dst -> Inv (files w) src dst w.
Proof.
  intros Hq Hfresh. split; [done|done| |].
  - intros l n Hb Hl. by destruct (Hfresh _ _ Hl) as [_ ->].
  - intros rel n _ Hl. destruct (Hfresh _ _ Hl) as [Hb _].
    assert (is_below dst (at_path dst rel) = true) by (apply is_below_at; eauto).
    congruence.
Qed.

Lemma new_ops_app w w' t : trace w' = trace w ++ t -> new_ops w w' = t.
Proof. intros H. unfold new_ops. by rewrite H, drop_app_length. Qed.





(** * Running the same copy twice *)

(** ** The order of the names *)

Lemma ascii_compare_refl c : Ascii.compare c c = Eq.
Proof. unfold Ascii.compare. apply N.compare_refl. Qed.

Lemma ascii_compare_lt_trans a b c :
  Ascii.compare a b = Lt -> Ascii.compare b c = Lt -> Ascii.compare a c = Lt.
Proof.
  unfold Ascii.compare. rewrite !N.compare_lt_iff. apply N.lt_trans.
Qed.

Lemma string_compare_trans a : forall b c,
  String.compare a b <> Gt -> String.compare b c <> Gt -> String.compare a c <> Gt.
Proof.
  induction a as [|x a IH]; intros [|y b] [|z c]; simpl; try congruence.
  destruct (Ascii.compare x y) eqn:E1; [| |congruence];
    destruct (Ascii.compare y z) eqn:E2; try congruence.
  - apply Ascii.compare_eq_iff in E1, E2. subst.
    rewrite ascii_compare_refl. apply IH.
  - apply Ascii.compare_eq_iff in E1. subst. by rewrite E2.
  - apply Ascii.compare_eq_iff in E2. subst. by rewrite E1.
  - by rewrite (ascii_compare_lt_trans _ _ _ E1 E2).
Qed.

Lemma leb_not_Gt a b : String.leb a b = true <-> String.compare a b <> Gt.
Proof. unfold String.leb. destruct (String.compare a b); split; congruence. Qed.

#[global] Instance string_le_trans : Transitive string_le.
Proof.
  intros a b c. unfold string_le. rewrite !leb_not_Gt.
  apply string_compare_trans.
Qed.

#[global] Instance string_le_antisym : AntiSymm eq string_le.
Proof. intros a b. apply String.leb_antisym. Qed.

#[global] Instance string_le_total : Total string_le.
Proof. intros a b. apply String.leb_total. Qed.

Lemma sorted_names_unique (l1 l2 : list string) :
  NoDup l1 -> NoDup l2 -> (forall x, x ∈ l1 <-> x ∈ l2) ->
  merge_sort string_le l1 = merge_sort string_le l2.
Proof.
  intros H1 H2 H. apply (Sorted_unique string_le).
  - apply Sorted_merge_sort, _.
  - apply Sorted_merge_sort, _.
  - rewrite !merge_sort_Permutation. by apply NoDup_Permutation.
Qed.

Lemma dir_names_ext fs1 fs2 d :
  (forall n, is_Some (fs1 !! at_path d [n]) <-> is_Some (fs2 !! at_path d [n])) ->
  dir_names fs1 d = dir_names fs2 d.
Proof.
  intros H. unfold dir_names. apply sorted_names_unique.
  - pose proof (NoDup_dir_names fs1 d) as Hn. unfold dir_names in Hn.
    by rewrite merge_sort_Permutation in Hn.
  - pose proof (NoDup_dir_names fs2 d) as Hn. unfold dir_names in Hn.
    by rewrite merge_sort_Permutation in Hn.
  - intros n. pose proof (elem_of_dir_names fs1 d n) as E1.
    pose proof (elem_of_dir_names fs2 d n) as E2. unfold dir_names in E1, E2.
    rewrite merge_sort_Permutation in E1, E2. by rewrite E1, E2.
Qed.

Lemma listed_Some b pre k n : listed b pre k = Some n <->
  k = (b, n) /\ String.prefix pre n = true.
Proof.
  unfold listed, strings_HasPrefix. destruct k as [kb kn]; simpl.
  destruct (String.eqb_spec kb b) as [->|Hne]; simpl.
  - destruct (String.prefix pre kn) eqn:E; split.
    + intros [= <-]. done.
    + intros [[= ->] _]. done.
    + done.
    + intros [[= ->] ?]. congruence.
  - split; [done|]. intros [[= ? ?] _]. done.
Qed.

Lemma listing_ext (o1 o2 : gmap (string * string) bytes) b pre :
  (forall n, String.prefix pre n = true ->
             (is_Some (o1 !! (b, n)) <-> is_Some (o2 !! (b, n)))) ->
  merge_sort string_le (omap (listed b pre) (map_to_list o1).*1)
  = merge_sort string_le (omap (listed b pre) (map_to_list o2).*1).
Proof.
  intros H.
  assert (Hel : forall (o : gmap (string * string) bytes) n,
            n ∈ omap (listed b pre) (map_to_list o).*1
            <-> String.prefix pre n = true /\ is_Some (o !! (b, n))).
  { intros o n. rewrite list_elem_of_omap. split.
    - intros (k & Hk & [-> Hp]%listed_Some). split; [done|].
      apply list_elem_of_fmap in Hk as ([k v] & Hkv & Hin). simpl in Hkv. subst k.
      apply elem_of_map_to_list in Hin. by exists v.
    - intros [Hp [v Hv]]. exists (b, n). split; [|by apply listed_Some].
      apply list_elem_of_fmap. exists ((b, n), v). split; [done|].
      by apply elem_of_map_to_list. }
  assert (Hnd : forall (o : gmap (string * string) bytes),
            NoDup (omap (listed b pre) (map_to_list o).*1)).
  { intros o. apply NoDup_omap_inj; [|apply NoDup_fst_map_to_list].
    intros x y n [-> _]%listed_Some [-> _]%listed_Some. done. }
  apply sorted_names_unique; [apply Hnd..|].
  intros n. rewrite !Hel. split; intros [Hp Hs]; (split; [done|]); by apply (H n Hp).
Qed.


(** ** Every step keeps the kinds *)

Lemma kinds_kept_refl f : kinds_kept f f.
Proof. intros l n H. eauto. Qed.

Lemma kinds_kept_trans f1 f2 f3 :
  kinds_kept f1 f2 -> kinds_kept f2 f3 -> kinds_kept f1 f3.
Proof.
  intros H1 H2 l n Hl. destruct (H1 l n Hl) as (n1 & Hl1 & E1).
  destruct (H2 l n1 Hl1) as (n2 & Hl2 & E2). exists n2. split; [done|congruence].
Qed.

Lemma grows_refl w : grows w w.
Proof. split; [exists []; by rewrite app_nil_r | apply kinds_kept_refl]. Qed.

Lemma grows_trans w1 w2 w3 : grows w1 w2 -> grows w2 w3 -> grows w1 w3.
Proof.
  intros [[t1 H1] K1] [[t2 H2] K2]. split.
  - exists (t1 ++ t2). by rewrite H2, H1, app_assoc.
  - by eapply kinds_kept_trans.
Qed.

Lemma grows_log e w : grows w (add_log e w).
Proof. split; [exists []; simpl; by rewrite app_nil_r | apply kinds_kept_refl]. Qed.

Lemma grows_one o w w' :
  trace w' = trace w ++ [o] -> kinds_kept (files w) (files w') -> grows w w'.
Proof. intros Ht Hk. split; [by exists [o] | done]. Qed.

Lemma grows_read o w : grows w (add_trace o w).
Proof. apply (grows_one o); [done | apply kinds_kept_refl]. Qed.

Lemma grows_fds o d w : grows w (set_fds d (add_trace o w)).
Proof. apply (grows_one o); [done | apply kinds_kept_refl]. Qed.

Lemma grows_objects o d w : grows w (set_objects d (add_trace o w)).
Proof. apply (grows_one o); [done | apply kinds_kept_refl]. Qed.

Lemma kinds_kept_insert_file fs l data :
  (forall n, fs !! l = Some n -> IsDir (info_of n) = false) ->
  kinds_kept fs (<[l := File data]> fs).
Proof.
  intros H l' n Hl'. destruct (decide (l' = l)) as [->|Hne].
  - rewrite lookup_insert_eq. eexists. split; [done|]. simpl. symmetry. by apply H.
  - rewrite lookup_insert_ne by done. eauto.
Qed.

Ltac grows_prim :=
  run_prim;
  first [ apply grows_refl | apply grows_read | apply grows_fds
        | apply grows_objects | idtac ].

Lemma grows_Stat p : stable grows (os_Stat p).
Proof. unfold os_Stat. grows_prim. Qed.
Lemma grows_Lstat p : stable grows (os_Lstat p).
Proof. unfold os_Lstat. grows_prim. Qed.
Lemma grows_ReadDir p : stable grows (readDirNames p).
Proof. unfold readDirNames. grows_prim. Qed.
Lemma grows_Open p : stable grows (os_Open p).
Proof. unfold os_Open. grows_prim. Qed.

Lemma grows_MkdirAll p : stable grows (os_MkdirAll p).
Proof.
  unfold os_MkdirAll. grows_prim.
  apply (grows_one (MkdirAll p)); [done|]. world_simpl.
  intros l n Hl. exists n. split; [|done]. by eapply mkdir_all_keeps.
Qed.

Lemma grows_OpenFile p : stable grows (os_OpenFile p).
Proof.
  unfold os_OpenFile. grows_prim.
  all: apply (grows_one (Create p)); [done|]; world_simpl;
    apply kinds_kept_insert_file; intros n Hn;
    unfold lookup_node in *; destruct (is_anchor (resolve p)); [done|];
    destruct n; [done|congruence].
Qed.

Lemma grows_Close fd : stable grows (file_Close fd).
Proof. unfold file_Close. grows_prim. Qed.
Lemma grows_Sync fd : stable grows (file_Sync fd).
Proof. unfold file_Sync. grows_prim. Qed.
Lemma grows_NewClient : stable grows storage_NewClient.
Proof. unfold storage_NewClient. grows_prim. Qed.
Lemma grows_client_Close : stable grows client_Close.
Proof. unfold client_Close. grows_prim. Qed.
Lemma grows_list b pre : stable grows (list_objects b pre).
Proof. unfold list_objects. grows_prim. Qed.
Lemma grows_NewReader b n : stable grows (object_NewReader b n).
Proof. unfold object_NewReader. grows_prim. Qed.
Lemma grows_reader_Close b n : stable grows (reader_Close b n).
Proof. unfold reader_Close. grows_prim. Qed.
Lemma grows_writer_Close b n buf : stable grows (writer_Close b n buf).
Proof. unfold writer_Close. grows_prim. Qed.
Lemma grows_copier_Run sb sn db dn : stable grows (copier_Run sb sn db dn).
Proof. unfold copier_Run. grows_prim. Qed.

Lemma grows_io_Copy dst src : stable grows (io_Copy dst src).
Proof.
  unfold io_Copy, write_all, writer_endpoint. grows_prim.
  eapply grows_one; [done|]. world_simpl.
  apply kinds_kept_insert_file. intros n Hn. by simplify_eq.
Qed.


(** ** The second run follows the first *)

Ltac performs_prim :=
  intros w a w'; unfold_monad; world_simpl; intros;
  repeat case_match; by simplify_eq/=.

Lemma performs_Stat p : performs (Stat p) (os_Stat p).
Proof. unfold os_Stat. performs_prim. Qed.
Lemma performs_Lstat p : performs (Lstat p) (os_Lstat p).
Proof. unfold os_Lstat. performs_prim. Qed.
Lemma performs_ReadDir p : performs (ReadDir p) (readDirNames p).
Proof. unfold readDirNames. performs_prim. Qed.
Lemma performs_Open p : performs (Open p) (os_Open p).
Proof. unfold os_Open. performs_prim. Qed.
Lemma performs_list b pre : performs (ListObjects b pre) (list_objects b pre).
Proof. unfold list_objects. performs_prim. Qed.
Lemma performs_NewReader b n : performs (NewReader b n) (object_NewReader b n).
Proof. unfold object_NewReader. performs_prim. Qed.
Lemma performs_copier_Run sb sn db dn :
  performs (ServerCopy sb sn db dn) (copier_Run sb sn db dn).
Proof. unfold copier_Run. performs_prim. Qed.

Lemma is_dir_kind n : IsDir (info_of n) = true -> n = Dir.
Proof. by destruct n. Qed.

Lemma is_file_kind n : IsDir (info_of n) = false -> exists data, n = File data.
Proof. destruct n; [eauto|done]. Qed.

Lemma ok_one FW OW o w w' :
  trace w' = trace w ++ [o] -> ok_ops FW OW w w' -> reads_apart FW OW o = true.
Proof.
  intros Ht Hok. unfold ok_ops, new_ops in Hok.
  rewrite Ht, drop_app_length in Hok. by inversion Hok.
Qed.

Lemma ok_ops_split FW OW w w1 w2 :
  grows w w1 -> grows w1 w2 -> ok_ops FW OW w w2 ->
  ok_ops FW OW w w1 /\ ok_ops FW OW w1 w2.
Proof.
  intros [[t1 H1] _] [[t2 H2] _]. unfold ok_ops, new_ops.
  rewrite H2, H1, <- app_assoc, !drop_app_length.
  rewrite (app_assoc (trace w) t1 t2), drop_app_length. apply Forall_app.
Qed.

Section TwoRuns.
Context (FW : list location) (OW : list (string * string)).
Context (EF : gmap location fnode) (EO : gmap (string * string) bytes).

Local Abbreviation Rel := (Rel FW OW EF EO).
Local Abbreviation ok_ops := (ok_ops FW OW).
Local Abbreviation files_follow := (files_follow FW EF).
Local Abbreviation sim_on := (sim_on FW OW EF EO).
Local Abbreviation Sim_on := (Sim_on FW OW EF EO).
Local Abbreviation sim := (sim_on (fun _ => True)).
Local Abbreviation Sim := (Sim_on (fun _ => True)).

Lemma follow_apart d fw fv l :
files_follow d fw fv -> l ∉ FW -> fv !! l = fw !! l.
Proof. intros H Hl. destruct (H l) as [?|[? _]]; done. Qed.

Lemma follow_node d fw fv l :
files_follow d fw fv -> l ∉ FW -> lookup_node fv l = lookup_node fw l.
Proof. intros H Hl. unfold lookup_node. by rewrite (follow_apart d fw fv l). Qed.

Lemma follow_open d fw fv fd l :
files_follow d fw fv -> d !! fd = Some l -> fv !! l = fw !! l.
Proof. intros H Hl. destruct (H l) as [?|(_ & _ & Hn)]; [done|]. by destruct (Hn fd). Qed.

Lemma Rel_add_trace o w v : Rel w v -> Rel (add_trace o w) (add_trace o v).
Proof. intros [? ? ? ? ?]. by constructor. Qed.

Lemma Rel_add_log e w v : Rel w v -> Rel (add_log e w) (add_log e v).
Proof. intros [? ? ? ? ?]. by constructor. Qed.

(** *** Operations that only look *)

Lemma sim_Stat p : sim (os_Stat p).
Proof.
intros w v a w' Hrun _ HR Hok _.
pose proof (ok_one _ _ _ _ _ (performs_Stat _ _ _ _ Hrun) Hok) as Ho.
simpl in Ho. apply bool_decide_eq_true in Ho.
destruct HR as [Hfa Hfd Hkv Hfi Hob].
revert Hrun. unfold os_Stat. unfold_monad. world_simpl.
rewrite Hfa, (follow_node _ _ _ _ Hfi Ho). intros Hrun.
repeat case_match; simplify_eq; (eexists; split; [done|by constructor]).
Qed.

Lemma sim_Lstat p : sim (os_Lstat p).
Proof.
intros w v a w' Hrun _ HR Hok _.
pose proof (ok_one _ _ _ _ _ (performs_Lstat _ _ _ _ Hrun) Hok) as Ho.
simpl in Ho. apply bool_decide_eq_true in Ho.
destruct HR as [Hfa Hfd Hkv Hfi Hob].
revert Hrun. unfold os_Lstat. unfold_monad. world_simpl.
rewrite Hfa, (follow_node _ _ _ _ Hfi Ho). intros Hrun.
repeat case_match; simplify_eq; (eexists; split; [done|by constructor]).
Qed.

Lemma sim_ReadDir p : sim (readDirNames p).
Proof.
intros w v a w' Hrun _ HR Hok _.
pose proof (ok_one _ _ _ _ _ (performs_ReadDir _ _ _ _ Hrun) Hok) as Ho.
simpl in Ho. apply andb_true_iff in Ho as [Ho Hch].
apply bool_decide_eq_true in Ho. rewrite forallb_forall in Hch.
destruct HR as [Hfa Hfd Hkv Hfi Hob].
assert (Hnames : dir_names (files v) (resolve p) = dir_names (files w) (resolve p)).
{ apply dir_names_ext. intros n.
  rewrite (follow_apart _ _ _ (at_path (resolve p) [n]) Hfi); [done|].
  intros Hin. apply list_elem_of_In, Hch, bool_decide_eq_true in Hin.
  assert (child_name (resolve p) (at_path (resolve p) [n]) = Some n)
    by by apply child_name_Some.
  congruence. }
revert Hrun. unfold readDirNames. unfold_monad. world_simpl.
rewrite Hfa, (follow_node _ _ _ _ Hfi Ho), Hnames. intros Hrun.
repeat case_match; simplify_eq; (eexists; split; [done|by constructor]).
Qed.

Lemma follow_insert_fd d fw fv fd l :
files_follow d fw fv -> fv !! l = fw !! l ->
files_follow (<[fd := l]> d) fw fv.
Proof.
intros H Hl l'. destruct (H l') as [?|(Hin & ? & Hn)]; [by left|].
destruct (decide (l' = l)) as [->|Hne]; [by left|right].
split; [done|]. split; [done|]. intros fd'.
destruct (decide (fd' = fd)) as [->|].
- rewrite lookup_insert_eq. congruence.
- by rewrite lookup_insert_ne.
Qed.

Lemma follow_delete_fd d fw fv fd :
files_follow d fw fv -> files_follow (delete fd d) fw fv.
Proof.
intros H l. destruct (H l) as [?|(Hin & ? & Hn)]; [by left|right].
split; [done|]. split; [done|]. intros fd' Hfd'.
apply lookup_delete_Some in Hfd' as [_ Hfd']. by destruct (Hn fd').
Qed.

Lemma sim_Open p : sim (os_Open p).
Proof.
intros w v a w' Hrun _ HR Hok _.
pose proof (ok_one _ _ _ _ _ (performs_Open _ _ _ _ Hrun) Hok) as Ho.
simpl in Ho. apply bool_decide_eq_true in Ho.
destruct HR as [Hfa Hfd Hkv Hfi Hob].
revert Hrun. unfold os_Open. unfold_monad. world_simpl.
rewrite Hfa, Hfd, (follow_node _ _ _ _ Hfi Ho). intros Hrun.
repeat case_match; simplify_eq; (eexists; split; [done|]);
  constructor; world_simpl; try done.
apply follow_insert_fd; [done|]. by apply (follow_apart (fds w)).
Qed.

Ltac sim_plain :=
intros w v a w' Hrun _ [Hfa Hfd Hkv Hfi Hob] _ _; revert Hrun;
unfold_monad; world_simpl; rewrite ?Hfa, ?Hfd; intros Hrun;
repeat case_match; simplify_eq; (eexists; split; [done|]);
constructor; world_simpl; try done.

Lemma sim_Close fd : sim (file_Close fd).
Proof. unfold file_Close. sim_plain; by apply follow_delete_fd. Qed.
Lemma sim_Sync fd : sim (file_Sync fd).
Proof. unfold file_Sync. sim_plain. Qed.
Lemma sim_NewClient : sim storage_NewClient.
Proof. unfold storage_NewClient. sim_plain. Qed.
Lemma sim_client_Close : sim client_Close.
Proof. unfold client_Close. sim_plain. Qed.
Lemma sim_reader_Close b n : sim (reader_Close b n).
Proof. unfold reader_Close. sim_plain. Qed.

(** *** The object store *)

Lemma sim_list b pre : sim (list_objects b pre).
Proof.
intros w v a w' Hrun _ HR Hok _.
pose proof (ok_one _ _ _ _ _ (performs_list _ _ _ _ _ Hrun) Hok) as Ho.
simpl in Ho. rewrite forallb_forall in Ho.
destruct HR as [Hfa Hfd Hkv Hfi Hob].
assert (Hnames :
  merge_sort string_le (omap (listed b pre) (map_to_list (objects v)).*1)
  = merge_sort string_le (omap (listed b pre) (map_to_list (objects w)).*1)).
{ apply listing_ext. intros n Hp.
  destruct (Hob (b, n)) as [->|[Hin _]]; [done|].
  apply list_elem_of_In, Ho, bool_decide_eq_true in Hin.
  assert (listed b pre (b, n) = Some n) by by apply listed_Some.
  congruence. }
revert Hrun. unfold list_objects. unfold_monad. world_simpl.
rewrite Hfa, Hnames. intros Hrun.
repeat case_match; simplify_eq; (eexists; split; [done|by constructor]).
Qed.

Lemma sim_NewReader b n : sim (object_NewReader b n).
Proof.
intros w v a w' Hrun _ HR Hok _.
pose proof (ok_one _ _ _ _ _ (performs_NewReader _ _ _ _ _ Hrun) Hok) as Ho.
simpl in Ho. apply bool_decide_eq_true in Ho.
destruct HR as [Hfa Hfd Hkv Hfi Hob].
assert (Hk : objects v !! (b, n) = objects w !! (b, n))
  by (destruct (Hob (b, n)) as [?|[? _]]; done).
revert Hrun. unfold object_NewReader. unfold_monad. world_simpl.
rewrite Hfa, Hk. intros Hrun.
repeat case_match; simplify_eq; (eexists; split; [done|by constructor]).
Qed.

Lemma objects_follow_insert (ow ov : gmap (string * string) bytes) k data :
(forall k', ov !! k' = ow !! k' \/ (k' ∈ OW /\ ov !! k' = EO !! k')) ->
forall k', <[k := data]> ov !! k' = <[k := data]> ow !! k'
           \/ (k' ∈ OW /\ <[k := data]> ov !! k' = EO !! k').
Proof.
intros H k'. destruct (decide (k' = k)) as [->|Hne].
- left. by rewrite !lookup_insert_eq.
- rewrite !lookup_insert_ne by done. apply H.
Qed.

Lemma sim_writer_Close b n buf : sim (writer_Close b n buf).
Proof. unfold writer_Close. sim_plain. by apply objects_follow_insert. Qed.

Lemma sim_copier_Run sb sn db dn : sim (copier_Run sb sn db dn).
Proof.
intros w v a w' Hrun _ HR Hok _.
pose proof (ok_one _ _ _ _ _ (performs_copier_Run _ _ _ _ _ _ _ Hrun) Hok) as Ho.
simpl in Ho. apply bool_decide_eq_true in Ho.
destruct HR as [Hfa Hfd Hkv Hfi Hob].
assert (Hk : objects v !! (sb, sn) = objects w !! (sb, sn))
  by (destruct (Hob (sb, sn)) as [?|[? _]]; done).
revert Hrun. unfold copier_Run. unfold_monad. world_simpl.
rewrite Hfa, Hk. intros Hrun.
repeat case_match; simplify_eq; (eexists; split; [done|]);
  constructor; world_simpl; try done.
by apply objects_follow_insert.
Qed.

(** *** Operations that write files *)

Lemma follow_insert d fw fv l n :
files_follow d fw fv -> files_follow d (<[l := n]> fw) (<[l := n]> fv).
Proof.
intros H l'. destruct (decide (l' = l)) as [->|Hne].
- left. by rewrite !lookup_insert_eq.
- rewrite !lookup_insert_ne by done. apply H.
Qed.

Lemma kinds_kept_insert (fv : gmap location fnode) l n :
kinds_kept EF fv ->
(forall n', EF !! l = Some n' -> IsDir (info_of n) = IsDir (info_of n')) ->
kinds_kept EF (<[l := n]> fv).
Proof.
intros H Hl l' n' Hl'. destruct (decide (l' = l)) as [->|Hne].
- rewrite lookup_insert_eq. exists n. split; [done|]. by apply Hl.
- rewrite lookup_insert_ne by done. by apply H.
Qed.

Lemma anchor_nil r : is_anchor (r, []) = true.
Proof. done. Qed.

Ltac loc_congruence := unfold location in *; congruence.

Lemma mkdir_all_sim d r es : forall fw fw' fv,
mkdir_all r es fw = Some fw' ->
files_follow d fw fv -> kinds_kept fw' EF -> kinds_kept EF fv ->
exists fv',
  mkdir_all r es fv = Some fv' /\ files_follow d fw' fv' /\ kinds_kept EF fv'.
Proof.
induction es as [|e up IH]; intros fw fw' fv Hmk Hfo Hk Hkv;
  cbn [mkdir_all rev] in *.
- unfold lookup_node in *. rewrite anchor_nil in *. simplify_eq. by exists fv.
- set (l := (r, rev up ++ [e])) in *.
  destruct (lookup_node fw l) as [[data|]|] eqn:E; [done| |].
  + injection Hmk as <-.
    assert (lookup_node fv l = Some Dir) as ->.
    { unfold lookup_node in *. destruct (is_anchor l); [done|].
      destruct (Hfo l) as [->|(_ & -> & _)]; [done|].
      destruct (Hk l Dir E) as (n' & -> & Hn'). by rewrite (is_dir_kind n'). }
    by exists fv.
  + destruct (mkdir_all r up fw) as [fw1|] eqn:E1; [|done]. injection Hmk as <-.
    assert (Hanchor : is_anchor l = false)
      by (unfold lookup_node in E; by destruct (is_anchor l)).
    assert (Hwl : fw !! l = None)
      by (unfold lookup_node in E; by rewrite Hanchor in E).
    assert (Hw1l : fw1 !! l = None).
    { destruct (fw1 !! l) as [n|] eqn:En; [|done].
      destruct (mkdir_all_new _ _ _ _ _ _ E1 En) as [?|(_ & _ & Hp & _)];
        [loc_congruence|].
      simpl in Hp. apply prefix_length in Hp. rewrite length_app in Hp.
      simpl in Hp. lia. }
    assert (HE : EF !! l = Some Dir).
    { destruct (Hk l Dir) as (n' & HE & Hn'); [by rewrite lookup_insert_eq|].
      by rewrite (is_dir_kind n') in HE. }
    destruct (IH fw fw1 fv E1 Hfo) as (fv1 & Hmv & Hfo1 & Hkv1); [|done|].
    { intros l' n Hl'. apply Hk. rewrite lookup_insert_ne; [done|].
      intros <-. loc_congruence. }
    unfold lookup_node. rewrite Hanchor.
    destruct (Hfo l) as [Hsame|(Hin & Hfin & Hnofd)]; unfold location in *.
    * rewrite Hsame, Hwl, Hmv. eexists. split; [done|]. split.
      -- by apply follow_insert.
      -- apply kinds_kept_insert; [done|]. intros n' Hn'. loc_congruence.
    * rewrite Hfin, HE. exists fv. split; [done|]. split; [|done].
      intros l'. destruct (decide (l' = l)) as [->|Hne].
      { left. rewrite lookup_insert_eq. loc_congruence. }
      rewrite lookup_insert_ne by done.
      destruct (fw1 !! l') as [n1|] eqn:E1'.
      -- destruct (mkdir_all_new _ _ _ _ _ _ E1 E1') as [Hold|(-> & _)].
         ++ destruct (Hfo l') as [Hs|Hr]; [left; loc_congruence | by right].
         ++ left. destruct (Hk l' Dir) as (n' & HE' & Hn');
              [by rewrite lookup_insert_ne|].
            apply is_dir_kind in Hn'. subst n'.
            destruct (Hkv l' Dir HE') as (n'' & Hv & Hn'').
            apply is_dir_kind in Hn''. loc_congruence.
      -- assert (fw !! l' = None) as Hnone.
         { destruct (fw !! l') eqn:E0; [|done].
           pose proof (mkdir_all_keeps _ _ _ _ _ _ E1 E0). loc_congruence. }
         destruct (Hfo l') as [Hs|Hr]; [left; loc_congruence | by right].
Qed.

Lemma sim_MkdirAll p : sim_on (fun r => r = None) (os_MkdirAll p).
Proof.
intros w v a w' Hrun -> [Hfa Hfd Hkv Hfi Hob] _ Hk.
revert Hrun Hk. unfold os_MkdirAll. unfold_monad. world_simpl. rewrite Hfa.
destruct (faults w (MkdirAll p) || is_empty_path p); [done|].
destruct (mkdir_all _ _ (files w)) as [fw'|] eqn:E; [|done].
intros [= <-] Hk. world_simpl.
destruct (mkdir_all_sim (fds w) _ _ _ _ _ E Hfi Hk Hkv) as (fv' & -> & Hfo' & Hkv').
eexists. split; [done|]. by constructor.
Qed.

Lemma sim_OpenFile p : sim_on (fun r => exists fd, r = inl fd) (os_OpenFile p).
Proof.
intros w v a w' Hrun [fd ->] [Hfa Hfd Hkv Hfi Hob] _ Hk.
revert Hrun Hk. unfold os_OpenFile. unfold_monad. world_simpl. rewrite Hfa, Hfd.
destruct (faults w (Create p) || is_empty_path p); [done|].
set (l := resolve p).
destruct (lookup_node (files w) (parent l)) as [[data'|]|] eqn:Ep;
  [destruct (lookup_node (files w) l) as [[]|]; cbn; intros; discriminate| |
   destruct (lookup_node (files w) l) as [[]|]; cbn; intros; discriminate].
intros Hrun Hk.
assert (Hl : is_anchor l = false /\
             (files w !! l = None \/ exists data, files w !! l = Some (File data))).
{ revert Hrun. unfold lookup_node. destruct (is_anchor l); [cbn; discriminate|].
  destruct (files w !! l) as [[data|]|]; cbn; intros Hrun;
    [split; [done|right; eauto] | discriminate | split; [done|by left]]. }
destruct Hl as [Hanchor Hl].
assert (w' = set_fds (<[fd := l]> (fds w))
               (set_files (<[l := File []]> (files w)) (add_trace (Create p) w))
        /\ fd = fresh (dom (fds w))) as [-> ->].
{ revert Hrun. unfold lookup_node. rewrite Hanchor.
  destruct Hl as [->|[data ->]]; by intros [= <- <-]. }
world_simpl.
assert (HEl : forall n, EF !! l = Some n -> IsDir (info_of n) = false).
{ intros n Hn. destruct (Hk l (File [])) as (n' & ? & ?);
    [by rewrite lookup_insert_eq|]. by simplify_eq. }
assert (Hvl : files v !! l = None \/ exists data, files v !! l = Some (File data)).
{ destruct (Hfi l) as [->|(_ & -> & _)]; [done|].
  destruct (EF !! l) as [n|] eqn:En; [|by left]. right.
  destruct (is_file_kind n) as [data ->]; [by apply HEl | eauto]. }
assert (Hvp : lookup_node (files v) (parent l) = Some Dir).
{ unfold lookup_node in *. destruct (is_anchor (parent l)); [done|].
  destruct (Hfi (parent l)) as [->|(_ & -> & _)]; [done|].
  destruct (Hk (parent l) Dir) as (n' & -> & Hn').
  - rewrite lookup_insert_ne; [done|]. intros Heq. rewrite <- Heq in Ep.
    destruct Hl as [?|[? ?]]; congruence.
  - by rewrite (is_dir_kind n'). }
rewrite Hvp. unfold lookup_node at 1. rewrite Hanchor.
eexists. split.
{ destruct Hvl as [->|[data ->]]; reflexivity. }
constructor; world_simpl; try done.
- apply kinds_kept_insert; [done|]. intros n' Hn'. simpl. symmetry. by apply HEl.
- apply follow_insert_fd; [by apply follow_insert|]. by rewrite !lookup_insert_eq.
Qed.

Lemma kinds_kept_rewrite (fv : gmap location fnode) l old new :
kinds_kept EF fv -> fv !! l = Some (File old) ->
kinds_kept EF (<[l := File new]> fv).
Proof.
intros H Hl. apply kinds_kept_insert; [done|]. intros n' Hn'.
destruct (H l n' Hn') as (n'' & ? & ?). by simplify_eq.
Qed.

Lemma sim_io_Copy dst src : sim (io_Copy dst src).
Proof.
intros w v a w' Hrun _ [Hfa Hfd Hkv Hfi Hob] _ _.
revert Hrun.
unfold io_Copy, reader_endpoint, writer_endpoint, read_all, write_all.
unfold_monad. world_simpl.
destruct src as [sfd|sb sn data]; destruct dst as [dfd|db dn buf];
  cbn; rewrite ?Hfa, ?Hfd.
- destruct (fds w !! sfd) as [ls|] eqn:Es; cbn;
    [|intros; simplify_eq; eexists; split; [done|by constructor]].
  destruct (fds w !! dfd) as [ld|] eqn:Ed; cbn;
    [|intros; simplify_eq; eexists; split; [done|by constructor]].
  pose proof (follow_open _ _ _ _ _ Hfi Ed) as Hld.
  rewrite ?Hfa, ?Hfd, ?Es, ?Ed; cbn. rewrite ?(follow_open _ _ _ _ _ Hfi Es), ?Hld.
  intros Hrun. repeat case_match; simplify_eq;
    (eexists; split; [done|]); constructor; world_simpl; try done.
  + eapply kinds_kept_rewrite; [done|]. by rewrite Hld.
  + by apply follow_insert.
- destruct (fds w !! sfd) as [ls|] eqn:Es; cbn;
    [|intros; simplify_eq; eexists; split; [done|by constructor]].
  rewrite ?Hfa, ?Hfd, ?Es; cbn. rewrite ?(follow_open _ _ _ _ _ Hfi Es).
  intros Hrun. repeat case_match; simplify_eq;
    (eexists; split; [done|]); by constructor.
- destruct (fds w !! dfd) as [ld|] eqn:Ed; cbn;
    [|intros; simplify_eq; eexists; split; [done|by constructor]].
  pose proof (follow_open _ _ _ _ _ Hfi Ed) as Hld.
  rewrite ?Hfa, ?Hfd, ?Ed; cbn. rewrite ?Hld.
  intros Hrun. repeat case_match; simplify_eq;
    (eexists; split; [done|]); constructor; world_simpl; try done.
  + eapply kinds_kept_rewrite; [done|]. by rewrite Hld.
  + by apply follow_insert.
- intros Hrun. repeat case_match; simplify_eq;
    (eexists; split; [done|]); by constructor.
Qed.

(** *** Composition *)

Lemma Sim_prim {A} (good : A -> Prop) (m : M A) :
stable grows m -> sim_on good m -> Sim_on good m.
Proof. by split. Qed.

Lemma Sim_weaken {A} (good : A -> Prop) (m : M A) : Sim m -> Sim_on good m.
Proof.
intros [Hs Hm]. split; [done|]. intros w v a w' Hrun _. by apply Hm.
Qed.

Lemma Sim_ret {A} (a : A) : Sim (mret a).
Proof.
split; [apply stable_ret, grows_refl|].
intros w v a' w' [= <- <-] _ HR _ _. by exists v.
Qed.

Lemma Sim_bind {A B} (good : B -> Prop) (m : M A) (f : A -> M B) :
Sim m -> (forall a, Sim_on good (f a)) -> Sim_on good (m ≫= f).
Proof.
intros [Hsm Hm] Hf. split.
{ apply stable_bind; [apply grows_trans|done|]. intros a. apply Hf. }
intros w v b w2 Hrun Hgood HR Hok Hk.
apply bind_Returned_inv in Hrun as (a & w1 & Hrm & Hrf).
pose proof (Hsm w) as G1. rewrite Hrm in G1.
destruct (Hf a) as [Hsf Hfa]. pose proof (Hsf w1) as G2. rewrite Hrf in G2.
destruct (ok_ops_split _ _ _ _ _ G1 G2 Hok) as [Hok1 Hok2].
destruct (Hm w v a w1 Hrm I HR Hok1) as (v1 & Hv1 & HR1).
{ eapply kinds_kept_trans; [apply G2|done]. }
destruct (Hfa w1 v1 b w2 Hrf Hgood HR1 Hok2 Hk) as (v2 & Hv2 & HR2).
exists v2. split; [|done]. by rewrite (bind_Returned _ _ _ _ _ Hv1).
Qed.

Lemma Sim_never {A} (m : M A) :
stable grows m -> (forall w a w', m w <> Returned a w') -> Sim m.
Proof. intros Hs Hn. split; [done|]. intros w v a w' Hrun. by destruct (Hn w a w'). Qed.

Lemma Sim_log_Print msg : Sim (log_Print msg).
Proof.
split; [apply stable_log_Print, grows_log|].
intros w v a w' [= <- <-] _ HR _ _. eexists. split; [done|]. by apply Rel_add_log.
Qed.

Lemma Sim_log_Println e : Sim (log_Println e).
Proof.
split; [apply stable_log_Println, grows_log|].
intros w v a w' [= <- <-] _ HR _ _. eexists. split; [done|]. by apply Rel_add_log.
Qed.

Lemma Sim_log_Fatal {A} e : Sim (@log_Fatal A e).
Proof. apply Sim_never; [apply stable_log_Fatal, grows_log | done]. Qed.

Lemma Sim_log_Fatalf {A} msg : Sim (@log_Fatalf A msg).
Proof. apply Sim_never; [apply stable_log_Fatalf, grows_log | done]. Qed.

Lemma Sim_go_panic {A} : Sim (@go_panic A).
Proof. apply Sim_never; [apply stable_go_panic, grows_refl | done]. Qed.

Lemma Sim_out_of_fuel {A} : Sim (@out_of_fuel A).
Proof. apply Sim_never; [apply stable_out_of_fuel | done]. Qed.

Lemma Sim_must_on {A} (m : M (A + error)) :
Sim_on (fun r => exists a, r = inl a) m -> Sim (must m).
Proof.
intros [Hs Hm]. split.
{ apply stable_must; [apply grows_refl|apply grows_trans|apply grows_log|done]. }
intros w v a w' Hrun _ HR Hok Hk.
assert (Hrun' := must_Returned_inv _ _ _ _ Hrun).
assert (ok_ops w w') as Hok' by done.
destruct (Hm w v (inl a) w' Hrun' (ex_intro _ a eq_refl) HR Hok' Hk)
  as (v' & Hv & HR').
exists v'. split; [by apply must_ok|done].
Qed.

Lemma Sim_check_on (m : M (option error)) :
Sim_on (fun r => r = None) m -> Sim (check m).
Proof.
intros [Hs Hm]. split.
{ apply stable_check; [apply grows_refl|apply grows_trans|apply grows_log|done]. }
intros w v a w' Hrun _ HR Hok Hk.
assert (Hrun' := check_Returned_inv _ _ _ _ Hrun). destruct a.
destruct (Hm w v None w' Hrun' eq_refl HR Hok Hk) as (v' & Hv & HR').
exists v'. split; [by apply check_ok|done].
Qed.

Lemma Sim_must {A} (m : M (A + error)) : Sim m -> Sim (must m).
Proof. intros H. by apply Sim_must_on, Sim_weaken. Qed.

Lemma Sim_check (m : M (option error)) : Sim m -> Sim (check m).
Proof. intros H. by apply Sim_check_on, Sim_weaken. Qed.

Lemma Sim_for_each {A} (l : list A) (body : A -> M unit) :
(forall x, Sim (body x)) -> Sim (for_each l body).
Proof.
intros Hb. induction l as [|x l IH]; [apply Sim_ret|].
cbn [for_each]. apply Sim_bind; [apply Hb | by intros _].
Qed.

Lemma Sim_walk_names walk_rec fn path names :
(forall p i e, Sim (fn p i e)) ->
(forall p i, Sim (walk_rec p i fn)) ->
Sim (walk_names walk_rec path fn names).
Proof.
intros Hfn Hrec. induction names as [|name names IH]; [apply Sim_ret|].
cbn [walk_names]. apply Sim_bind.
{ apply Sim_prim; [apply grows_Lstat | apply sim_Lstat]. }
intros [fi|e].
- apply Sim_bind; [apply Hrec|]. intros [e'|]; [|done].
  destruct (_ || _); [apply Sim_ret | done].
- apply Sim_bind; [apply Hfn|]. intros [e'|]; [|done].
  destruct (is_SkipDir e'); [done | apply Sim_ret].
Qed.

Lemma Sim_walk fn fuel path info :
(forall p i e, Sim (fn p i e)) -> Sim (walk fuel path info fn).
Proof.
intros Hfn. revert path info.
induction fuel as [|fuel IH]; intros path info; [apply Sim_out_of_fuel|].
cbn [walk]. destruct (negb (IsDir info)); [apply Hfn|].
apply Sim_bind.
{ apply Sim_prim; [apply grows_ReadDir | apply sim_ReadDir]. }
intros r. apply Sim_bind; [apply Hfn|]. intros err1.
destruct r; [|apply Sim_ret].
destruct err1; [apply Sim_ret|].
by apply Sim_walk_names.
Qed.

Lemma Sim_Walk fn fuel root :
(forall p i e, Sim (fn p i e)) -> Sim (filepath_Walk fuel root fn).
Proof.
intros Hfn. unfold filepath_Walk. apply Sim_bind.
{ apply Sim_prim; [apply grows_Lstat | apply sim_Lstat]. }
intros r. apply Sim_bind.
- destruct r; [by apply Sim_walk | apply Hfn].
- intros [e|]; [|apply Sim_ret]. destruct (is_SkipDir e); apply Sim_ret.
Qed.

(** *** The functions of the program *)

Local Ltac sim_step :=
lazymatch goal with
| |- Sim_on _ (mret _) => apply Sim_ret
| |- Sim_on _ (log_Print _) => apply Sim_log_Print
| |- Sim_on _ (log_Println _) => apply Sim_log_Println
| |- Sim_on _ go_panic => apply Sim_go_panic
| |- Sim_on _ (must (os_OpenFile _)) =>
    apply Sim_must_on, Sim_prim; [apply grows_OpenFile | apply sim_OpenFile]
| |- Sim_on _ (check (os_MkdirAll _)) =>
    apply Sim_check_on, Sim_prim; [apply grows_MkdirAll | apply sim_MkdirAll]
| |- Sim_on _ (must _) => apply Sim_must
| |- Sim_on _ (check _) => apply Sim_check
| |- Sim_on _ (mbind _ _) => apply Sim_bind; [|intros ?]
| |- Sim_on _ (match ?x with _ => _ end) => destruct x
| |- Sim_on _ (os_Stat _) =>
    apply Sim_prim; [apply grows_Stat | apply sim_Stat]
| |- Sim_on _ (os_Open _) =>
    apply Sim_prim; [apply grows_Open | apply sim_Open]
| |- Sim_on _ (file_Close _) =>
    apply Sim_prim; [apply grows_Close | apply sim_Close]
| |- Sim_on _ (file_Sync _) =>
    apply Sim_prim; [apply grows_Sync | apply sim_Sync]
| |- Sim_on _ storage_NewClient =>
    apply Sim_prim; [apply grows_NewClient | apply sim_NewClient]
| |- Sim_on _ client_Close =>
    apply Sim_prim; [apply grows_client_Close | apply sim_client_Close]
| |- Sim_on _ (list_objects _ _) =>
    apply Sim_prim; [apply grows_list | apply sim_list]
| |- Sim_on _ (object_NewReader _ _) =>
    apply Sim_prim; [apply grows_NewReader | apply sim_NewReader]
| |- Sim_on _ (reader_Close _ _) =>
    apply Sim_prim; [apply grows_reader_Close | apply sim_reader_Close]
| |- Sim_on _ (writer_Close _ _ _) =>
    apply Sim_prim; [apply grows_writer_Close | apply sim_writer_Close]
| |- Sim_on _ (copier_Run _ _ _ _) =>
    apply Sim_prim; [apply grows_copier_Run | apply sim_copier_Run]
| |- Sim_on _ (io_Copy _ _) =>
    apply Sim_prim; [apply grows_io_Copy | apply sim_io_Copy]
end.

Lemma Sim_copyFileFromLocalToLocal s d : Sim (copyFileFromLocalToLocal s d).
Proof. unfold copyFileFromLocalToLocal. repeat sim_step. Qed.

Lemma Sim_copyFileFromLocalToGcs s b d : Sim (copyFileFromLocalToGcs s b d).
Proof. unfold copyFileFromLocalToGcs, object_NewWriter. repeat sim_step. Qed.

Lemma Sim_copyFileFromGcsToLocal b s d : Sim (copyFileFromGcsToLocal b s d).
Proof. unfold copyFileFromGcsToLocal. repeat sim_step. Qed.

Lemma Sim_copyFileFromGcsToGcs sb s db d : Sim (copyFileFromGcsToGcs sb s db d).
Proof. unfold copyFileFromGcsToGcs. repeat sim_step. Qed.

Lemma Sim_walkFn_LL s d p i e : Sim (copyFromLocalToLocal_walkFn s d p i e).
Proof.
unfold copyFromLocalToLocal_walkFn. repeat sim_step.
apply Sim_copyFileFromLocalToLocal.
Qed.

Lemma Sim_walkFn_LG s b d p i e : Sim (copyFromLocalToGcs_walkFn s b d p i e).
Proof.
unfold copyFromLocalToGcs_walkFn. repeat sim_step.
apply Sim_copyFileFromLocalToGcs.
Qed.

Lemma Sim_copyFromLocalToLocal fuel s d : Sim (copyFromLocalToLocal fuel s d).
Proof.
unfold copyFromLocalToLocal. repeat sim_step.
- apply Sim_copyFileFromLocalToLocal.
- apply Sim_Walk. apply Sim_walkFn_LL.
Qed.

Lemma Sim_copyFromLocalToGcs fuel s b d : Sim (copyFromLocalToGcs fuel s b d).
Proof.
unfold copyFromLocalToGcs. repeat sim_step.
- apply Sim_copyFileFromLocalToGcs.
- apply Sim_Walk. apply Sim_walkFn_LG.
Qed.

Lemma Sim_copyFromGcsToLocal b s d : Sim (copyFromGcsToLocal b s d).
Proof.
unfold copyFromGcsToLocal. repeat sim_step.
apply Sim_for_each. intros name.
unfold copyFromGcsToLocal_entry. repeat sim_step;
  apply Sim_copyFileFromGcsToLocal.
Qed.

Lemma Sim_copyFromGcsToGcs sb s db d : Sim (copyFromGcsToGcs sb s db d).
Proof.
unfold copyFromGcsToGcs. repeat sim_step.
apply Sim_for_each. intros name.
unfold copyFromGcsToGcs_entry. repeat sim_step;
  apply Sim_copyFileFromGcsToGcs.
Qed.

Lemma Sim_main fuel program args : Sim (main fuel program args).
Proof.
unfold main. destruct (Nat.ltb _ _); [apply Sim_log_Fatalf|].
repeat sim_step.
all: lazymatch goal with
     | |- _ (copyFromGcsToGcs _ _ _ _) => apply Sim_copyFromGcsToGcs
     | |- _ (copyFromGcsToLocal _ _ _) => apply Sim_copyFromGcsToLocal
     | |- _ (copyFromLocalToGcs _ _ _ _) => apply Sim_copyFromLocalToGcs
     | |- _ (copyFromLocalToLocal _ _ _) => apply Sim_copyFromLocalToLocal
     end.
Qed.
End TwoRuns.


(** ** What the first run writes *)

Lemma prefixes_elem {A} (l k : list A) : k `prefix_of` l -> k ∈ prefixes l.
Proof.
  intros [rest ->]. unfold prefixes. apply list_elem_of_fmap.
  exists (length k). split; [by rewrite take_app_length|].
  apply elem_of_seq. rewrite length_app. lia.
Qed.

Lemma touches_in_writes o l : touches_file o l = true -> l ∈ file_writes o.
Proof.
  destruct o as [| | | |p|p|s d| | | | | | | | |];
    cbn [touches_file file_writes]; try done.
  - rewrite !andb_true_iff, bool_decide_eq_true. intros [[Hr Hp] Ha].
    apply Bool.eqb_prop in Hr. apply negb_true_iff in Ha.
    apply list_elem_of_filter. split; [done|].
    apply list_elem_of_fmap. exists l.2.
    split; [destruct l; cbn [fst snd] in *; by subst | by apply prefixes_elem].
  - intros ->%bool_decide_eq_true. apply list_elem_of_singleton. done.
  - destruct d as [l'|]; [|done].
    intros ->%bool_decide_eq_true. by apply list_elem_of_singleton.
Qed.

Lemma touches_in_object_writes o k :
  touches_object o k = true -> k ∈ object_writes o.
Proof.
  destruct o; simpl; try done;
    intros ->%bool_decide_eq_true; by apply list_elem_of_singleton.
Qed.

Lemma not_written_file t l : l ∉ t ≫= file_writes -> writes_file t l = false.
Proof.
  intros Hl. apply not_true_iff_false. intros Hw. apply Hl.
  unfold writes_file in Hw. apply existsb_exists in Hw as (o & Ho & Hto).
  apply list_elem_of_bind. exists o. split; [by apply touches_in_writes|].
  by apply list_elem_of_In.
Qed.

Lemma not_written_object t k : k ∉ t ≫= object_writes -> writes_object t k = false.
Proof.
  intros Hk. apply not_true_iff_false. intros Hw. apply Hk.
  unfold writes_object in Hw. apply existsb_exists in Hw as (o & Ho & Hto).
  apply list_elem_of_bind. exists o. split; [by apply touches_in_object_writes|].
  by apply list_elem_of_In.
Qed.




(** The condition holds for a copy from one prefix of a bucket to another... *)
Example remote_copy_separated :
  separated
    (new_ops sample_objects
       (world_after (main 1 "gcs_copy" ["gs://bkt/dir"; "gs://bkt/out"])
          sample_objects)) = true.
Proof. vm_compute. reflexivity. Qed.

(** ... and fails when the destination prefix extends the source prefix: the
    listing of [dir] of a second run would show the objects under [dir2]. *)
Example remote_copy_not_separated :
  separated
    (new_ops sample_objects
       (world_after (main 1 "gcs_copy" ["gs://bkt/dir"; "gs://bkt/dir2"])
          sample_objects)) = false.
Proof. vm_compute. reflexivity. Qed.


(** * How the program ends *)

Lemma exits_ret {A} (a : A) : exits_with_1 (mret a).
Proof. by intros w c w'. Qed.

Lemma exits_bind_post {A B} (Q : A -> Prop) (m : M A) (f : A -> M B) :
  exits_with_1 m ->
  (forall w a w', m w = Returned a w' -> Q a) ->
  (forall a, Q a -> exits_with_1 (f a)) ->
  exits_with_1 (m ≫= f).
Proof.
  intros Hm HQ Hf w c w'. unfold mbind, M_bind.
  destruct (m w) as [a w1|c1 w1|] eqn:E; [| |done].
  - apply Hf. by eapply HQ.
  - intros [= <- <-]. by eapply Hm.
Qed.

Lemma exits_bind {A B} (m : M A) (f : A -> M B) :
  exits_with_1 m -> (forall a, exits_with_1 (f a)) -> exits_with_1 (m ≫= f).
Proof.
  intros Hm Hf. apply (exits_bind_post (fun _ => True)); [done|done|].
  intros a _. apply Hf.
Qed.

Lemma exits_log_Print msg : exits_with_1 (log_Print msg).
Proof. by intros w c w'. Qed.
Lemma exits_log_Println e : exits_with_1 (log_Println e).
Proof. by intros w c w'. Qed.
Lemma exits_log_Fatal {A} e : exits_with_1 (@log_Fatal A e).
Proof. by intros w c w' [= <- _]. Qed.
Lemma exits_log_Fatalf {A} msg : exits_with_1 (@log_Fatalf A msg).
Proof. by intros w c w' [= <- _]. Qed.
Lemma exits_out_of_fuel {A} : exits_with_1 (@out_of_fuel A).
Proof. by intros w c w'. Qed.

Lemma exits_must {A} (m : M (A + error)) : exits_with_1 m -> exits_with_1 (must m).
Proof.
  intros Hm. apply exits_bind; [done|]. intros [a|e];
    [apply exits_ret | apply exits_log_Fatal].
Qed.

Lemma exits_check (m : M (option error)) : exits_with_1 m -> exits_with_1 (check m).
Proof.
  intros Hm. apply exits_bind; [done|]. intros [e|];
    [apply exits_log_Fatal | apply exits_ret].
Qed.

Lemma exits_for_each {A} (l : list A) (body : A -> M unit) :
  (forall x, x ∈ l -> exits_with_1 (body x)) -> exits_with_1 (for_each l body).
Proof.
  induction l as [|x l IH]; intros Hb; [apply exits_ret|].
  cbn [for_each]. apply exits_bind; [apply Hb; by left|]. intros _.
  apply IH. intros y Hy. apply Hb. by right.
Qed.

(** No operation on the outside world ends the process by itself. *)
Ltac never_exits :=
  intros w c w'; unfold_monad; world_simpl; repeat case_match; done.

Lemma exits_Stat p : exits_with_1 (os_Stat p).
Proof. unfold os_Stat. never_exits. Qed.
Lemma exits_Lstat p : exits_with_1 (os_Lstat p).
Proof. unfold os_Lstat. never_exits. Qed.
Lemma exits_ReadDir p : exits_with_1 (readDirNames p).
Proof. unfold readDirNames. never_exits. Qed.
Lemma exits_Open p : exits_with_1 (os_Open p).
Proof. unfold os_Open. never_exits. Qed.
Lemma exits_MkdirAll p : exits_with_1 (os_MkdirAll p).
Proof. unfold os_MkdirAll. never_exits. Qed.
Lemma exits_OpenFile p : exits_with_1 (os_OpenFile p).
Proof. unfold os_OpenFile. never_exits. Qed.
Lemma exits_Close fd : exits_with_1 (file_Close fd).
Proof. unfold file_Close. never_exits. Qed.
Lemma exits_Sync fd : exits_with_1 (file_Sync fd).
Proof. unfold file_Sync. never_exits. Qed.
Lemma exits_NewClient : exits_with_1 storage_NewClient.
Proof. unfold storage_NewClient. never_exits. Qed.
Lemma exits_client_Close : exits_with_1 client_Close.
Proof. unfold client_Close. never_exits. Qed.
Lemma exits_list b pre : exits_with_1 (list_objects b pre).
Proof. unfold list_objects. never_exits. Qed.
Lemma exits_NewReader b n : exits_with_1 (object_NewReader b n).
Proof. unfold object_NewReader. never_exits. Qed.
Lemma exits_reader_Close b n : exits_with_1 (reader_Close b n).
Proof. unfold reader_Close. never_exits. Qed.
Lemma exits_writer_Close b n buf : exits_with_1 (writer_Close b n buf).
Proof. unfold writer_Close. never_exits. Qed.
Lemma exits_copier_Run sb sn db dn : exits_with_1 (copier_Run sb sn db dn).
Proof. unfold copier_Run. never_exits. Qed.
Lemma exits_io_Copy dst src : exits_with_1 (io_Copy dst src).
Proof. unfold io_Copy, write_all. never_exits. Qed.

Create HintDb exits.
#[local] Hint Resolve exits_Stat exits_Lstat exits_ReadDir exits_Open
  exits_MkdirAll exits_OpenFile exits_Close exits_Sync exits_NewClient
  exits_client_Close exits_list exits_NewReader exits_reader_Close
  exits_writer_Close exits_copier_Run exits_io_Copy : exits.

Ltac exits_step :=
  lazymatch goal with
  | |- exits_with_1 (mret _) => apply exits_ret
  | |- exits_with_1 (log_Print _) => apply exits_log_Print
  | |- exits_with_1 (log_Println _) => apply exits_log_Println
  | |- exits_with_1 (must _) => apply exits_must
  | |- exits_with_1 (check _) => apply exits_check
  | |- exits_with_1 (mbind _ _) => apply exits_bind; [|intros ?]
  | |- exits_with_1 (match ?x with _ => _ end) => destruct x
  | |- exits_with_1 _ => solve [auto with exits]
  end.

Lemma exits_walk_names walk_rec fn path names :
  (forall p i e, exits_with_1 (fn p i e)) ->
  (forall p i, exits_with_1 (walk_rec p i fn)) ->
  exits_with_1 (walk_names walk_rec path fn names).
Proof.
  intros Hfn Hrec. induction names as [|name names IH]; [apply exits_ret|].
  cbn [walk_names]. apply exits_bind; [apply exits_Lstat|]. intros [fi|e].
  - apply exits_bind; [apply Hrec|]. intros [e'|]; [|done].
    destruct (_ || _); [apply exits_ret | done].
  - apply exits_bind; [apply Hfn|]. intros [e'|]; [|done].
    destruct (is_SkipDir e'); [done | apply exits_ret].
Qed.

Lemma exits_walk fn fuel path info :
  (forall p i e, exits_with_1 (fn p i e)) -> exits_with_1 (walk fuel path info fn).
Proof.
  intros Hfn. revert path info.
  induction fuel as [|fuel IH]; intros path info; [apply exits_out_of_fuel|].
  cbn [walk]. destruct (negb (IsDir info)); [apply Hfn|].
  apply exits_bind; [apply exits_ReadDir|]. intros r.
  apply exits_bind; [apply Hfn|]. intros err1.
  destruct r; [|apply exits_ret].
  destruct err1; [apply exits_ret|].
  by apply exits_walk_names.
Qed.

Lemma exits_Walk fn fuel root :
  (forall p i e, exits_with_1 (fn p i e)) ->
  exits_with_1 (filepath_Walk fuel root fn).
Proof.
  intros Hfn. unfold filepath_Walk. apply exits_bind; [apply exits_Lstat|].
  intros r. apply exits_bind.
  - destruct r; [by apply exits_walk | apply Hfn].
  - intros [e|]; [|apply exits_ret]. destruct (is_SkipDir e); apply exits_ret.
Qed.

Lemma exits_copyFileFromLocalToLocal s d : exits_with_1 (copyFileFromLocalToLocal s d).
Proof. unfold copyFileFromLocalToLocal. repeat exits_step. Qed.

Lemma exits_copyFileFromLocalToGcs s b d : exits_with_1 (copyFileFromLocalToGcs s b d).
Proof. unfold copyFileFromLocalToGcs, object_NewWriter. repeat exits_step. Qed.

Lemma exits_copyFileFromGcsToLocal b s d : exits_with_1 (copyFileFromGcsToLocal b s d).
Proof. unfold copyFileFromGcsToLocal. repeat exits_step. Qed.

Lemma exits_copyFileFromGcsToGcs sb s db d :
  exits_with_1 (copyFileFromGcsToGcs sb s db d).
Proof. unfold copyFileFromGcsToGcs. repeat exits_step. Qed.

Lemma exits_walkFn_LL s d p i e : exits_with_1 (copyFromLocalToLocal_walkFn s d p i e).
Proof.
  unfold copyFromLocalToLocal_walkFn. repeat exits_step.
  apply exits_copyFileFromLocalToLocal.
Qed.

Lemma exits_walkFn_LG s b d p i e :
  exits_with_1 (copyFromLocalToGcs_walkFn s b d p i e).
Proof.
  unfold copyFromLocalToGcs_walkFn. repeat exits_step.
  apply exits_copyFileFromLocalToGcs.
Qed.

Lemma exits_copyFromLocalToLocal fuel s d : exits_with_1 (copyFromLocalToLocal fuel s d).
Proof.
  unfold copyFromLocalToLocal. repeat exits_step.
  - apply exits_copyFileFromLocalToLocal.
  - apply exits_Walk, exits_walkFn_LL.
Qed.

Lemma exits_copyFromLocalToGcs fuel s b d :
  exits_with_1 (copyFromLocalToGcs fuel s b d).
Proof.
  unfold copyFromLocalToGcs. repeat exits_step.
  - apply exits_copyFileFromLocalToGcs.
  - apply exits_Walk, exits_walkFn_LG.
Qed.

(** The slice [srcFilePath[len(srcPath):]] is in range for every name of the
    listing, which holds only names that start with [srcPath]. *)
Lemma exits_copyFromGcsToLocal b s d : exits_with_1 (copyFromGcsToLocal b s d).
Proof.
  unfold copyFromGcsToLocal. apply exits_bind; [repeat exits_step|]. intros _.
  apply (exits_bind_post (fun names => forall n, n ∈ names -> String.prefix s n = true)).
  - repeat exits_step.
  - intros w names w' H%must_Returned_inv n Hn.
    by destruct (list_objects_names _ _ _ _ _ H n Hn).
  - intros names Hnames. apply exits_bind; [|intros; apply exits_ret].
    apply exits_for_each. intros n Hn. unfold copyFromGcsToLocal_entry.
    destruct (prefix_slice _ _ (Hnames n Hn)) as (rel & _ & ->).
    destruct (String.eqb rel ""); apply exits_copyFileFromGcsToLocal.
Qed.

Lemma exits_copyFromGcsToGcs sb s db d : exits_with_1 (copyFromGcsToGcs sb s db d).
Proof.
  unfold copyFromGcsToGcs. apply exits_bind; [repeat exits_step|]. intros _.
  apply (exits_bind_post (fun names => forall n, n ∈ names -> String.prefix s n = true)).
  - repeat exits_step.
  - intros w names w' H%must_Returned_inv n Hn.
    by destruct (list_objects_names _ _ _ _ _ H n Hn).
  - intros names Hnames. apply exits_bind; [|intros; apply exits_ret].
    apply exits_for_each. intros n Hn. unfold copyFromGcsToGcs_entry.
    destruct (prefix_slice _ _ (Hnames n Hn)) as (rel & _ & ->).
    destruct (String.eqb rel ""); apply exits_copyFileFromGcsToGcs.
Qed.

Lemma exits_main fuel program args : exits_with_1 (main fuel program args).
Proof.
  unfold main. destruct (Nat.ltb _ _); [apply exits_log_Fatalf|].
  repeat exits_step.
  all: lazymatch goal with
       | |- _ (copyFromGcsToGcs _ _ _ _) => apply exits_copyFromGcsToGcs
       | |- _ (copyFromGcsToLocal _ _ _) => apply exits_copyFromGcsToLocal
       | |- _ (copyFromLocalToGcs _ _ _ _) => apply exits_copyFromLocalToGcs
       | |- _ (copyFromLocalToLocal _ _ _) => apply exits_copyFromLocalToLocal
       end.
Qed.



(** * Sources that are not there *)

Lemma os_Stat_missing p w :
  lookup_node (files w) (resolve p) = None ->
  os_Stat p w = Returned (inr (IOError (Stat p))) (add_trace (Stat p) w).
Proof.
  intros Hn. unfold os_Stat. unfold_monad. world_simpl. rewrite Hn.
  by destruct (_ || _).
Qed.

(** X2: a local source that does not exist ends the process with status 1
    after the one [os.Stat]: the error is logged, and no file, object or
    descriptor is touched, whatever the destination. *)
Theorem missing_local_source fuel srcPath w :
  lookup_node (files w) (resolve srcPath) = None ->
  let w' := add_log (ErrorLine (IOError (Stat srcPath)))
              (add_trace (Stat srcPath) w) in
  (forall dstPath, copyFromLocalToLocal fuel srcPath dstPath w = Exited 1 w')
  /\ (forall dstBucket dstPath,
        copyFromLocalToGcs fuel srcPath dstBucket dstPath w = Exited 1 w')
  /\ files w' = files w /\ objects w' = objects w /\ fds w' = fds w.
Proof.
  intros Hn w'.
  assert (H : must (os_Stat srcPath) w = Exited 1 w').
  { unfold must. by rewrite (bind_Returned _ _ _ _ _ (os_Stat_missing _ _ Hn)). }
  split; [|split; [|done]].
  - intros dstPath. unfold copyFromLocalToLocal. by rewrite (bind_Exited _ _ _ _ _ H).
  - intros dstBucket dstPath. unfold copyFromLocalToGcs.
    by rewrite (bind_Exited _ _ _ _ _ H).
Qed.

Lemma missing_local_source_witness :
  let w' := add_log (ErrorLine (IOError (Stat "nowhere")))
              (add_trace (Stat "nowhere") sample_tree) in
  (forall dstPath, copyFromLocalToLocal 5 "nowhere" dstPath sample_tree = Exited 1 w')
  /\ (forall dstBucket dstPath,
        copyFromLocalToGcs 5 "nowhere" dstBucket dstPath sample_tree = Exited 1 w')
  /\ files w' = files sample_tree /\ objects w' = objects sample_tree
  /\ fds w' = fds sample_tree.
Proof. apply (missing_local_source 5 "nowhere" sample_tree). reflexivity. Defined.

Lemma omap_none {A B} (f : A -> option B) (l : list A) :
  (forall x, x ∈ l -> f x = None) -> omap f l = [].
Proof.
  induction l as [|x l IH]; intros H; [done|]. simpl.
  rewrite (H x) by by left. apply IH. intros y Hy. apply H. by right.
Qed.

Lemma list_objects_nothing b pre w :
  faults w (ListObjects b pre) = false ->
  (forall n, is_Some (objects w !! (b, n)) -> String.prefix pre n = false) ->
  list_objects b pre w = Returned (inl []) (add_trace (ListObjects b pre) w).
Proof.
  intros Hf Hno. unfold list_objects. unfold_monad. world_simpl. rewrite Hf.
  rewrite omap_none; [done|].
  intros k Hk. destruct (listed b pre k) as [n|] eqn:E; [|done].
  apply listed_Some in E as [-> Hp].
  apply list_elem_of_fmap in Hk as ([k v] & Hkv & Hin). simpl in Hkv. subst k.
  apply elem_of_map_to_list in Hin. rewrite Hno in Hp; [done|]. by exists v.
Qed.

Lemma storage_NewClient_ok w :
  faults w NewClient = false ->
  storage_NewClient w = Returned (inl tt) (add_trace NewClient w).
Proof. intros Hf. unfold storage_NewClient. unfold_monad. by rewrite Hf. Qed.

(** X3: a remote source prefix that no object name starts with is not an
    error: the copy, to a local or to a remote destination, returns [nil]
    right after the listing; nothing is written and nothing is logged. *)
Theorem remote_prefix_without_objects srcBucket srcPath w :
  faults w NewClient = false ->
  faults w (ListObjects srcBucket srcPath) = false ->
  (forall n, is_Some (objects w !! (srcBucket, n)) ->
             String.prefix srcPath n = false) ->
  let w' := add_trace (ListObjects srcBucket srcPath) (add_trace NewClient w) in
  (forall dstPath,
     copyFromGcsToLocal srcBucket srcPath dstPath w = Returned None w')
  /\ (forall dstBucket dstPath,
        copyFromGcsToGcs srcBucket srcPath dstBucket dstPath w = Returned None w')
  /\ files w' = files w /\ objects w' = objects w /\ fds w' = fds w
  /\ log w' = log w.
Proof.
  intros Hc Hl Hno w'.
  assert (H1 : must storage_NewClient w = Returned tt (add_trace NewClient w))
    by by apply must_ok, storage_NewClient_ok.
  assert (H2 : must (list_objects srcBucket srcPath) (add_trace NewClient w)
               = Returned [] w') by by apply must_ok, list_objects_nothing.
  split; [|split; [|done]].
  - intros dstPath. unfold copyFromGcsToLocal.
    rewrite (bind_Returned _ _ _ _ _ H1), (bind_Returned _ _ _ _ _ H2). done.
  - intros dstBucket dstPath. unfold copyFromGcsToGcs.
    rewrite (bind_Returned _ _ _ _ _ H1), (bind_Returned _ _ _ _ _ H2). done.
Qed.

Lemma remote_prefix_without_objects_witness :
  let w' := add_trace (ListObjects "bkt" "nothing") (add_trace NewClient sample_objects) in
  (forall dstPath,
     copyFromGcsToLocal "bkt" "nothing" dstPath sample_objects = Returned None w')
  /\ (forall dstBucket dstPath,
        copyFromGcsToGcs "bkt" "nothing" dstBucket dstPath sample_objects
        = Returned None w')
  /\ files w' = files sample_objects /\ objects w' = objects sample_objects
  /\ fds w' = fds sample_objects /\ log w' = log sample_objects.
Proof.
  apply (remote_prefix_without_objects "bkt" "nothing" sample_objects);
    [reflexivity | reflexivity |].
  intros n [v Hv]. apply elem_of_map_to_list in Hv. vm_compute in Hv.
  repeat (apply elem_of_cons in Hv as [Hv|Hv]; [by simplify_eq|]).
  by apply elem_of_nil in Hv.
Defined.


(** * Single transfers *)

Lemma object_NewReader_ok b n w data :
  quiet w -> objects w !! (b, n) = Some data ->
  object_NewReader b n w
  = Returned (inl (ObjectReader b n data)) (add_trace (NewReader b n) w).
Proof.
  intros Hq Hd. unfold object_NewReader. unfold_monad. world_simpl.
  by rewrite Hq, Hd.
Qed.

Lemma io_Copy_download fd b n data w l old :
  quiet w -> fds w !! fd = Some l -> files w !! l = Some (File old) ->
  io_Copy (FileWriter fd) (ObjectReader b n data) w
  = Returned (FileWriter fd, None)
      (set_files (<[l := File (old ++ data)]> (files w))
         (add_trace (Copy (Object b n) (LocalFile l)) w)).
Proof.
  intros Hq Hfd Hl. unfold io_Copy, reader_endpoint, writer_endpoint,
    read_all, write_all. unfold_monad. world_simpl.
  rewrite Hfd. simpl. world_simpl. by rewrite Hfd, Hl, Hq.
Qed.

Lemma file_Sync_ok fd w l :
  quiet w -> fds w !! fd = Some l ->
  file_Sync fd w = Returned None (add_trace (Sync fd) w).
Proof.
  intros Hq Hl. unfold file_Sync. unfold_monad. world_simpl. by rewrite Hl, Hq.
Qed.

(** The download of one object, when nothing fails. *)
Lemma copyFileFromGcsToLocal_ok b n dst w data fs1 :
  quiet w -> dst <> "" ->
  objects w !! (b, n) = Some data ->
  mkdir_all (resolve (filepath_Dir dst)).1 (rev (resolve (filepath_Dir dst)).2)
    (files w) = Some fs1 ->
  lookup_node fs1 (resolve dst) <> Some Dir ->
  lookup_node fs1 (parent (resolve dst)) = Some Dir ->
  exists w',
    copyFileFromGcsToLocal b n dst w = Returned tt w'
    /\ files w' = <[resolve dst := File data]> fs1
    /\ objects w' = objects w
    /\ fds w' = fds w
    /\ faults w' = faults w
    /\ new_ops w w'
       = [NewClient; NewReader b n; MkdirAll (filepath_Dir dst); Create dst;
          Copy (Object b n) (LocalFile (resolve dst));
          Sync (fresh (dom (fds w))); Close (fresh (dom (fds w)));
          CloseReader b n].
Proof.
  intros Hq Hdst Hdata Hmk Hnd Hpar.
  pose proof (Dir_not_empty dst) as Hdir.
  unfold copyFileFromGcsToLocal.
  set (f := fresh (dom (fds w))).
  erewrite bind_Returned; [|apply must_ok, storage_NewClient_ok, Hq].
  erewrite bind_Returned; [|reflexivity].
  erewrite bind_Returned; [|apply must_ok; by eapply object_NewReader_ok].
  erewrite bind_Returned; [|apply check_ok; eapply os_MkdirAll_ok; try done].
  erewrite bind_Returned; [|apply must_ok; eapply os_OpenFile_ok; try done].
  world_simpl. fold f.
  erewrite bind_Returned;
    [|eapply (io_Copy_download _ _ _ _ _ (resolve dst) []); try done;
      world_simpl; apply lookup_insert_eq].
  erewrite bind_Returned; [|reflexivity].
  erewrite bind_Returned;
    [|apply check_ok; eapply (file_Sync_ok _ _ (resolve dst)); try done;
      world_simpl; apply lookup_insert_eq].
  erewrite bind_Returned;
    [|eapply (file_Close_ok _ _ (resolve dst)); try done;
      world_simpl; apply lookup_insert_eq].
  eexists. split; [reflexivity|]. world_simpl.
  split; [by rewrite insert_insert_eq|]. split; [done|]. split; [|split; [done|]].
  - apply delete_insert_id. apply not_elem_of_dom, is_fresh.
  - unfold new_ops. world_simpl. rewrite <- !app_assoc. by rewrite drop_app_length.
Qed.



(** X5: the download of an object that does not exist ends the process
    with status 1 before the destination is touched: no directory is made,
    no file is created or emptied. *)
Theorem download_missing_object b n dst w :
  objects w !! (b, n) = None ->
  exists w',
    copyFileFromGcsToLocal b n dst w = Exited 1 w'
    /\ files w' = files w /\ objects w' = objects w /\ fds w' = fds w.
Proof.
  intros Hn. unfold copyFileFromGcsToLocal, storage_NewClient, object_NewReader.
  unfold_monad. world_simpl.
  destruct (faults w NewClient); [by eexists|]. cbn.
  destruct (faults w (NewReader b n)); [by eexists|]. rewrite Hn. by eexists.
Qed.

Lemma download_missing_object_witness :
  exists w',
    copyFileFromGcsToLocal "bkt" "dir/b.txt" "out/a.txt" one_object = Exited 1 w'
    /\ files w' = files one_object /\ objects w' = objects one_object
    /\ fds w' = fds one_object.
Proof. apply (download_missing_object "bkt" "dir/b.txt" "out/a.txt" one_object). reflexivity. Defined.


(** * Uploads *)

Lemma io_Copy_upload fd b n buf w l data :
  quiet w -> fds w !! fd = Some l -> files w !! l = Some (File data) ->
  io_Copy (ObjectWriter b n buf) (FileReader fd) w
  = Returned (ObjectWriter b n (buf ++ data), None)
      (add_trace (Copy (LocalFile l) (Object b n)) w).
Proof.
  intros Hq Hfd Hl. unfold io_Copy, reader_endpoint, writer_endpoint,
    read_all, write_all. unfold_monad. world_simpl.
  rewrite Hfd. simpl. world_simpl. by rewrite Hfd, Hl, Hq.
Qed.

Lemma writer_Close_ok b n buf w :
  quiet w ->
  writer_Close b n buf w
  = Returned None (set_objects (<[(b, n) := buf]> (objects w))
                     (add_trace (Upload b n) w)).
Proof. intros Hq. unfold writer_Close. unfold_monad. world_simpl. by rewrite Hq. Qed.

Lemma copyFileFromLocalToGcs_ok src b key w data :
  quiet w -> src <> "" ->
  lookup_node (files w) (resolve src) = Some (File data) ->
  copyFileFromLocalToGcs src b key w
  = Returned tt
      (add_trace CloseClient
         (set_objects (<[(b, key) := data]> (objects w))
            (add_trace (Upload b key)
               (add_trace (Copy (LocalFile (resolve src)) (Object b key))
                  (add_log (Line ("Copying from " +:+ quoted src +:+ " to "
                                  +:+ quoted (gs_url b key)))
                     (set_fds (<[fresh (dom (fds w)) := resolve src]> (fds w))
                        (add_trace (Open src) (add_trace NewClient w)))))))).
Proof.
  intros Hq Hsrc Hdata.
  assert (Hfile : files w !! resolve src = Some (File data)).
  { unfold lookup_node in Hdata. by destruct (is_anchor _). }
  unfold copyFileFromLocalToGcs, object_NewWriter.
  erewrite bind_Returned; [|apply must_ok, storage_NewClient_ok, Hq].
  erewrite bind_Returned; [|apply must_ok; by eapply os_Open_ok].
  erewrite bind_Returned; [|reflexivity].
  erewrite bind_Returned;
    [|eapply (io_Copy_upload _ _ _ _ _ (resolve src) data); try done;
      world_simpl; apply lookup_insert_eq].
  erewrite bind_Returned; [|reflexivity].
  erewrite bind_Returned; [|apply check_ok; by apply writer_Close_ok].
  reflexivity.
Qed.



(** X7: what the walk of an upload does with one entry.  For an entry at the
    relative path [rel] under the source root, a directory (and the root
    itself) is passed over without any operation; a file is uploaded to the
    object whose name is the destination prefix, a slash unless the prefix
    ends in one, and the relative path. *)
Theorem upload_entry_destination srcPath dstBucket dstPath path rel :
  resolve path = at_path (resolve srcPath) rel ->
  (forall w,
     copyFromLocalToGcs_walkFn srcPath dstBucket dstPath path
       (Some {| IsDir := true |}) None w = Returned None w)
  /\ (rel = [] ->
      forall info w,
        copyFromLocalToGcs_walkFn srcPath dstBucket dstPath path info None w
        = Returned None w)
  /\ (names_ok rel -> rel <> [] ->
      copyFromLocalToGcs_walkFn srcPath dstBucket dstPath path
        (Some {| IsDir := false |}) None
      = (copyFileFromLocalToGcs path dstBucket
           (if strings_HasSuffix_slash dstPath
            then dstPath +:+ join_slash rel
            else dstPath +:+ "/" +:+ join_slash rel);;
         mret None)).
Proof.
  intros Hres. pose proof (Rel_below srcPath path rel Hres) as Hrel.
  split; [|split].
  - intros w. unfold copyFromLocalToGcs_walkFn. rewrite Hrel.
    unfold_monad. simpl. by rewrite andb_false_r.
  - intros -> info w. unfold copyFromLocalToGcs_walkFn. rewrite Hrel.
    unfold_monad. by simpl.
  - intros Hn Hne. unfold copyFromLocalToGcs_walkFn. rewrite Hrel.
    assert (Hdot : String.eqb (join_slash rel) "." = false)
      by by apply String.eqb_neq, join_names_not_dot.
    destruct rel as [|x rel]; [done|].
    unfold must, check, rel_result, info_IsDir, under_prefix.
    unfold mbind, M_bind, mret, M_ret. cbn [IsDir negb andb].
    rewrite Hdot. cbn [negb andb].
    destruct (strings_HasSuffix_slash dstPath); cbn [negb];
      by rewrite ?append_assoc.
Qed.

Lemma upload_entry_destination_witness :
  (forall w,
     copyFromLocalToGcs_walkFn "a" "bkt" "backup" "a/sub/2.txt"
       (Some {| IsDir := true |}) None w = Returned None w)
  /\ (["sub"; "2.txt"] = [] ->
      forall info w,
        copyFromLocalToGcs_walkFn "a" "bkt" "backup" "a/sub/2.txt" info None w
        = Returned None w)
  /\ (names_ok ["sub"; "2.txt"] -> ["sub"; "2.txt"] <> [] ->
      copyFromLocalToGcs_walkFn "a" "bkt" "backup" "a/sub/2.txt"
        (Some {| IsDir := false |}) None
      = (copyFileFromLocalToGcs "a/sub/2.txt" "bkt"
           (if strings_HasSuffix_slash "backup"
            then "backup" +:+ join_slash ["sub"; "2.txt"]
            else "backup" +:+ "/" +:+ join_slash ["sub"; "2.txt"]);;
         mret None)).
Proof.
  apply (upload_entry_destination "a" "bkt" "backup" "a/sub/2.txt" ["sub"; "2.txt"]).
  reflexivity.
Defined.


(** * A file copied onto a directory *)

Lemma mkdir_all_there rooted rev_elems fs :
  lookup_node fs (rooted, rev rev_elems) = Some Dir ->
  mkdir_all rooted rev_elems fs = Some fs.
Proof. intros H. destruct rev_elems; cbn [mkdir_all rev] in *; by rewrite H. Qed.

Lemma os_OpenFile_on_directory p w :
  lookup_node (files w) (resolve p) = Some Dir ->
  os_OpenFile p w = Returned (inr (IOError (Create p))) (add_trace (Create p) w).
Proof.
  intros Hd. unfold os_OpenFile. unfold_monad. world_simpl. rewrite Hd.
  by destruct (_ || _).
Qed.




(** * Copying a prefix within the object store *)

Lemma append_inj_r (a r r' : string) : a +:+ r = a +:+ r' -> r = r'.
Proof. induction a as [|c a IH]; sapp; [done|]. intros [= H]. by apply IH. Qed.

Lemma append_longer (a r : string) : r <> "" -> a +:+ r <> a.
Proof.
  intros Hr H. apply (f_equal String.length) in H. rewrite length_append in H.
  destruct r; [done|]. simpl in H. lia.
Qed.

Lemma under_prefix_inj d r r' : under_prefix d r = under_prefix d r' -> r = r'.
Proof. unfold under_prefix. apply append_inj_r. Qed.

Lemma under_prefix_longer d r : r <> "" -> under_prefix d r <> d.
Proof.
  intros Hr. unfold under_prefix.
  destruct (strings_HasSuffix_slash d); cbn [negb].
  - by apply append_longer.
  - rewrite append_assoc. apply append_longer. by destruct r.
Qed.

Lemma remote_destination_inj p d n n' :
  String.prefix p n = true -> String.prefix p n' = true ->
  remote_destination p d n = remote_destination p d n' -> n = n'.
Proof.
  intros (r & -> & Hr)%prefix_slice (r' & -> & Hr')%prefix_slice.
  unfold remote_destination. rewrite Hr, Hr'.
  destruct (String.eqb_spec r "") as [->|Hn];
    destruct (String.eqb_spec r' "") as [->|Hn']; try done.
  - intros H. symmetry in H. by apply under_prefix_longer in H.
  - intros H. by apply under_prefix_longer in H.
  - by intros ->%under_prefix_inj.
Qed.

Lemma elem_of_listing (o : gmap (string * string) bytes) b pre n :
  n ∈ merge_sort string_le (omap (listed b pre) (map_to_list o).*1)
  <-> listed_in o b pre n.
Proof.
  rewrite merge_sort_Permutation, list_elem_of_omap. unfold listed_in. split.
  - intros (k & Hk & [-> Hp]%listed_Some). split; [done|].
    apply list_elem_of_fmap in Hk as ([k v] & Hkv & Hin). simpl in Hkv. subst k.
    apply elem_of_map_to_list in Hin. by exists v.
  - intros [Hp [v Hv]]. exists (b, n). split; [|by apply listed_Some].
    apply list_elem_of_fmap. exists ((b, n), v). split; [done|].
    by apply elem_of_map_to_list.
Qed.

Lemma NoDup_listing (o : gmap (string * string) bytes) b pre :
  NoDup (merge_sort string_le (omap (listed b pre) (map_to_list o).*1)).
Proof.
  rewrite merge_sort_Permutation.
  apply NoDup_omap_inj; [|apply NoDup_fst_map_to_list].
  intros x y n [-> _]%listed_Some [-> _]%listed_Some. done.
Qed.

Lemma list_objects_ok b pre w :
  quiet w ->
  list_objects b pre w
  = Returned (inl (merge_sort string_le
                     (omap (listed b pre) (map_to_list (objects w)).*1)))
      (add_trace (ListObjects b pre) w).
Proof. intros Hq. unfold list_objects. unfold_monad. world_simpl. by rewrite Hq. Qed.

Lemma copier_Run_ok sb sn db dn w data :
  quiet w -> objects w !! (sb, sn) = Some data ->
  copier_Run sb sn db dn w
  = Returned None (set_objects (<[(db, dn) := data]> (objects w))
                     (add_trace (ServerCopy sb sn db dn) w)).
Proof.
  intros Hq Hd. unfold copier_Run. unfold_monad. world_simpl. by rewrite Hq, Hd.
Qed.

Lemma copyFileFromGcsToGcs_ok sb sn db dn w data :
  quiet w -> objects w !! (sb, sn) = Some data ->
  exists w',
    copyFileFromGcsToGcs sb sn db dn w = Returned tt w'
    /\ objects w' = <[(db, dn) := data]> (objects w)
    /\ files w' = files w /\ fds w' = fds w /\ faults w' = faults w.
Proof.
  intros Hq Hd. unfold copyFileFromGcsToGcs.
  erewrite bind_Returned; [|apply must_ok, storage_NewClient_ok, Hq].
  erewrite bind_Returned; [|reflexivity].
  erewrite bind_Returned; [|apply check_ok; by eapply copier_Run_ok].
  by eexists.
Qed.

Lemma entry_is_copy sb p db dp n :
  String.prefix p n = true ->
  copyFromGcsToGcs_entry sb p db dp n
  = copyFileFromGcsToGcs sb n db (remote_destination p dp n).
Proof.
  intros (r & -> & Hr)%prefix_slice.
  unfold copyFromGcsToGcs_entry, remote_destination. rewrite Hr.
  by destruct (String.eqb r "").
Qed.

(** The loop, from the names [done] already copied to the names [names]
    still to copy. *)
Lemma remote_loop O0 sb p db dp :
  (forall n n', listed_in O0 sb p n -> listed_in O0 sb p n' ->
                (db, remote_destination p dp n) <> (sb, n')) ->
  forall names done w,
    NoDup (done ++ names) ->
    (forall n, n ∈ done ++ names -> listed_in O0 sb p n) ->
    copied_objects O0 sb p db dp done w ->
    exists w',
      for_each names (copyFromGcsToGcs_entry sb p db dp) w = Returned tt w'
      /\ copied_objects O0 sb p db dp (done ++ names) w'
      /\ files w' = files w /\ fds w' = fds w.
Proof.
  intros Hsep names. induction names as [|n names IH]; intros done w Hnd Hall Hc.
  - exists w. rewrite app_nil_r. done.
  - cbn [for_each].
    assert (Hn : listed_in O0 sb p n) by (apply Hall; set_solver).
    destruct Hc as (Hq & Hdone & Hrest).
    destruct Hn as [Hp [data Hdata]].
    assert (Hsrc : objects w !! (sb, n) = Some data).
    { rewrite Hrest; [done|]. intros n' Hn' Heq.
      eapply (Hsep n' n); [apply Hall; set_solver | by split; [|exists data] |].
      by symmetry. }
    rewrite entry_is_copy by done.
    destruct (copyFileFromGcsToGcs_ok sb n db (remote_destination p dp n) w data
                Hq Hsrc) as (w1 & Hrun & Ho & Hf & Hd & Hfa).
    rewrite (bind_Returned _ _ _ _ _ Hrun).
    destruct (IH (done ++ [n]) w1) as (w' & Hrun' & Hc' & Hf' & Hd').
    + by rewrite <- app_assoc.
    + intros n'. rewrite <- app_assoc. apply Hall.
    + split; [intros o; rewrite Hfa; apply Hq|]. split.
      * intros n' [Hn'|Hn']%elem_of_app;
          [|apply list_elem_of_singleton in Hn'; subst n'].
        -- rewrite Ho, lookup_insert_ne; [by apply Hdone|].
           intros [= Heq]. apply remote_destination_inj in Heq;
             [|done|apply Hall; set_solver]. subst n'.
           apply NoDup_app in Hnd as (_ & Hnd & _). apply (Hnd n Hn'). by left.
        -- by rewrite Ho, lookup_insert_eq.
      * intros k Hk. rewrite Ho, lookup_insert_ne.
        -- apply Hrest. intros n' Hn'. apply Hk. set_solver.
        -- intros Heq. by apply (Hk n); [set_solver|].
    + exists w'. rewrite <- app_assoc in Hc'. split; [done|]. split; [done|].
      split; congruence.
Qed.

(** X9: the copy of a prefix within the object store, when nothing fails and
    no copy lands on a listed source: it returns [nil]; the copy of every
    object listed under the source prefix holds the bytes of that object;
    every object that is not such a copy is as it was; and no local file or
    descriptor is involved. *)
Theorem remote_tree_copy srcBucket srcPath dstBucket dstPath w :
  quiet w ->
  (forall n n',
     listed_in (objects w) srcBucket srcPath n ->
     listed_in (objects w) srcBucket srcPath n' ->
     (dstBucket, remote_destination srcPath dstPath n) <> (srcBucket, n')) ->
  exists w',
    copyFromGcsToGcs srcBucket srcPath dstBucket dstPath w = Returned None w'
    /\ (forall n data,
          String.prefix srcPath n = true ->
          objects w !! (srcBucket, n) = Some data ->
          objects w' !! (dstBucket, remote_destination srcPath dstPath n)
          = Some data)
    /\ (forall k,
          (forall n, listed_in (objects w) srcBucket srcPath n ->
                     k <> (dstBucket, remote_destination srcPath dstPath n)) ->
          objects w' !! k = objects w !! k)
    /\ files w' = files w /\ fds w' = fds w.
Proof.
  intros Hq Hsep. unfold copyFromGcsToGcs.
  erewrite bind_Returned; [|apply must_ok, storage_NewClient_ok, Hq].
  erewrite bind_Returned; [|apply must_ok, list_objects_ok; intros o; apply Hq].
  world_simpl.
  set (names := merge_sort string_le _).
  set (w1 := add_trace _ (add_trace _ w)).
  destruct (remote_loop (objects w) srcBucket srcPath dstBucket dstPath Hsep
              names [] w1) as (w' & Hrun & (Hq' & Hdone & Hrest) & Hf & Hd).
  - apply NoDup_listing.
  - intros n Hn. by apply elem_of_listing in Hn.
  - split; [intros o; apply Hq|]. split; [by intros n ?%elem_of_nil | done].
  - exists w'. rewrite (bind_Returned _ _ _ _ _ Hrun). split; [done|].
    split; [|split; [|done]].
    + intros n data Hp Hdata. rewrite Hdone; [done|].
      apply elem_of_listing. split; [done|by exists data].
    + intros k Hk. apply Hrest. intros n Hn. apply Hk.
      by apply elem_of_listing in Hn.
Qed.

Lemma remote_tree_copy_witness :
  exists w',
    copyFromGcsToGcs "bkt" "dir/" "bkt" "copy" remote_tree = Returned None w'
    /\ (forall n data,
          String.prefix "dir/" n = true ->
          objects remote_tree !! ("bkt", n) = Some data ->
          objects w' !! ("bkt", remote_destination "dir/" "copy" n) = Some data)
    /\ (forall k,
          (forall n, listed_in (objects remote_tree) "bkt" "dir/" n ->
                     k <> ("bkt", remote_destination "dir/" "copy" n)) ->
          objects w' !! k = objects remote_tree !! k)
    /\ files w' = files remote_tree /\ fds w' = fds remote_tree.
Proof.
  apply (remote_tree_copy "bkt" "dir/" "bkt" "copy" remote_tree).
  - intros o. reflexivity.
  - intros n n' [Hp _] [Hp' _] [= Heq]. subst n'.
    apply prefix_slice in Hp as (r & -> & Hr).
    revert Hp'. unfold remote_destination. rewrite Hr.
    destruct (String.eqb r ""); vm_compute; discriminate.
Defined.


(** * The descriptors a run leaves open *)

Section Returns.
Context (R : world -> world -> Prop).
Context (R_refl : forall w, R w w).
Context (R_trans : forall w1 w2 w3, R w1 w2 -> R w2 w3 -> R w1 w3).
Context (R_log : forall e w, R w (add_log e w)).

Lemma returns_ret {A} (a : A) : returns R (mret a).
Proof. intros w a' w' [= _ <-]. apply R_refl. Qed.

Lemma returns_bind {A B} (m : M A) (f : A -> M B) :
returns R m -> (forall a, returns R (f a)) -> returns R (m ≫= f).
Proof.
intros Hm Hf w b w' (a & w1 & H1 & H2)%bind_Returned_inv.
eapply R_trans; [by eapply Hm | by eapply Hf].
Qed.

Lemma returns_never {A} (m : M A) :
(forall w a w', m w <> Returned a w') -> returns R m.
Proof. intros H w a w' Hrun. by destruct (H w a w'). Qed.

Lemma returns_log_Print msg : returns R (log_Print msg).
Proof. intros w a w' [= _ <-]. apply R_log. Qed.

Lemma returns_log_Println e : returns R (log_Println e).
Proof. intros w a w' [= _ <-]. apply R_log. Qed.

Lemma returns_must {A} (m : M (A + error)) : returns R m -> returns R (must m).
Proof.
intros Hm. apply returns_bind; [done|]. intros [a|e];
  [apply returns_ret | by apply returns_never].
Qed.

Lemma returns_check (m : M (option error)) : returns R m -> returns R (check m).
Proof.
intros Hm. apply returns_bind; [done|]. intros [e|];
  [by apply returns_never | apply returns_ret].
Qed.

Lemma returns_for_each {A} (l : list A) (body : A -> M unit) :
(forall x, returns R (body x)) -> returns R (for_each l body).
Proof.
intros Hb. induction l as [|x l IH]; [apply returns_ret|].
cbn [for_each]. apply returns_bind; [apply Hb | by intros _].
Qed.

Context (R_Stat : forall p, returns R (os_Stat p)).
Context (R_Lstat : forall p, returns R (os_Lstat p)).
Context (R_ReadDir : forall p, returns R (readDirNames p)).
Context (R_NewClient : returns R storage_NewClient).
Context (R_list : forall b pre, returns R (list_objects b pre)).
Context (R_LL : forall s d, returns R (copyFileFromLocalToLocal s d)).
Context (R_LG : forall s b d, returns R (copyFileFromLocalToGcs s b d)).
Context (R_GL : forall b s d, returns R (copyFileFromGcsToLocal b s d)).
Context (R_GG : forall sb s db d, returns R (copyFileFromGcsToGcs sb s db d)).

Lemma returns_walk_names walk_rec fn path names :
(forall p i e, returns R (fn p i e)) ->
(forall p i, returns R (walk_rec p i fn)) ->
returns R (walk_names walk_rec path fn names).
Proof.
intros Hfn Hrec. induction names as [|name names IH]; [apply returns_ret|].
cbn [walk_names]. apply returns_bind; [apply R_Lstat|]. intros [fi|e].
- apply returns_bind; [apply Hrec|]. intros [e'|]; [|done].
  destruct (_ || _); [apply returns_ret | done].
- apply returns_bind; [apply Hfn|]. intros [e'|]; [|done].
  destruct (is_SkipDir e'); [done | apply returns_ret].
Qed.

Lemma returns_walk fn fuel path info :
(forall p i e, returns R (fn p i e)) -> returns R (walk fuel path info fn).
Proof.
intros Hfn. revert path info.
induction fuel as [|fuel IH]; intros path info; [by apply returns_never|].
cbn [walk]. destruct (negb (IsDir info)); [apply Hfn|].
apply returns_bind; [apply R_ReadDir|]. intros r.
apply returns_bind; [apply Hfn|]. intros err1.
destruct r; [|apply returns_ret].
destruct err1; [apply returns_ret|].
by apply returns_walk_names.
Qed.

Lemma returns_Walk fn fuel root :
(forall p i e, returns R (fn p i e)) -> returns R (filepath_Walk fuel root fn).
Proof.
intros Hfn. unfold filepath_Walk. apply returns_bind; [apply R_Lstat|].
intros r. apply returns_bind.
- destruct r; [by apply returns_walk | apply Hfn].
- intros [e|]; [|apply returns_ret]. destruct (is_SkipDir e); apply returns_ret.
Qed.

Local Ltac returns_step :=
lazymatch goal with
| |- returns _ (mret _) => apply returns_ret
| |- returns _ (log_Print _) => apply returns_log_Print
| |- returns _ (log_Println _) => apply returns_log_Println
| |- returns _ go_panic => by apply returns_never
| |- returns _ (must _) => apply returns_must
| |- returns _ (check _) => apply returns_check
| |- returns _ (mbind _ _) => apply returns_bind; [|intros ?]
| |- returns _ (match ?x with _ => _ end) => destruct x
| |- returns _ _ => solve [auto]
end.

Lemma returns_walkFn_LL s d p i e : returns R (copyFromLocalToLocal_walkFn s d p i e).
Proof. unfold copyFromLocalToLocal_walkFn. repeat returns_step. Qed.

Lemma returns_walkFn_LG s b d p i e :
returns R (copyFromLocalToGcs_walkFn s b d p i e).
Proof. unfold copyFromLocalToGcs_walkFn. repeat returns_step. Qed.

Lemma returns_copyFromLocalToLocal fuel s d : returns R (copyFromLocalToLocal fuel s d).
Proof.
unfold copyFromLocalToLocal. repeat returns_step.
apply returns_Walk, returns_walkFn_LL.
Qed.

Lemma returns_copyFromLocalToGcs fuel s b d :
returns R (copyFromLocalToGcs fuel s b d).
Proof.
unfold copyFromLocalToGcs. repeat returns_step.
apply returns_Walk, returns_walkFn_LG.
Qed.

Lemma returns_copyFromGcsToLocal b s d : returns R (copyFromGcsToLocal b s d).
Proof.
unfold copyFromGcsToLocal. repeat returns_step.
apply returns_for_each. intros name.
unfold copyFromGcsToLocal_entry. repeat returns_step.
Qed.

Lemma returns_copyFromGcsToGcs sb s db d : returns R (copyFromGcsToGcs sb s db d).
Proof.
unfold copyFromGcsToGcs. repeat returns_step.
apply returns_for_each. intros name.
unfold copyFromGcsToGcs_entry. repeat returns_step.
Qed.

Lemma returns_main fuel program args : returns R (main fuel program args).
Proof.
unfold main. destruct (Nat.ltb _ _); [by apply returns_never|].
repeat returns_step.
all: lazymatch goal with
     | |- _ (copyFromGcsToGcs _ _ _ _) => apply returns_copyFromGcsToGcs
     | |- _ (copyFromGcsToLocal _ _ _) => apply returns_copyFromGcsToLocal
     | |- _ (copyFromLocalToGcs _ _ _ _) => apply returns_copyFromLocalToGcs
     | |- _ (copyFromLocalToLocal _ _ _) => apply returns_copyFromLocalToLocal
     end.
Qed.
End Returns.

(** ** What one operation does to the trace and to the descriptors *)

Ltac effect_prim :=
  intros; unfold_monad; world_simpl; repeat case_match; simplify_eq/=; done.

Lemma effect_Stat p w r w' :
  os_Stat p w = Returned r w' -> trace w' = trace w ++ [Stat p] /\ fds w' = fds w.
Proof. unfold os_Stat. effect_prim. Qed.
Lemma effect_Lstat p w r w' :
  os_Lstat p w = Returned r w' -> trace w' = trace w ++ [Lstat p] /\ fds w' = fds w.
Proof. unfold os_Lstat. effect_prim. Qed.
Lemma effect_ReadDir p w r w' :
  readDirNames p w = Returned r w' ->
  trace w' = trace w ++ [ReadDir p] /\ fds w' = fds w.
Proof. unfold readDirNames. effect_prim. Qed.
Lemma effect_Open p w fd w' :
  os_Open p w = Returned (inl fd) w' ->
  trace w' = trace w ++ [Open p]
  /\ fd = fresh (dom (fds w)) /\ fds w' = <[fd := resolve p]> (fds w).
Proof. unfold os_Open. effect_prim. Qed.
Lemma effect_MkdirAll p w r w' :
  os_MkdirAll p w = Returned r w' ->
  trace w' = trace w ++ [MkdirAll p] /\ fds w' = fds w.
Proof. unfold os_MkdirAll. effect_prim. Qed.
Lemma effect_OpenFile p w fd w' :
  os_OpenFile p w = Returned (inl fd) w' ->
  trace w' = trace w ++ [Create p]
  /\ fd = fresh (dom (fds w)) /\ fds w' = <[fd := resolve p]> (fds w).
Proof. unfold os_OpenFile. effect_prim. Qed.
Lemma effect_Sync fd w r w' :
  file_Sync fd w = Returned r w' -> trace w' = trace w ++ [Sync fd] /\ fds w' = fds w.
Proof. unfold file_Sync. effect_prim. Qed.
Lemma effect_NewClient w r w' :
  storage_NewClient w = Returned r w' ->
  trace w' = trace w ++ [NewClient] /\ fds w' = fds w.
Proof. unfold storage_NewClient. effect_prim. Qed.
Lemma effect_client_Close w r w' :
  client_Close w = Returned r w' ->
  trace w' = trace w ++ [CloseClient] /\ fds w' = fds w.
Proof. unfold client_Close. effect_prim. Qed.
Lemma effect_list b pre w r w' :
  list_objects b pre w = Returned r w' ->
  trace w' = trace w ++ [ListObjects b pre] /\ fds w' = fds w.
Proof. unfold list_objects. effect_prim. Qed.
Lemma effect_NewReader b n w r w' :
  object_NewReader b n w = Returned r w' ->
  trace w' = trace w ++ [NewReader b n] /\ fds w' = fds w.
Proof. unfold object_NewReader. effect_prim. Qed.
Lemma effect_reader_Close b n w r w' :
  reader_Close b n w = Returned r w' ->
  trace w' = trace w ++ [CloseReader b n] /\ fds w' = fds w.
Proof. unfold reader_Close. effect_prim. Qed.
Lemma effect_writer_Close b n buf w r w' :
  writer_Close b n buf w = Returned r w' ->
  trace w' = trace w ++ [Upload b n] /\ fds w' = fds w.
Proof. unfold writer_Close. effect_prim. Qed.
Lemma effect_copier_Run sb sn db dn w r w' :
  copier_Run sb sn db dn w = Returned r w' ->
  trace w' = trace w ++ [ServerCopy sb sn db dn] /\ fds w' = fds w.
Proof. unfold copier_Run. effect_prim. Qed.

Lemma effect_Close fd w r w' :
  file_Close fd w = Returned r w' ->
  trace w' = trace w ++ [Close fd] /\ fds w' = delete fd (fds w).
Proof.
  unfold file_Close. unfold_monad. world_simpl. intros H.
  destruct (fds w !! fd) eqn:E; repeat case_match; simplify_eq/=; try done.
  split; [done|]. symmetry. by apply delete_id.
Qed.

(** A transfer that reports no error has been performed once, and it read a
    local file exactly if its source is a descriptor. *)
Lemma effect_io_Copy dst src w r w' :
  io_Copy dst src w = Returned r w' -> r.2 = None ->
  exists s d,
    trace w' = trace w ++ [Copy s d] /\ fds w' = fds w
    /\ reads_local (Copy s d)
       = match src with FileReader _ => true | ObjectReader _ _ _ => false end.
Proof.
  unfold io_Copy, reader_endpoint, writer_endpoint, write_all.
  unfold_monad. world_simpl. intros H Hr.
  destruct src as [sfd|sb sn data]; cbn in H.
  - destruct (fds w !! sfd) as [ls|]; cbn in H; [|by simplify_eq/=].
    repeat case_match; simplify_eq/=; by eexists _, _.
  - repeat case_match; simplify_eq/=; by eexists _, _.
Qed.

(** ** The four transfers *)

Lemma leaks_refl w : leaks w w.
Proof. exists []. by rewrite app_nil_r, Nat.add_0_r. Qed.

Lemma local_reads_app t1 t2 : local_reads (t1 ++ t2) = local_reads t1 + local_reads t2.
Proof. unfold local_reads. by rewrite List.filter_app, length_app. Qed.

Lemma leaks_trans w1 w2 w3 : leaks w1 w2 -> leaks w2 w3 -> leaks w1 w3.
Proof.
  intros (t1 & T1 & S1) (t2 & T2 & S2). exists (t1 ++ t2). split.
  - by rewrite T2, T1, app_assoc.
  - rewrite local_reads_app. lia.
Qed.

Lemma leaks_log e w : leaks w (add_log e w).
Proof. exists []. simpl. by rewrite app_nil_r, Nat.add_0_r. Qed.

Lemma leaks_quiet_op o w w' :
  trace w' = trace w ++ [o] /\ fds w' = fds w -> reads_local o = false ->
  leaks w w'.
Proof.
  intros [Ht Hf] Ho. exists [o]. split; [done|].
  unfold local_reads. simpl. rewrite Ho, Hf. simpl. lia.
Qed.

Lemma size_insert_fresh (d : gmap nat location) l :
  size (<[fresh (dom d) := l]> d) = S (size d).
Proof. apply map_size_insert_None, not_elem_of_dom, is_fresh. Qed.

Lemma local_reads_one o : local_reads [o] = if reads_local o then 1 else 0.
Proof. unfold local_reads. simpl. by destruct (reads_local o). Qed.

Lemma io_Copy_object_writer b n buf src w r w' :
  io_Copy (ObjectWriter b n buf) src w = Returned r w' ->
  exists buf', r.1 = ObjectWriter b n buf'.
Proof.
  unfold io_Copy, write_all, writer_endpoint. unfold_monad. world_simpl.
  intros H. repeat case_match; simplify_eq/=; by eexists.
Qed.

Ltac leaks_count :=
  rewrite ?local_reads_app, ?local_reads_one;
  repeat match goal with H : reads_local _ = _ |- _ => rewrite H end;
  cbn [reads_local]; lia.

Lemma leaks_LL s d : returns leaks (copyFileFromLocalToLocal s d).
Proof.
  intros w u w'. unfold copyFileFromLocalToLocal.
  intros (fd & w1 & H1%must_Returned_inv & H)%bind_Returned_inv.
  apply effect_Open in H1 as (T1 & -> & F1).
  apply bind_Returned_inv in H as (u2 & w2 & H2%check_Returned_inv & H).
  apply effect_MkdirAll in H2 as [T2 F2].
  apply bind_Returned_inv in H as (fd' & w3 & H3%must_Returned_inv & H).
  apply effect_OpenFile in H3 as (T3 & -> & F3).
  apply bind_Returned_inv in H as (u4 & w4 & H4 & H).
  injection H4 as _ <-.
  apply bind_Returned_inv in H as (r & w5 & H5 & H).
  apply bind_Returned_inv in H as (u6 & w6 & H6%check_Returned_inv & H).
  injection H6 as Hr <-.
  apply effect_io_Copy in H5 as (cs & cd & T5 & F5 & L5); [|done].
  world_simpl.
  apply check_Returned_inv, effect_Close in H as [T6 F6].
  exists ([Open s] ++ [MkdirAll (filepath_Dir d)] ++ [Create d]
          ++ [Copy cs cd] ++ [Close (fresh (dom (fds w2)))]).
  split.
  { rewrite T6, T5, T3, T2, T1. by rewrite <- !app_assoc. }
  rewrite F6, F5, F3, F2, F1.
  rewrite delete_insert_id by apply not_elem_of_dom, is_fresh.
  rewrite size_insert_fresh. leaks_count.
Qed.

Lemma leaks_LG s b d : returns leaks (copyFileFromLocalToGcs s b d).
Proof.
  intros w u w'. unfold copyFileFromLocalToGcs, object_NewWriter.
  intros (u1 & w1 & H1%must_Returned_inv & H)%bind_Returned_inv.
  apply effect_NewClient in H1 as [T1 F1].
  apply bind_Returned_inv in H as (fd & w2 & H2%must_Returned_inv & H).
  apply effect_Open in H2 as (T2 & -> & F2).
  apply bind_Returned_inv in H as (u3 & w3 & H3 & H).
  injection H3 as _ <-.
  apply bind_Returned_inv in H as (r & w4 & H4 & H).
  apply bind_Returned_inv in H as (u5 & w5 & H5%check_Returned_inv & H).
  injection H5 as Hr <-.
  destruct (io_Copy_object_writer _ _ _ _ _ _ _ H4) as [buf' Hw].
  apply effect_io_Copy in H4 as (cs & cd & T4 & F4 & L4); [|done].
  world_simpl.
  apply bind_Returned_inv in H as (u6 & w6 & H6%check_Returned_inv & H).
  rewrite Hw in H6. apply effect_writer_Close in H6 as [T6 F6].
  apply effect_client_Close in H as [T7 F7].
  exists ([NewClient] ++ [Open s] ++ [Copy cs cd] ++ [Upload b d] ++ [CloseClient]).
  split.
  { rewrite T7, T6, T4, T2, T1. by rewrite <- !app_assoc. }
  rewrite F7, F6, F4, F2, F1. rewrite size_insert_fresh. leaks_count.
Qed.

Lemma leaks_GL b s d : returns leaks (copyFileFromGcsToLocal b s d).
Proof.
  intros w u w'. unfold copyFileFromGcsToLocal.
  intros (u1 & w1 & H1%must_Returned_inv & H)%bind_Returned_inv.
  apply effect_NewClient in H1 as [T1 F1].
  apply bind_Returned_inv in H as (u2 & w2 & H2 & H).
  injection H2 as _ <-.
  apply bind_Returned_inv in H as (rd & w3 & H3%must_Returned_inv & H).
  assert (exists data, rd = ObjectReader b s data) as [data ->].
  { revert H3. unfold object_NewReader. unfold_monad. world_simpl.
    intros H3. repeat case_match; simplify_eq/=. by eexists. }
  apply effect_NewReader in H3 as [T3 F3]. world_simpl.
  apply bind_Returned_inv in H as (u4 & w4 & H4%check_Returned_inv & H).
  apply effect_MkdirAll in H4 as [T4 F4].
  apply bind_Returned_inv in H as (fd & w5 & H5%must_Returned_inv & H).
  apply effect_OpenFile in H5 as (T5 & -> & F5).
  apply bind_Returned_inv in H as (r & w6 & H6 & H).
  apply bind_Returned_inv in H as (u7 & w7 & H7%check_Returned_inv & H).
  injection H7 as Hr <-.
  apply effect_io_Copy in H6 as (cs & cd & T6 & F6 & L6); [|done].
  apply bind_Returned_inv in H as (u8 & w8 & H8%check_Returned_inv & H).
  apply effect_Sync in H8 as [T8 F8].
  apply bind_Returned_inv in H as (u9 & w9 & H9 & H).
  apply effect_Close in H9 as [T9 F9].
  apply effect_reader_Close in H as [T10 F10].
  exists ([NewClient] ++ [NewReader b s] ++ [MkdirAll (filepath_Dir d)]
          ++ [Create d] ++ [Copy cs cd] ++ [Sync (fresh (dom (fds w4)))]
          ++ [Close (fresh (dom (fds w4)))] ++ [CloseReader b s]).
  split.
  { rewrite T10, T9, T8, T6, T5, T4, T3, T1. by rewrite <- !app_assoc. }
  rewrite F10, F9, F8, F6, F5, F4, F3, F1.
  rewrite delete_insert_id by apply not_elem_of_dom, is_fresh. leaks_count.
Qed.

Lemma leaks_GG sb s db d : returns leaks (copyFileFromGcsToGcs sb s db d).
Proof.
  intros w u w'. unfold copyFileFromGcsToGcs.
  intros (u1 & w1 & H1%must_Returned_inv & H)%bind_Returned_inv.
  apply effect_NewClient in H1 as [T1 F1].
  apply bind_Returned_inv in H as (u2 & w2 & H2 & H).
  injection H2 as _ <-.
  apply bind_Returned_inv in H as (u3 & w3 & H3%check_Returned_inv & H).
  apply effect_copier_Run in H3 as [T3 F3].
  apply effect_client_Close in H as [T4 F4]. world_simpl.
  exists ([NewClient] ++ [ServerCopy sb s db d] ++ [CloseClient]).
  split.
  { rewrite T4, T3, T1. by rewrite <- !app_assoc. }
  rewrite F4, F3, F1. leaks_count.
Qed.



(** On [sample_tree], two files were copied and two descriptors stay open. *)
Example sample_tree_descriptors :
  size (fds sample_tree) = 0 /\ size (fds sample_tree_copied) = 2.
Proof. split; vm_compute; reflexivity. Qed.


(** * Each copy stays on its side *)

Lemma local_only_refl w : local_only w w.
Proof. split; [|done]. exists []. by rewrite app_nil_r. Qed.

Lemma local_only_trans w1 w2 w3 :
  local_only w1 w2 -> local_only w2 w3 -> local_only w1 w3.
Proof.
  intros [(t1 & T1 & L1) O1] [(t2 & T2 & L2) O2]. split; [|congruence].
  exists (t1 ++ t2). split; [by rewrite T2, T1, app_assoc|].
  rewrite forallb_app. by rewrite L1, L2.
Qed.

Lemma local_only_log e w : local_only w (add_log e w).
Proof. split; [|done]. exists []. simpl. by rewrite app_nil_r. Qed.

Lemma local_only_one o w w' :
  is_local_op o = true -> trace w' = trace w ++ [o] -> objects w' = objects w ->
  local_only w w'.
Proof. intros Ho Ht Hob. split; [|done]. exists [o]. simpl. by rewrite Ho. Qed.

Lemma remote_only_refl w : remote_only w w.
Proof. split; [|done]. exists []. by rewrite app_nil_r. Qed.

Lemma remote_only_trans w1 w2 w3 :
  remote_only w1 w2 -> remote_only w2 w3 -> remote_only w1 w3.
Proof.
  intros [(t1 & T1 & L1) [F1 D1]] [(t2 & T2 & L2) [F2 D2]].
  split; [|split; congruence].
  exists (t1 ++ t2). split; [by rewrite T2, T1, app_assoc|].
  rewrite forallb_app. by rewrite L1, L2.
Qed.

Lemma remote_only_log e w : remote_only w (add_log e w).
Proof. split; [|done]. exists []. simpl. by rewrite app_nil_r. Qed.

Lemma remote_only_one o w w' :
  is_remote_op o = true -> trace w' = trace w ++ [o] ->
  files w' = files w -> fds w' = fds w -> remote_only w w'.
Proof. intros Ho Ht Hf Hd. split; [|done]. exists [o]. simpl. by rewrite Ho. Qed.

Ltac local_prim o :=
  run_prim; try apply local_only_refl; by apply (local_only_one o).

Lemma local_only_Stat p : stable local_only (os_Stat p).
Proof. unfold os_Stat. local_prim (Stat p). Qed.
Lemma local_only_Lstat p : stable local_only (os_Lstat p).
Proof. unfold os_Lstat. local_prim (Lstat p). Qed.
Lemma local_only_ReadDir p : stable local_only (readDirNames p).
Proof. unfold readDirNames. local_prim (ReadDir p). Qed.
Lemma local_only_Open p : stable local_only (os_Open p).
Proof. unfold os_Open. local_prim (Open p). Qed.
Lemma local_only_MkdirAll p : stable local_only (os_MkdirAll p).
Proof. unfold os_MkdirAll. local_prim (MkdirAll p). Qed.
Lemma local_only_OpenFile p : stable local_only (os_OpenFile p).
Proof. unfold os_OpenFile. local_prim (Create p). Qed.
Lemma local_only_Close fd : stable local_only (file_Close fd).
Proof. unfold file_Close. local_prim (Close fd). Qed.

Lemma local_only_io_Copy fd_d fd_s :
  stable local_only (io_Copy (FileWriter fd_d) (FileReader fd_s)).
Proof.
  unfold io_Copy, reader_endpoint, writer_endpoint, read_all, write_all.
  intros w. unfold_monad. world_simpl.
  destruct (fds w !! fd_s) as [ls|]; cbn; [|apply local_only_refl].
  destruct (fds w !! fd_d) as [ld|]; cbn; [|apply local_only_refl].
  repeat case_match; simplify_eq/=;
    by apply (local_only_one (Copy (LocalFile ls) (LocalFile ld))).
Qed.

Ltac local_step :=
  lazymatch goal with
  | |- stable _ (mret _) => apply stable_ret, local_only_refl
  | |- stable _ (log_Print _) => apply stable_log_Print, local_only_log
  | |- stable _ (log_Println _) => apply stable_log_Println, local_only_log
  | |- stable _ (must _) =>
      apply stable_must;
      [apply local_only_refl | apply local_only_trans | apply local_only_log |]
  | |- stable _ (check _) =>
      apply stable_check;
      [apply local_only_refl | apply local_only_trans | apply local_only_log |]
  | |- stable _ (mbind _ _) =>
      apply stable_bind; [apply local_only_trans | | intros ?]
  | |- stable _ (match ?x with _ => _ end) => destruct x
  | |- stable _ (os_Stat _) => apply local_only_Stat
  | |- stable _ (os_Open _) => apply local_only_Open
  | |- stable _ (os_MkdirAll _) => apply local_only_MkdirAll
  | |- stable _ (os_OpenFile _) => apply local_only_OpenFile
  | |- stable _ (file_Close _) => apply local_only_Close
  | |- stable _ (io_Copy (FileWriter _) (FileReader _)) => apply local_only_io_Copy
  end.

Lemma local_only_copyFile s d : stable local_only (copyFileFromLocalToLocal s d).
Proof. unfold copyFileFromLocalToLocal. repeat local_step. Qed.

Lemma local_only_walkFn s d p i e :
  stable local_only (copyFromLocalToLocal_walkFn s d p i e).
Proof.
  unfold copyFromLocalToLocal_walkFn. repeat local_step.
  apply local_only_copyFile.
Qed.

Lemma local_only_copyFromLocalToLocal fuel s d :
  stable local_only (copyFromLocalToLocal fuel s d).
Proof.
  unfold copyFromLocalToLocal. repeat local_step.
  - apply local_only_copyFile.
  - apply stable_Walk;
      [apply local_only_refl | apply local_only_trans | apply local_only_Lstat
      | apply local_only_ReadDir | apply local_only_walkFn].
Qed.

Ltac remote_prim o :=
  run_prim; try apply remote_only_refl; by apply (remote_only_one o).

Lemma remote_only_copyFromGcsToGcs sb s db d :
  stable remote_only (copyFromGcsToGcs sb s db d).
Proof.
  apply stable_copyFromGcsToGcs.
  - apply remote_only_refl.
  - apply remote_only_trans.
  - apply remote_only_log.
  - unfold storage_NewClient. remote_prim NewClient.
  - unfold client_Close. remote_prim CloseClient.
  - intros b pre. unfold list_objects. remote_prim (ListObjects b pre).
  - intros sb' sn db' dn. unfold copier_Run.
    remote_prim (ServerCopy sb' sn db' dn).
Qed.

(** X11: each copy between two places of the same kind stays on its side.
    With two local arguments [main] performs no operation on the object
    store, not even the creation of a client, and leaves the objects as they
    were; with two remote arguments it performs no operation on the local
    file system and leaves the files and the descriptors as they were. This
    holds for every run that ends, also one that [log.Fatal] ends. *)
Theorem copy_stays_on_its_side fuel program from to w w' :
  final_world (main fuel program [from; to] w) = Some w' ->
  (is_nil (splitGcsPath from).2 = false -> is_nil (splitGcsPath to).2 = false ->
   forallb is_local_op (new_ops w w') = true /\ objects w' = objects w)
  /\ (is_nil (splitGcsPath from).2 = true -> is_nil (splitGcsPath to).2 = true ->
      forallb is_remote_op (new_ops w w') = true
      /\ files w' = files w /\ fds w' = fds w).
Proof.
  intros Hrun. split; intros H1 H2.
  - assert (local_only w w') as [(t & Ht & Hl) Ho]; [|by rewrite (new_ops_app w w' t)].
    revert Hrun. apply (stable_final local_only). clear w w'.
    unfold main. cbn [length Nat.ltb Nat.leb nth].
    destruct (splitGcsPath from) as [[fromBkt fromObj] err1].
    destruct (splitGcsPath to) as [[toBkt toObj] err2].
    simpl in H1, H2. rewrite H1, H2.
    repeat local_step. apply local_only_copyFromLocalToLocal.
  - assert (remote_only w w') as [(t & Ht & Hl) Ho]; [|by rewrite (new_ops_app w w' t)].
    revert Hrun. apply (stable_final remote_only). clear w w'.
    unfold main. cbn [length Nat.ltb Nat.leb nth].
    destruct (splitGcsPath from) as [[fromBkt fromObj] err1].
    destruct (splitGcsPath to) as [[toBkt toObj] err2].
    simpl in H1, H2. rewrite H1, H2.
    apply stable_bind; [apply remote_only_trans | | intros ?].
    { apply stable_log_Print, remote_only_log. }
    apply stable_bind; [apply remote_only_trans | | intros ?].
    { apply stable_log_Print, remote_only_log. }
    apply stable_bind; [apply remote_only_trans | | intros ?].
    { apply stable_bind; [apply remote_only_trans | | intros ?].
      - apply remote_only_copyFromGcsToGcs.
      - apply stable_ret, remote_only_refl. }
    apply stable_log_Print, remote_only_log.
Qed.

Lemma copy_stays_on_its_side_witness :
  (is_nil (splitGcsPath "a").2 = false -> is_nil (splitGcsPath "dst").2 = false ->
   forallb is_local_op (new_ops sample_tree sample_tree_copied) = true
   /\ objects sample_tree_copied = objects sample_tree)
  /\ (is_nil (splitGcsPath "a").2 = true -> is_nil (splitGcsPath "dst").2 = true ->
      forallb is_remote_op (new_ops sample_tree sample_tree_copied) = true
      /\ files sample_tree_copied = files sample_tree
      /\ fds sample_tree_copied = fds sample_tree).
Proof.
  apply (copy_stays_on_its_side 5 "gcs_copy" "a" "dst" sample_tree sample_tree_copied).
  vm_compute. reflexivity.
Defined.


(** * Downloading a prefix *)

Lemma append_empty_r (a : string) : a +:+ "" = a.
Proof. induction a as [|c a IH]; sapp; [done|]. by rewrite IH. Qed.

Lemma entry_is_download sb p d n :
  String.prefix p n = true ->
  copyFromGcsToLocal_entry sb p d n
  = copyFileFromGcsToLocal sb n (local_destination p d n).
Proof.
  intros (r & -> & Hr)%prefix_slice.
  unfold copyFromGcsToLocal_entry, local_destination. rewrite Hr.
  by destruct (String.eqb r "").
Qed.

(** Below the prefix itself, the path of a download is a cleaned path. *)
Lemma local_destination_clean p d n :
  String.prefix p n = true -> n <> p ->
  exists x, local_destination p d n = filepath_Clean x.
Proof.
  intros (r & -> & Hr)%prefix_slice Hne.
  unfold local_destination. rewrite Hr.
  destruct (String.eqb_spec r "") as [->|Hn].
  - by rewrite append_empty_r in Hne.
  - cbn [filepath_Join]. destruct (String.eqb d "").
    + apply String.eqb_neq in Hn. rewrite Hn. by eexists.
    + by eexists.
Qed.

Lemma not_anchor_last r es :
  clean_form r es -> is_anchor (r, es) = false ->
  exists es' n, es = es' ++ [n] /\ clean_form r es' /\ is_name n = true.
Proof.
  intros (k & names & -> & Hn & Hk) Ha.
  destruct names as [|x names _] using rev_ind.
  - exfalso. rewrite app_nil_r in Ha. unfold is_anchor, dotdots in Ha.
    cbn [snd] in Ha. apply not_true_iff_false in Ha. apply Ha.
    apply forallb_forall. intros e ->%repeat_spec. done.
  - apply Forall_app in Hn as [Hn Hx]. inversion Hx; subst.
    exists (dotdots k ++ names), x. split; [by rewrite app_assoc|].
    split; [|done]. by exists k, names.
Qed.

(** The directory of a cleaned path that names more than an anchor is the
    place above it. *)
Lemma Dir_Clean x :
  is_anchor (resolve x) = false ->
  resolve (filepath_Dir (filepath_Clean x)) = parent (resolve x).
Proof.
  intros Ha. unfold filepath_Clean.
  pose proof (resolve_clean x) as Hcl.
  destruct (resolve x) as [r es]. cbn [fst snd] in Hcl.
  destruct (not_anchor_last r es Hcl Ha) as (es' & n & -> & Hcl' & Hn).
  rewrite Dir_render by done. unfold parent. cbn [fst snd].
  by rewrite removelast_last.
Qed.

Lemma is_below_parent l : is_below (parent l) l = true.
Proof.
  destruct l as [r es]. unfold is_below, parent. cbn [fst snd].
  rewrite Bool.eqb_reflx. cbn. apply bool_decide_eq_true.
  destruct es as [|e es _] using rev_ind; [done|].
  rewrite removelast_last. by apply prefix_app_r.
Qed.

Lemma is_below_spec a l :
  is_below a l = true <-> a.1 = l.1 /\ a.2 `prefix_of` l.2.
Proof.
  unfold is_below. rewrite andb_true_iff, bool_decide_eq_true.
  split; intros [H ?]; (split; [|done]).
  - by apply Bool.eqb_prop.
  - rewrite H. apply Bool.eqb_reflx.
Qed.

(** A place is not above its own parent. *)
Lemma not_below_parent l :
  is_anchor l = false -> is_below l (parent l) = false.
Proof.
  intros Ha. apply not_true_iff_false. intros [_ Hp]%is_below_spec.
  destruct l as [r es]. unfold parent in Hp. cbn [fst snd] in Hp.
  destruct es as [|e es _] using rev_ind; [done|].
  rewrite removelast_last in Hp. apply prefix_length in Hp.
  rewrite length_app in Hp. simpl in Hp. lia.
Qed.

Lemma lookup_node_not_anchor fs l :
  lookup_node fs l <> Some Dir -> is_anchor l = false.
Proof.
  intros H. destruct (is_anchor l) eqn:E; [|done].
  by rewrite is_anchor_lookup in H.
Qed.

Lemma lookup_node_lookup fs l n :
  fs !! l = Some n -> is_anchor l = false -> lookup_node fs l = Some n.
Proof. intros H Ha. unfold lookup_node. by rewrite Ha. Qed.

(** The loop, from the names [done] already downloaded to the names [names]
    still to download. *)
Lemma download_loop F0 O0 D0 sb p d :
  O0 !! (sb, p) = None ->
  (forall n n', listed_in O0 sb p n -> listed_in O0 sb p n' ->
                is_below (download_place p d n) (download_place p d n') = true ->
                n = n') ->
  (forall n, listed_in O0 sb p n ->
             lookup_node F0 (download_place p d n) <> Some Dir) ->
  (forall n up data, listed_in O0 sb p n ->
                     is_below up (parent (download_place p d n)) = true ->
                     lookup_node F0 up <> Some (File data)) ->
  forall names done w,
    NoDup (done ++ names) ->
    (forall n, n ∈ done ++ names -> listed_in O0 sb p n) ->
    downloaded F0 O0 D0 sb p d done w ->
    exists w',
      for_each names (copyFromGcsToLocal_entry sb p d) w = Returned tt w'
      /\ downloaded F0 O0 D0 sb p d (done ++ names) w'.
Proof.
  intros Hroot Hfree Hnodir Hway names.
  induction names as [|m names IH]; intros done w Hnd Hall Hc.
  - exists w. by rewrite app_nil_r.
  - cbn [for_each].
    assert (Hm : listed_in O0 sb p m) by (apply Hall; set_solver).
    assert (Hfresh : m ∉ done).
    { intros Hin. apply NoDup_app in Hnd as (_ & Hnd & _).
      apply (Hnd m Hin). by left. }
    destruct Hc as (Hq & Ho & Hd & Hdone & Hrest).
    pose proof Hm as [Hp [data Hdata]].
    assert (Hne : m <> p) by (intros ->; by rewrite Hroot in Hdata).
    destruct (local_destination_clean p d m Hp Hne) as [x Hx].
    assert (Ha : is_anchor (download_place p d m) = false)
      by (eapply lookup_node_not_anchor; by apply Hnodir).
    assert (Hdir : resolve (filepath_Dir (local_destination p d m))
                   = parent (download_place p d m)).
    { unfold download_place. rewrite Hx. rewrite Dir_Clean.
      - by rewrite Clean_resolve.
      - unfold download_place in Ha. by rewrite Hx, Clean_resolve in Ha. }
    (* no file is in the way of the directory *)
    destruct (mkdir_all_Some (parent (download_place p d m)).1
                (rev (parent (download_place p d m)).2) (files w))
      as [fs1 Hmk].
    { intros l data' Hr Hpre. rewrite rev_involutive in Hpre.
      assert (Hb : is_below l (parent (download_place p d m)) = true)
        by by apply is_below_spec.
      destruct (is_anchor l) eqn:El; [by rewrite is_anchor_lookup|].
      unfold lookup_node. rewrite El.
      destruct (Hrest l) as [(n & Hn & ->)|[Heq|(_ & Heq & _)]].
      - exfalso. apply Hfresh.
        rewrite <- (Hfree n m); [done|apply Hall; set_solver|done|].
        eapply is_below_trans; [exact Hb|apply is_below_parent].
      - rewrite Heq. intros Hf. apply (Hway m l data' Hm Hb).
        by apply lookup_node_lookup.
      - by rewrite Heq. }
    assert (Hnd1 : lookup_node fs1 (download_place p d m) <> Some Dir).
    { unfold lookup_node. rewrite Ha. intros Hf.
      apply (mkdir_all_new _ _ _ _ _ _ Hmk) in Hf as [Hf|(_ & Hr & Hpre & _)].
      - destruct (Hrest (download_place p d m))
          as [(n & Hn & Heq)|[Heq|(_ & _ & n & Hn & Hb)]].
        + apply Hfresh. rewrite (Hfree m n); [done|done|apply Hall; set_solver|].
          rewrite Heq. apply is_below_refl.
        + apply (Hnodir m Hm). apply lookup_node_lookup; [unfold location in *; congruence|done].
        + apply Hfresh. rewrite (Hfree m n); [done|done|apply Hall; set_solver|].
          eapply is_below_trans; [exact Hb|apply is_below_parent].
      - rewrite rev_involutive in Hpre.
        pose proof (not_below_parent _ Ha) as Hnb.
        apply not_true_iff_false in Hnb. apply Hnb. by apply is_below_spec. }
    assert (Hpar1 : lookup_node fs1 (parent (download_place p d m)) = Some Dir).
    { pose proof (mkdir_all_made _ _ _ _ Hmk) as H.
      rewrite rev_involutive in H. by destruct (parent _). }
    assert (Hdst : local_destination p d m <> "")
      by (rewrite Hx; apply Clean_not_empty).
    assert (Hsrc : objects w !! (sb, m) = Some data) by by rewrite Ho.
    rewrite <- Hdir in Hmk.
    destruct (copyFileFromGcsToLocal_ok sb m (local_destination p d m) w data fs1
                Hq Hdst Hsrc Hmk Hnd1 Hpar1)
      as (w1 & Hrun & Hf1 & Ho1 & Hd1 & Hfa1 & _).
    rewrite Hdir in Hmk.
    rewrite entry_is_download by done.
    rewrite (bind_Returned _ _ _ _ _ Hrun).
    fold (download_place p d m) in Hf1.
    destruct (IH (done ++ [m]) w1) as (w' & Hrun' & Hc').
    + by rewrite <- app_assoc.
    + intros n'. rewrite <- app_assoc. apply Hall.
    + split; [intros o; rewrite Hfa1; apply Hq|].
      split; [congruence|]. split; [congruence|]. split.
      * intros n data' [Hn|Hn]%elem_of_app Hdata';
          [|apply list_elem_of_singleton in Hn; subst n].
        -- rewrite Hf1, lookup_insert_ne.
           ++ eapply mkdir_all_keeps; [exact Hmk|]. by apply Hdone.
           ++ intros Heq. apply Hfresh.
              rewrite (Hfree m n); [done|done|apply Hall; set_solver|].
              rewrite Heq. apply is_below_refl.
        -- rewrite Hf1, lookup_insert_eq. congruence.
      * intros l.
        destruct (decide (l = download_place p d m)) as [->|Hl].
        { left. exists m. split; [set_solver|done]. }
        rewrite Hf1, lookup_insert_ne by done.
        destruct (files w !! l) as [node|] eqn:El.
        -- rewrite (mkdir_all_keeps _ _ _ _ _ _ Hmk El).
           destruct (Hrest l) as [(n & Hn & ->)|[Heq|(H0 & Heq & n & Hn & Hb)]].
           ++ left. exists n. split; [set_solver|done].
           ++ right; left. unfold location in *; congruence.
           ++ right; right. split; [done|]. split; [unfold location in *; congruence|].
              exists n. split; [set_solver|done].
        -- destruct (fs1 !! l) as [node|] eqn:E1.
           ++ apply (mkdir_all_new _ _ _ _ _ _ Hmk) in E1
                as [E1|(-> & Hr & Hpre & _)]; [unfold location in *; congruence|].
              rewrite rev_involutive in Hpre.
              destruct (Hrest l) as [(n & Hn & ->)|[Heq|(_ & Heq & _)]].
              ** left. exists n. split; [set_solver|done].
              ** right; right. split; [unfold location in *; congruence|]. split; [done|].
                 exists m. split; [set_solver|]. by apply is_below_spec.
              ** unfold location in *; congruence.
           ++ destruct (Hrest l) as [(n & Hn & ->)|[Heq|(_ & Heq & _)]].
              ** left. exists n. split; [set_solver|done].
              ** right; left. unfold location in *; congruence.
              ** unfold location in *; congruence.
    + exists w'. by rewrite <- app_assoc in Hc'.
Qed.

(** X12: the download of a prefix, when nothing fails, no object is named
    like the prefix itself, no place of a download lies at or above the place
    of another, and on the local side no directory stands at a place and no
    file above one.  The copy returns [nil]; every object listed under the
    prefix is found at its place with its bytes, also where a file was there
    before; every other location is as it was, or is a directory made above a
    place; the objects are as they were and no descriptor stays open. *)
Theorem download_prefix srcBucket srcPath dstPath w :
  quiet w ->
  objects w !! (srcBucket, srcPath) = None ->
  (forall n n',
     listed_in (objects w) srcBucket srcPath n ->
     listed_in (objects w) srcBucket srcPath n' ->
     is_below (download_place srcPath dstPath n)
              (download_place srcPath dstPath n') = true ->
     n = n') ->
  (forall n, listed_in (objects w) srcBucket srcPath n ->
             lookup_node (files w) (download_place srcPath dstPath n)
             <> Some Dir) ->
  (forall n up data,
     listed_in (objects w) srcBucket srcPath n ->
     is_below up (parent (download_place srcPath dstPath n)) = true ->
     lookup_node (files w) up <> Some (File data)) ->
  exists w',
    copyFromGcsToLocal srcBucket srcPath dstPath w = Returned None w'
    /\ (forall n data,
          String.prefix srcPath n = true ->
          objects w !! (srcBucket, n) = Some data ->
          files w' !! download_place srcPath dstPath n = Some (File data))
    /\ (forall l,
          (forall n, listed_in (objects w) srcBucket srcPath n ->
                     l <> download_place srcPath dstPath n) ->
          files w' !! l = files w !! l
          \/ (files w !! l = None /\ files w' !! l = Some Dir
              /\ exists n,
                   listed_in (objects w) srcBucket srcPath n
                   /\ is_below l (parent (download_place srcPath dstPath n))
                      = true))
    /\ objects w' = objects w /\ fds w' = fds w.
Proof.
  intros Hq Hroot Hfree Hnodir Hway. unfold copyFromGcsToLocal.
  erewrite bind_Returned; [|apply must_ok, storage_NewClient_ok, Hq].
  erewrite bind_Returned; [|apply must_ok, list_objects_ok; intros o; apply Hq].
  world_simpl.
  set (names := merge_sort string_le _).
  set (w1 := add_trace _ (add_trace _ w)).
  destruct (download_loop (files w) (objects w) (fds w) srcBucket srcPath dstPath
              Hroot Hfree Hnodir Hway names [] w1)
    as (w' & Hrun & (Hq' & Ho & Hd & Hdone & Hrest)).
  - apply NoDup_listing.
  - intros n Hn. by apply elem_of_listing in Hn.
  - split; [intros o; apply Hq|]. split; [done|]. split; [done|].
    split; [by intros n data ?%elem_of_nil|]. intros l. by right; left.
  - exists w'. rewrite (bind_Returned _ _ _ _ _ Hrun). split; [done|].
    split; [|split; [|done]].
    + intros n data Hp Hdata. apply Hdone; [|done].
      apply elem_of_listing. split; [done|by exists data].
    + intros l Hl.
      destruct (Hrest l) as [(n & Hn & ->)|[Heq|(H0 & Heq & n & Hn & Hb)]].
      * exfalso. apply (Hl n); [|done]. by apply elem_of_listing in Hn.
      * by left.
      * right. split; [done|]. split; [done|]. exists n. split; [|done].
        by apply elem_of_listing in Hn.
Qed.

Example download_tree_listed n :
  listed_in (objects download_tree) "bkt" "dir" n ->
  n = "dir/a.txt" \/ n = "dir/sub/b.txt".
Proof.
  intros [Hp [v Hv]]. apply elem_of_map_to_list in Hv. vm_compute in Hv.
  repeat (apply elem_of_cons in Hv as [Hv|Hv];
          [injection Hv as [= -> _]; revert Hp; vm_compute; intros;
           first [by left | by right | discriminate]|]).
  by apply elem_of_nil in Hv.
Qed.

Example download_tree_files up data :
  lookup_node (files download_tree) up = Some (File data) ->
  up = (false, ["out"; "a.txt"]).
Proof.
  unfold lookup_node. destruct (is_anchor up); [done|]. cbn.
  intros H. apply lookup_insert_Some in H as [[<- H]|[_ H]]; [done|].
  apply lookup_insert_Some in H as [[<- H]|[_ H]]; [done|].
  by rewrite lookup_empty in H.
Qed.

Lemma download_prefix_witness :
  exists w',
    copyFromGcsToLocal "bkt" "dir" "out" download_tree = Returned None w'
    /\ (forall n data,
          String.prefix "dir" n = true ->
          objects download_tree !! ("bkt", n) = Some data ->
          files w' !! download_place "dir" "out" n = Some (File data))
    /\ (forall l,
          (forall n, listed_in (objects download_tree) "bkt" "dir" n ->
                     l <> download_place "dir" "out" n) ->
          files w' !! l = files download_tree !! l
          \/ (files download_tree !! l = None /\ files w' !! l = Some Dir
              /\ exists n,
                   listed_in (objects download_tree) "bkt" "dir" n
                   /\ is_below l (parent (download_place "dir" "out" n)) = true))
    /\ objects w' = objects download_tree /\ fds w' = fds download_tree.
Proof.
  apply (download_prefix "bkt" "dir" "out" download_tree).
  - intros o. reflexivity.
  - reflexivity.
  - intros n n' [-> | ->]%download_tree_listed [-> | ->]%download_tree_listed;
      vm_compute; first [reflexivity | discriminate].
  - intros n [-> | ->]%download_tree_listed; vm_compute; discriminate.
  - intros n up data [-> | ->]%download_tree_listed Hb Hf;
      apply download_tree_files in Hf; subst up; vm_compute in Hb; discriminate.
Defined.


(** * Uploading a tree *)

Lemma join_slash_inj r r' :
  names_ok r -> names_ok r' -> join_slash r = join_slash r' -> r = r'.
Proof.
  intros Hr Hr' H.
  destruct (decide (r = [])) as [->|Hne].
  - destruct (decide (r' = [])) as [->|Hne']; [done|].
    symmetry in H. by apply join_names_not_empty in H.
  - destruct (decide (r' = [])) as [->|Hne'].
    + by apply join_names_not_empty in H.
    + rewrite <- (split_join r), <- (split_join r'), H;
        [done|done|by apply names_not_slash|done|by apply names_not_slash].
Qed.

Lemma upload_key_inj d r r' :
  names_ok r -> names_ok r' -> upload_key d r = upload_key d r' -> r = r'.
Proof.
  intros Hr Hr' H. apply under_prefix_inj in H. by apply join_slash_inj.
Qed.

Section TreeUpload.
Context (F0 : gmap location fnode) (srcPath dstBucket dstPath : string).
Context (Src : location).
Context (HresS : resolve srcPath = Src).
Context (Hwf : wf_files F0).

Local Abbreviation Uploaded' := (Uploaded F0 Src dstBucket dstPath).
Local Abbreviation up_fn := (copyFromLocalToGcs_walkFn srcPath dstBucket dstPath).

Lemma Uploaded_refl w : quiet w -> Uploaded' [] w w.
Proof.
intros Hq. split; [done|]. split; [done|].
split; [by intros r ?%elem_of_nil | done].
Qed.

Lemma Uploaded_read o w : quiet w -> Uploaded' [] w (add_trace o w).
Proof.
intros Hq. split; [done|]. split; [done|].
split; [by intros r ?%elem_of_nil | done].
Qed.

Lemma Uploaded_trans r1 r2 w1 w2 w3 :
Uploaded' r1 w1 w2 -> Uploaded' r2 w2 w3 -> Uploaded' (r1 ++ r2) w1 w3.
Proof.
intros (_ & Hf1 & Hc1 & Hk1) (Hq & Hf2 & Hc2 & Hk2).
split; [done|]. split; [congruence|]. split.
- intros r [Hr|Hr]%elem_of_app; [|by apply Hc2].
  destruct (Hc1 r Hr) as (Hn & data & Hd & Ho). split; [done|].
  exists data. split; [done|].
  destruct (decide (r ∈ r2)) as [Hin|Hout].
  + destruct (Hc2 r Hin) as (_ & data' & Hd' & Ho'). congruence.
  + rewrite Hk2; [done|]. intros r' Hr' [= Heq].
    apply upload_key_inj in Heq; [congruence|done|by apply (Hc2 r')].
- intros k Hk. rewrite Hk2, Hk1; [done| |]; intros r Hr; apply Hk;
    apply elem_of_app; [by left | by right].
Qed.

Lemma upload_walkFn_dir w path rel :
resolve path = at_path Src rel ->
up_fn path (Some {| IsDir := true |}) None w = Returned None w.
Proof.
intros Hres. unfold copyFromLocalToGcs_walkFn.
rewrite (Rel_below srcPath path rel) by by rewrite HresS.
unfold_monad. simpl. by rewrite andb_false_r.
Qed.

Lemma upload_walkFn_file w path ns n data :
quiet w -> files w = F0 -> path <> "" ->
resolve path = at_path Src (ns ++ [n]) -> names_ok (ns ++ [n]) ->
F0 !! at_path Src (ns ++ [n]) = Some (File data) ->
exists w',
  up_fn path (Some (info_of (File data))) None w = Returned None w'
  /\ Uploaded' [ns ++ [n]] w w'.
Proof.
intros Hq Hf Hp Hres Hnames Hdata.
assert (Hlast : is_name n = true)
  by by apply names_ok_app in Hnames as [_ [? _]%Forall_cons].
assert (Hnode : lookup_node (files w) (resolve path) = Some (File data)).
{ rewrite Hres, Hf. unfold lookup_node. by rewrite is_anchor_name. }
eexists. split.
- unfold copyFromLocalToGcs_walkFn.
  rewrite (Rel_below srcPath path (ns ++ [n])) by by rewrite HresS.
  assert (match ns ++ [n] with [] => "." | _ => join_slash (ns ++ [n]) end
          = join_slash (ns ++ [n])) as -> by by destruct ns.
  erewrite bind_Returned; [|reflexivity].
  erewrite bind_Returned; [|reflexivity].
  assert (String.eqb (join_slash (ns ++ [n])) "." = false) as ->.
  { apply String.eqb_neq, join_names_not_dot; [done|by destruct ns]. }
  cbn [negb andb info_IsDir info_of IsDir].
  erewrite bind_Returned; [|by apply copyFileFromLocalToGcs_ok].
  reflexivity.
- split; [intros o; apply Hq|]. split; [done|]. world_simpl. split.
  + intros r ->%list_elem_of_singleton. split; [done|]. exists data.
    split; [done|]. apply lookup_insert_eq.
  + intros k Hk. apply lookup_insert_ne. intros Heq.
    apply (Hk (ns ++ [n])); [by apply list_elem_of_singleton|done].
Qed.

Lemma walk_names_upload walk_rec path rel :
path <> "" -> resolve path = at_path Src rel -> names_ok rel ->
(forall n filename node w,
   F0 !! at_path Src (rel ++ [n]) = Some node -> quiet w -> files w = F0 ->
   filename <> "" -> resolve filename = at_path Src (rel ++ [n]) ->
   upload_walked F0 Src dstBucket dstPath (rel ++ [n]) w
     (walk_rec filename (info_of node) up_fn w)) ->
forall names w,
  (forall n, n ∈ names -> is_Some (F0 !! at_path Src (rel ++ [n]))) ->
  quiet w -> files w = F0 ->
  exists w' rels,
    walk_names walk_rec path up_fn names w = Returned None w'
    /\ Uploaded' rels w w'
    /\ forall r, r ∈ rels <->
                 exists n, n ∈ names /\ leaf_under F0 Src (rel ++ [n]) r.
Proof.
intros Hpath Hres Hrel Hrec names.
induction names as [|n names IH]; intros w Hnames Hq Hf.
{ exists w, []. split; [done|]. split; [by apply Uploaded_refl|].
  intros r. split; [by intros ?%elem_of_nil|].
  by intros (n & ?%elem_of_nil & _). }
destruct (Hnames n) as [node Hnode]; [by left|].
assert (Hn : is_name n = true) by (apply (child_is_name F0 Src Hwf rel); eauto).
set (filename := filepath_Join [path; n]).
assert (Hfres : resolve filename = at_path Src (rel ++ [n])).
{ unfold filename. rewrite Join_name by done. rewrite Hres.
  unfold at_path. simpl. by rewrite app_assoc. }
assert (Hfne : filename <> "")
  by (apply Join_not_empty; by apply name_nonempty).
cbn [walk_names]. fold filename.
erewrite bind_Returned.
2:{ apply (os_Lstat_ok filename w node); [done|done|].
    rewrite Hfres, Hf. unfold lookup_node. by rewrite is_anchor_name. }
destruct (Hrec n filename node (add_trace (Lstat filename) w))
  as (w1 & rels1 & Hrun1 & Hc1 & Hin1); [done|done|done|done|done|].
erewrite bind_Returned; [|exact Hrun1].
destruct (IH w1) as (w2 & rels2 & Hrun2 & Hc2 & Hin2).
{ intros n' Hn'. apply Hnames. by right. }
{ apply Hc1. }
{ destruct Hc1 as (_ & -> & _). done. }
exists w2, (rels1 ++ rels2). split; [done|]. split.
- change (rels1 ++ rels2) with ([] ++ (rels1 ++ rels2)).
  eapply Uploaded_trans; [apply (Uploaded_read (Lstat filename)); done|].
  eapply Uploaded_trans; eassumption.
- intros r. rewrite elem_of_app, Hin1, Hin2. split.
  + intros [H|(n' & Hn' & H)]; [exists n | exists n']; split; eauto;
      [by left | by right].
  + intros (n' & [->|Hn']%elem_of_cons & H); [by left | right; eauto].
Qed.

Lemma walk_upload fuel : forall rel path node w,
quiet w -> files w = F0 -> path <> "" ->
resolve path = at_path Src rel -> names_ok rel ->
lookup_node F0 (at_path Src rel) = Some node ->
(forall data, node = File data -> rel <> []) ->
(forall r, is_Some (F0 !! at_path Src (rel ++ r)) -> length r < fuel) ->
0 < fuel ->
upload_walked F0 Src dstBucket dstPath rel w
  (walk fuel path (info_of node) up_fn w).
Proof.
induction fuel as [|fuel IH]; intros rel path node w Hq Hf Hpath Hres Hrel
  Hnode Hfile Hdepth Hpos; [lia|].
cbn [walk]. destruct node as [data|]; cbn [info_of IsDir negb].
- (* a regular file *)
  assert (Hkey : F0 !! at_path Src rel = Some (File data)).
  { unfold lookup_node in Hnode. by destruct (is_anchor _). }
  destruct rel as [|n ns _] using rev_ind; [by destruct (Hfile data)|].
  destruct (upload_walkFn_file w path ns n data) as (w' & Hrun & Hc);
    try done.
  exists w', [ns ++ [n]]. split; [done|]. split; [done|].
  intros r. rewrite list_elem_of_singleton. split.
  + intros ->. split; [done|]. split; [done|]. eauto.
  + by apply (leaf_under_file F0 Src Hwf _ data).
- (* a directory *)
  erewrite bind_Returned.
  2:{ apply (readDirNames_ok path w); [done|done|]. by rewrite Hres, Hf. }
  cbn beta iota.
  erewrite bind_Returned; [|by eapply upload_walkFn_dir].
  set (w1 := add_trace (ReadDir path) w).
  destruct (walk_names_upload (walk fuel) path rel Hpath Hres Hrel)
    with (names := dir_names (files w) (resolve path)) (w := w1)
    as (w' & rels & Hrun & Hc & Hin).
  + intros n filename node w2 Hn Hq2 Hf2 Hfne Hfres.
    apply IH; try done.
    * apply names_ok_app. split; [done|]. constructor; [|done].
      apply (child_is_name F0 Src Hwf rel). eauto.
    * unfold lookup_node. rewrite is_anchor_name; [done|].
      apply (child_is_name F0 Src Hwf rel). eauto.
    * intros _ _. by destruct rel.
    * intros r Hr. rewrite <- app_assoc in Hr. apply Hdepth in Hr.
      simpl in Hr. lia.
    * assert (length [n] < 1 + fuel) as Hl; [|simpl in Hl; lia].
      apply Hdepth. eauto.
  + intros n Hn. apply elem_of_dir_names in Hn.
    by rewrite Hres, at_path_app, Hf in Hn.
  + done.
  + done.
  + exists w', rels. split; [done|]. split.
    * change rels with ([] ++ rels).
      eapply Uploaded_trans; [apply (Uploaded_read (ReadDir path)); done|done].
    * intros r. rewrite Hin. split.
      -- intros (n & _ & H). by eapply leaf_under_child.
      -- intros H.
         destruct (leaf_under_dir F0 Src Hwf rel r Hnode H) as (n & Hn & Hl).
         exists n. split; [|done]. apply elem_of_dir_names.
         by rewrite Hres, at_path_app, Hf.
Qed.
End TreeUpload.




(** * The log of a run that returns *)

Lemma calm_refl w : calm w w.
Proof. exists []. by rewrite app_nil_r. Qed.

Lemma calm_trans w1 w2 w3 : calm w1 w2 -> calm w2 w3 -> calm w1 w3.
Proof.
  intros [m1 H1] [m2 H2]. exists (m1 ++ m2).
  by rewrite H2, H1, fmap_app, app_assoc.
Qed.

Lemma calm_same w w' : log w' = log w -> calm w w'.
Proof. intros H. exists []. by rewrite app_nil_r. Qed.

Lemma calm_log_Print msg : returns calm (log_Print msg).
Proof. intros w a w' [= _ <-]. by exists [msg]. Qed.

(** ** No operation on a file or on an object writes to the log *)

Ltac calm_prim :=
  intros w a w'; unfold_monad; world_simpl; intros H; apply calm_same;
  repeat case_match; simplify_eq/=; done.

Lemma calm_Stat p : returns calm (os_Stat p).
Proof. unfold os_Stat. calm_prim. Qed.
Lemma calm_Lstat p : returns calm (os_Lstat p).
Proof. unfold os_Lstat. calm_prim. Qed.
Lemma calm_ReadDir p : returns calm (readDirNames p).
Proof. unfold readDirNames. calm_prim. Qed.
Lemma calm_Open p : returns calm (os_Open p).
Proof. unfold os_Open. calm_prim. Qed.
Lemma calm_MkdirAll p : returns calm (os_MkdirAll p).
Proof. unfold os_MkdirAll. calm_prim. Qed.
Lemma calm_OpenFile p : returns calm (os_OpenFile p).
Proof. unfold os_OpenFile. calm_prim. Qed.
Lemma calm_Sync fd : returns calm (file_Sync fd).
Proof. unfold file_Sync. calm_prim. Qed.
Lemma calm_Close fd : returns calm (file_Close fd).
Proof. unfold file_Close. calm_prim. Qed.
Lemma calm_NewClient : returns calm storage_NewClient.
Proof. unfold storage_NewClient. calm_prim. Qed.
Lemma calm_client_Close : returns calm client_Close.
Proof. unfold client_Close. calm_prim. Qed.
Lemma calm_list b pre : returns calm (list_objects b pre).
Proof. unfold list_objects. calm_prim. Qed.
Lemma calm_NewReader b n : returns calm (object_NewReader b n).
Proof. unfold object_NewReader. calm_prim. Qed.
Lemma calm_reader_Close b n : returns calm (reader_Close b n).
Proof. unfold reader_Close. calm_prim. Qed.
Lemma calm_writer_Close b n buf : returns calm (writer_Close b n buf).
Proof. unfold writer_Close. calm_prim. Qed.
Lemma calm_copier_Run sb sn db dn : returns calm (copier_Run sb sn db dn).
Proof. unfold copier_Run. calm_prim. Qed.

Lemma calm_io_Copy dst src : returns calm (io_Copy dst src).
Proof.
  unfold io_Copy, reader_endpoint, writer_endpoint, read_all, write_all.
  intros w a w'. unfold_monad. world_simpl. intros H. apply calm_same.
  destruct src as [sfd|sb sn data], dst as [dfd|db dn buf]; cbn in H;
    repeat case_match; simplify_eq/=; done.
Qed.

Create HintDb calm.

#[local] Hint Resolve calm_Stat calm_Lstat calm_ReadDir calm_Open calm_MkdirAll
  calm_OpenFile calm_Sync calm_Close calm_NewClient calm_client_Close calm_list
  calm_NewReader calm_reader_Close calm_writer_Close calm_copier_Run
  calm_io_Copy calm_log_Print : calm.

Ltac calm_step :=
  lazymatch goal with
  | |- returns _ (mret _) => apply (returns_ret calm calm_refl)
  | |- returns _ go_panic => by apply returns_never
  | |- returns _ (log_Fatal _) => by apply returns_never
  | |- returns _ (must _) => apply (returns_must calm calm_refl calm_trans)
  | |- returns _ (check _) => apply (returns_check calm calm_refl calm_trans)
  | |- returns _ (mbind _ _) => apply (returns_bind calm calm_trans); [|intros ?]
  | |- returns _ (match ?x with _ => _ end) => destruct x
  | |- returns _ _ => solve [auto with calm]
  end.

(** ** The four transfers *)

Lemma calm_LL s d : returns calm (copyFileFromLocalToLocal s d).
Proof. unfold copyFileFromLocalToLocal. repeat calm_step. Qed.

Lemma calm_LG s b d : returns calm (copyFileFromLocalToGcs s b d).
Proof. unfold copyFileFromLocalToGcs. repeat calm_step. Qed.

Lemma calm_GL b s d : returns calm (copyFileFromGcsToLocal b s d).
Proof. unfold copyFileFromGcsToLocal. repeat calm_step. Qed.

Lemma calm_GG sb s db d : returns calm (copyFileFromGcsToGcs sb s db d).
Proof. unfold copyFileFromGcsToGcs. repeat calm_step. Qed.

#[local] Hint Resolve calm_LL calm_LG calm_GL calm_GG : calm.

Lemma calm_walkFn_LL s d p i e :
  returns calm (copyFromLocalToLocal_walkFn s d p i e).
Proof. unfold copyFromLocalToLocal_walkFn. repeat calm_step. Qed.

Lemma calm_walkFn_LG s b d p i e :
  returns calm (copyFromLocalToGcs_walkFn s b d p i e).
Proof. unfold copyFromLocalToGcs_walkFn. repeat calm_step. Qed.

(** ** The four directions *)

Lemma calm_Walk fn fuel root :
  (forall p i e, returns calm (fn p i e)) ->
  returns calm (filepath_Walk fuel root fn).
Proof.
  apply (returns_Walk calm calm_refl calm_trans calm_Lstat calm_ReadDir).
Qed.

Lemma calm_copyFromLocalToLocal fuel s d : returns calm (copyFromLocalToLocal fuel s d).
Proof.
  intros w u w'. unfold copyFromLocalToLocal.
  intros (fi & w1 & H1%must_Returned_inv & H)%bind_Returned_inv.
  apply calm_Stat in H1. eapply calm_trans; [exact H1|].
  destruct (negb (IsDir fi)); [by eapply calm_LL|].
  apply bind_Returned_inv in H as (err & w2 & H2 & H).
  pose proof (Walk_returns_nil _ _ _ _ _ _ (walkFn_LL_fatal s d) H2) as ->.
  apply calm_Walk in H2; [|apply calm_walkFn_LL].
  injection H as _ <-. exact H2.
Qed.

Lemma calm_copyFromLocalToGcs fuel s b d :
  returns calm (copyFromLocalToGcs fuel s b d).
Proof.
  intros w u w'. unfold copyFromLocalToGcs.
  intros (fi & w1 & H1%must_Returned_inv & H)%bind_Returned_inv.
  apply calm_Stat in H1. eapply calm_trans; [exact H1|].
  destruct (negb (IsDir fi)); [by eapply calm_LG|].
  apply bind_Returned_inv in H as (err & w2 & H2 & H).
  pose proof (Walk_returns_nil _ _ _ _ _ _ (walkFn_LG_fatal s b d) H2) as ->.
  apply calm_Walk in H2; [|apply calm_walkFn_LG].
  injection H as _ <-. exact H2.
Qed.

Lemma calm_copyFromGcsToLocal b s d : returns calm (copyFromGcsToLocal b s d).
Proof.
  unfold copyFromGcsToLocal. repeat calm_step.
  apply (returns_for_each calm calm_refl calm_trans). intros name.
  unfold copyFromGcsToLocal_entry. repeat calm_step.
Qed.

Lemma calm_copyFromGcsToGcs sb s db d : returns calm (copyFromGcsToGcs sb s db d).
Proof.
  unfold copyFromGcsToGcs. repeat calm_step.
  apply (returns_for_each calm calm_refl calm_trans). intros name.
  unfold copyFromGcsToGcs_entry. repeat calm_step.
Qed.

(** X14: a run of [main] that returns has logged no error.  What it added
    to the log are plain lines: the two lines that name the source and the
    destination, the lines of the transfers, and the closing line.  No
    operation on a file or on an object writes to the log, every error that
    is logged ends the process, and the [log.Println] after a walk is never
    reached. *)
Theorem returned_run_logs_no_error fuel program args w w' :
  main fuel program args w = Returned tt w' ->
  exists msgs,
    log w'
    = log w ++ (Line <$> ("From: " +:+ nth 0 args "") :: ("To: " +:+ nth 1 args "")
                         :: msgs ++ ["Finished copying"]).
Proof.
  unfold main. destruct (Nat.ltb _ _); [done|].
  intros (u1 & w1 & H1 & H)%bind_Returned_inv. injection H1 as _ <-.
  apply bind_Returned_inv in H as (u2 & w2 & H2 & H). injection H2 as _ <-.
  destruct (splitGcsPath (nth 0 args "")) as [[fromBkt fromObj] e1].
  destruct (splitGcsPath (nth 1 args "")) as [[toBkt toObj] e2].
  apply bind_Returned_inv in H as (u3 & w3 & H3 & H). injection H as <-.
  assert (Hc : calm (add_log (Line ("To: " +:+ nth 1 args ""))
                       (add_log (Line ("From: " +:+ nth 0 args "")) w)) w3).
  { destruct (is_nil e1), (is_nil e2).
    - apply bind_Returned_inv in H3 as (r & w4 & H4 & H3). injection H3 as _ <-.
      by eapply calm_copyFromGcsToGcs.
    - apply bind_Returned_inv in H3 as (r & w4 & H4 & H3). injection H3 as _ <-.
      by eapply calm_copyFromGcsToLocal.
    - by eapply calm_copyFromLocalToGcs.
    - by eapply calm_copyFromLocalToLocal. }
  destruct Hc as [msgs Hm]. exists msgs. cbn [log add_log]. rewrite Hm.
  cbn [log add_log]. rewrite fmap_cons, fmap_cons, fmap_app. cbn [fmap list_fmap].
  by rewrite <- !app_assoc.
Qed.

Lemma returned_run_logs_no_error_witness :
  exists msgs,
    log sample_tree_copied
    = log sample_tree
      ++ (Line <$> ("From: " +:+ nth 0 ["a"; "dst"] "")
                   :: ("To: " +:+ nth 1 ["a"; "dst"] "")
                   :: msgs ++ ["Finished copying"]).
Proof.
  apply (returned_run_logs_no_error 5 "gcs_copy" ["a"; "dst"]).
  vm_compute. reflexivity.
Defined.


(** * One local file copied to a path *)

(** A path is rooted exactly if its first element is empty and not the only
    one. *)
Lemma is_rooted_split s :
  is_rooted s = match split_slash s with
                | "" :: _ :: _ => true
                | _ => false
                end.
Proof.
  destruct s as [|c s]; [done|]. cbn [is_rooted split_slash].
  destruct (Ascii.eqb c slash).
  - pose proof (split_slash_nonempty s). by destruct (split_slash s).
  - by destruct (split_slash s).
Qed.

(** The directory of a path that ends with a name is the place above the
    file that the path names. *)
Lemma Dir_last_name dst es n :
  split_slash dst = es ++ [n] -> is_name n = true ->
  resolve dst = ((resolve dst).1, (parent (resolve dst)).2 ++ [n])
  /\ resolve (filepath_Dir dst) = parent (resolve dst).
Proof.
  intros Hs Hn.
  assert (Hel : Forall (fun e => string_forallb not_slash e = true) (es ++ [""])).
  { pose proof (split_slash_elems dst) as H. rewrite Hs in H.
    apply Forall_app in H as [H _]. apply Forall_app. split; [done|].
    by constructor. }
  assert (Hres : resolve dst
                 = (is_rooted dst,
                    rev (fold_left (clean_step (is_rooted dst)) es []) ++ [n])).
  { unfold resolve. rewrite Hs, fold_left_app. cbn [fold_left].
    by rewrite is_name_step. }
  split.
  - rewrite Hres. unfold parent. cbn [fst snd]. by rewrite removelast_last.
  - unfold filepath_Dir. rewrite Clean_resolve, Hs, removelast_last.
    rewrite Hres. unfold parent. cbn [fst snd]. rewrite removelast_last.
    assert (Hr : is_rooted (join_slash (es ++ [""])) = is_rooted dst).
    { rewrite !is_rooted_split, Hs, split_join; [|by destruct es|done].
      destruct es as [|e1 es']; cbn [app].
      - destruct n; [done|]. done.
      - destruct e1; [|done]. by destruct es'. }
    unfold resolve. rewrite Hr. f_equal.
    rewrite split_join; [|by destruct es|done].
    by rewrite fold_skip_last.
Qed.


Example sample_tree_files up old :
  lookup_node (files sample_tree) up = Some (File old) ->
  up = (false, ["a"; "1.txt"]) \/ up = (false, ["a"; "sub"; "2.txt"]).
Proof.
  unfold lookup_node. destruct (is_anchor up); [done|]. cbn.
  intros H. repeat (apply lookup_insert_Some in H as [[<- H]|[_ H]];
                    [first [by left | by right | done]|]).
  by rewrite lookup_empty in H.
Qed.


